(** * B&K Spacer Calculator: the spacer allocation engine

    A shallow embedding of the allocation engine of
    [BK_ShopReady_FinalWithToggles_UISpaced.py]:

    - [SpacerInventory.use_spacers] (the ledger reservation),
    - [SpacerCalculatorApp.find_spacer_combo] (the combo search),
    - [SpacerCalculatorApp.get_deflection_offset],
    - [SpacerCalculatorApp.calculate_spacers] (the allocation pipeline).

    Python numbers (the spacer sizes are [int]s and [float]s) are kept
    abstract: every definition and every general theorem is stated over an
    arbitrary arithmetic [Number R], so that nothing proved here depends on
    how sums are rounded.  The concrete runs use exact decimal arithmetic
    (rationals in lowest terms), on inputs where the two agree. *)

From Stdlib Require Import String.
From Stdlib Require Import List ZArith QArith Qround Bool Lia.
From Stdlib Require Import Sorted Permutation.
Import ListNotations.

Local Open Scope Z_scope.

(** ** Numbers *)

(** The operations the engine performs on spacer sizes, targets and
    tolerances.  [lit m d] is the decimal literal [m * 10^-d] (so [0.0005] is
    [lit 5 4]); [of_int] is an [int] literal; [nround n x] is [round(x, n)].
    Sizes are dictionary keys: two sizes are the same key when they are
    equal. *)
Class Number (R : Type) := {
  num_eq_dec : forall x y : R, {x = y} + {x <> y};
  of_int : Z -> R;
  lit : Z -> nat -> R;
  nadd : R -> R -> R;
  nsub : R -> R -> R;
  nmul : R -> R -> R;
  ndiv : R -> R -> R;
  nleb : R -> R -> bool;
  nltb : R -> R -> bool;
  nround : nat -> R -> R
}.

Declare Scope num_scope.
Delimit Scope num_scope with num.
Infix "+^" := nadd (at level 50, left associativity) : num_scope.
Infix "-^" := nsub (at level 50, left associativity) : num_scope.
Infix "*^" := nmul (at level 40, left associativity) : num_scope.
Infix "/^" := ndiv (at level 40, left associativity) : num_scope.
Infix "<=^" := nleb (at level 70, no associativity) : num_scope.
Infix "<^" := nltb (at level 70, no associativity) : num_scope.

(** Exact decimal arithmetic: rationals kept in lowest terms, so that equal
    numbers are equal terms. *)
Module ExactDecimal.

Definition eq_dec (x y : Q) : {x = y} + {x <> y}.
Proof. decide equality; [apply Pos.eq_dec | apply Z.eq_dec]. Defined.

Definition pow10 (d : nat) : positive := Pos.pow 10 (Pos.of_nat d).

Definition scale (d : nat) : positive :=
  match d with O => 1%positive | _ => pow10 d end.

Definition dec (m : Z) (d : nat) : Q := Qred (m # scale d).

(** [round(x, n)]: nearest multiple of [10^-n], ties to the even one. *)
Definition round (n : nat) (x : Q) : Q :=
  let y := (x * inject_Z (Zpos (scale n)))%Q in
  let f := Qfloor y in
  let frac := (y - inject_Z f)%Q in
  let k := match (frac ?= 1 # 2)%Q with
           | Lt => f
           | Gt => f + 1
           | Eq => if Z.even f then f else f + 1
           end in
  Qred (k # scale n).

#[export] Instance number : Number Q := {
  num_eq_dec := eq_dec;
  of_int z := inject_Z z;
  lit := dec;
  nadd x y := Qred (x + y);
  nsub x y := Qred (x - y);
  nmul x y := Qred (x * y);
  ndiv x y := Qred (x / y);
  nleb x y := Qle_bool x y;
  nltb x y := negb (Qle_bool y x);
  nround := round
}.

End ExactDecimal.

(** The result of a statement that may raise. *)
Inductive result (E A : Type) :=
| Ok (a : A)
| Raise (e : E).
Arguments Ok {E A} a.
Arguments Raise {E A} e.

Section Engine.

Context {R : Type} {NR : Number R}.
Local Open Scope num_scope.

Definition num_eqb (x y : R) : bool :=
  if num_eq_dec x y then true else false.

(** [sum(combo)]: Python's [sum] starts from the [int] 0 and adds from the
    left. *)
Definition sum (combo : list R) : R :=
  fold_left nadd combo (of_int 0).

(** ** [collections.Counter]

    A [Counter] is a [dict] from sizes to [int] counts; a [dict] keeps its
    keys in insertion order, so it is an association list. *)
Definition Counter : Type := list (R * Z).

Definition items (c : Counter) : list (R * Z) := c.

Definition keys (c : Counter) : list R := map fst c.

(** [k in c] *)
Fixpoint contains (c : Counter) (k : R) : bool :=
  match c with
  | [] => false
  | (k', _) :: c' => if num_eq_dec k k' then true else contains c' k
  end.

(** [c[k]] and [c.get(k, 0)]: a missing key counts 0 (and is not inserted). *)
Fixpoint get (c : Counter) (k : R) : Z :=
  match c with
  | [] => 0
  | (k', v) :: c' => if num_eq_dec k k' then v else get c' k
  end.

(** [c[k] = v]: an existing key keeps its place, a new one goes last. *)
Fixpoint set (c : Counter) (k : R) (v : Z) : Counter :=
  match c with
  | [] => [(k, v)]
  | (k', v') :: c' =>
      if num_eq_dec k k' then (k', v) :: c' else (k', v') :: set c' k v
  end.

(** [c.update(iterable)]: one more count per occurrence, in order. *)
Definition update (c : Counter) (l : list R) : Counter :=
  fold_left (fun c k => set c k (get c k + 1)) l c.

(** [Counter(iterable)] *)
Definition Counter_of (l : list R) : Counter := update [] l.

(** [a + b]: counts are added and only the positive results are kept; the
    keys of [a] come first, then those only [b] has. *)
Definition counter_add (a b : Counter) : Counter :=
  fold_left (fun res kv =>
               if negb (contains a (fst kv)) && (0 <? snd kv)
               then set res (fst kv) (snd kv) else res)
            (items b)
    (fold_left (fun res kv =>
                  let newcount := snd kv + get b (fst kv) in
                  if 0 <? newcount then set res (fst kv) newcount else res)
               (items a) []).

(** ** [sorted(..., reverse=True)]

    A stable sort into descending order, by [<] alone. *)
Fixpoint insert_desc (x : R) (l : list R) : list R :=
  match l with
  | [] => [x]
  | y :: l' => if x <^ y then y :: insert_desc x l' else x :: l
  end.

Definition sorted_reverse (l : list R) : list R :=
  fold_right insert_desc [] l.

(** [not_below x y]: [x] is not less than [y], the order between a key and
    the next one in a descending list. *)
Definition not_below (x y : R) : Prop := (x <^ y) = false.

(** ** [itertools.combinations_with_replacement]

    The [r]-tuples of positions [i1 <= ... <= ir] of the pool, in
    lexicographic order of the positions. *)
Fixpoint combinations_with_replacement (pool : list R) (r : nat)
  : list (list R) :=
  match r with
  | O => [[]]
  | S r' =>
      (fix over (pool : list R) : list (list R) :=
         match pool with
         | [] => []
         | x :: rest =>
             map (cons x) (combinations_with_replacement pool r') ++ over rest
         end) pool
  end.

(** ** The combo search *)

(** The two check boxes [find_spacer_combo] reads.  [getattr] supplies a
    fresh [IntVar(value=1)] when the attribute is missing. *)
Record Toggles := {
  minimize_shims_var : option Z;
  smart_balance_var : option Z
}.

Definition getattr_IntVar (v : option Z) : Z :=
  match v with Some x => x | None => 1 end.

(** [(target - tol_minus) <= total <= (target + tol_plus)] *)
Definition in_band (target tol_plus tol_minus total : R) : bool :=
  ((target -^ tol_minus) <=^ total) && (total <=^ (target +^ tol_plus)).

(** [tmp = Counter(combo); all(tmp[k] <= inv[k] for k in tmp)] *)
Definition within_counts (inv : Counter) (combo : list R) : bool :=
  let tmp := Counter_of combo in
  forallb (fun k => get tmp k <=? get inv k) (keys tmp).

(** The test a candidate has to pass to be returned. *)
Definition accepted (target tol_plus tol_minus : R) (inv : Counter)
  (combo : list R) : bool :=
  let total := nround 4 (sum combo) in
  if in_band target tol_plus tol_minus total
  then within_counts inv combo
  else false.

(** The inner [for combo in ...] loop: return at the first accepted one. *)
Fixpoint first_accepted (target tol_plus tol_minus : R) (inv : Counter)
  (combos : list (list R)) : option (list R) :=
  match combos with
  | [] => None
  | combo :: rest =>
      if accepted target tol_plus tol_minus inv combo then Some combo
      else first_accepted target tol_plus tol_minus inv rest
  end.

(** The outer [for r in range(1, max_stack+1)] loop, over the sizes [rs]. *)
Fixpoint search (target tol_plus tol_minus : R) (inv : Counter)
  (pool : list R) (rs : list nat) : option (list R) :=
  match rs with
  | [] => None
  | r :: rs' =>
      match first_accepted target tol_plus tol_minus inv
              (combinations_with_replacement pool r) with
      | Some combo => Some combo
      | None => search target tol_plus tol_minus inv pool rs'
      end
  end.

(** [sorted([k for k, v in inv.items() if v > 0], reverse=True)] *)
Definition positive_keys (inv : Counter) : list R :=
  sorted_reverse (map fst (filter (fun kv => 0 <? snd kv) (items inv))).

(** [find_spacer_combo]: [Some (combo, flag)] for [return list(combo), flag]
    and [None] for [return None, None]. *)
Definition find_spacer_combo (self : Toggles)
  (target tol_plus tol_minus : R) (metal_inv plastic_inv : Counter)
  (prefer_metal : bool) (max_stack : nat) : option (list R * bool) :=
  let minimize_shims := getattr_IntVar (minimize_shims_var self) in
  let smart_balance := getattr_IntVar (smart_balance_var self) in
  let keys_metal := positive_keys metal_inv in
  let keys_all := positive_keys (counter_add metal_inv plastic_inv) in
  match (if prefer_metal
         then search target tol_plus tol_minus metal_inv keys_metal
                (seq 1 max_stack)
         else None) with
  | Some combo => Some (combo, true)
  | None =>
      match search target tol_plus tol_minus
              (counter_add metal_inv plastic_inv) keys_all
              (seq 1 max_stack) with
      | Some combo => Some (combo, false)
      | None => None
      end
  end.

(** ** The ledger: [SpacerInventory] *)

Record SpacerInventory := {
  metal : Counter;
  plastic : Counter
}.

(** The result of a call that may raise: [use_spacers] raises
    [ValueError("No inventory left for spacer ...")] for the size [sz]. *)
Inductive reserved :=
| Reserved
| NoInventoryLeft (sz : R).

(** The loop of [use_spacers].  The counters are updated in place, one
    element at a time; the [raise] leaves them as they are at that point. *)
Fixpoint use_spacers_loop (self : SpacerInventory) (combo : list R)
  : SpacerInventory * reserved :=
  match combo with
  | [] => (self, Reserved)
  | sz :: rest =>
      if 0 <? get (metal self) sz then
        use_spacers_loop
          {| metal := set (metal self) sz (get (metal self) sz - 1);
             plastic := plastic self |} rest
      else if 0 <? get (plastic self) sz then
        use_spacers_loop
          {| metal := metal self;
             plastic := set (plastic self) sz (get (plastic self) sz - 1) |}
          rest
      else (self, NoInventoryLeft sz)
  end.

(** [use_spacers]; the closing [self.save()] writes the two counters to the
    inventory file and changes neither. *)
Definition use_spacers (self : SpacerInventory) (combo : list R)
  : SpacerInventory * reserved :=
  let inv := counter_add (metal self) (plastic self) in
  use_spacers_loop self combo.

(** All-or-nothing, as the specification words it: either every size is
    taken off by its multiplicity, or failure is signalled and both
    counters are as they were. *)
Definition all_or_nothing (self : SpacerInventory) (combo : list R) : Prop :=
  match use_spacers self combo with
  | (self', Reserved) =>
      forall k,
        get (metal self') k + get (plastic self') k
        = get (metal self) k + get (plastic self) k
          - Z.of_nat (count_occ num_eq_dec combo k)
  | (self', NoInventoryLeft _) =>
      metal self' = metal self /\ plastic self' = plastic self
  end.

(** [check_availability] *)
Definition check_availability (self : SpacerInventory) (combo : list R)
  : bool :=
  let inv := counter_add (metal self) (plastic self) in
  let test := Counter_of combo in
  forallb (fun sz => negb (get inv sz <? get test sz)) (keys test).

(** ** The deflection offset *)

Local Open Scope string_scope.

(** [get_deflection_offset]; [thickness] is already a [float] when
    [calculate_spacers] passes it, so [float(thickness)] cannot raise. *)
Definition get_deflection_offset (material : string) (thickness : R) : R :=
  if String.eqb material "Aluminum" then lit 5 4
  else if String.eqb material "Galvanized" || String.eqb material "Stainless"
  then (if lit 30 3 <^ thickness then lit 15 4 else lit 10 4)
  else lit 0 1.

Local Close Scope string_scope.

(** ** The allocation pipeline: [calculate_spacers] *)

(** The form fields as [calculate_spacers] has them after parsing: one
    [(size, count)] pair per comma-separated cut entry, the numeric fields
    as floats (with the defaults of [or 0] and [or 0.005] applied), the
    material menu and the auto-deflection check box. *)
Record Job := {
  cut_entries : list (R * Z);
  thickness : R;
  clearance_pct : R;
  knife_female : R;
  knife_male : R;
  coil_width : R;
  coil_weight : R;
  tol_plus : R;
  tol_minus : R;
  material : string;
  auto_deflect : bool
}.

(** The lines of the knife layout.  The source formats them as text,
    [Shoulder (target): combo], [Cut i Female (female_sum): combo] and
    [Cut i Male (male_target): combo]; the fields are kept instead. *)
Inductive line :=
| Shoulder (shoulder_clearance : R) (combo : list R)
| CutFemale (i : nat) (female_sum : R) (combo : list R)
| CutMale (i : nat) (male_target : R) (combo : list R).

Record Settings := {
  s_thickness : R;
  s_clearance : R;
  s_knife_female : R;
  s_knife_male : R;
  s_coil_width : R;
  s_coil_weight : R;
  s_scrap : R
}.

(** Counter objects live in a store and are named by their address: the
    inventory's two counters and the per-run copies are different objects,
    and an update through one address is seen through every alias of it. *)
Definition loc := nat.

Record App := {
  toggles : Toggles;
  heap : list Counter;
  inventory_metal : loc;
  inventory_plastic : loc;
  used_spacers : Counter;
  top_lines : list line;
  bottom_lines : list line;
  settings : option Settings
}.

(** What can end a run early: a field that does not parse, one of the three
    [ValueError]s of the pipeline, or an address that names no object. *)
Inductive error :=
| ParseError
| NoShoulderSpacers
| NoFemaleCombo (cut : R)
| NoMaleCombo (cut : R)
| BadReference (l : loc).

(** Statements run on the application state and may raise; the state
    reached when an exception is raised is the one the handler sees. *)
Definition M (A : Type) : Type := App -> result error A * App.

Definition ret {A : Type} (a : A) : M A := fun st => (Ok a, st).

Definition bind {A B : Type} (m : M A) (k : A -> M B) : M B :=
  fun st =>
    match m st with
    | (Ok a, st') => k a st'
    | (Raise e, st') => (Raise e, st')
    end.

Definition raise {A : Type} (e : error) : M A := fun st => (Raise e, st).

Notation "x <- m ;; k" := (bind m (fun x => k))
  (at level 100, m at next level, right associativity).
Notation "m ;;; k" := (bind m (fun _ => k))
  (at level 100, right associativity).

Definition modify (f : App -> App) : M unit := fun st => (Ok tt, f st).

Definition set_heap (h : list Counter) (st : App) : App :=
  {| toggles := toggles st; heap := h;
     inventory_metal := inventory_metal st;
     inventory_plastic := inventory_plastic st;
     used_spacers := used_spacers st;
     top_lines := top_lines st; bottom_lines := bottom_lines st;
     settings := settings st |}.

Definition set_used_spacers (u : Counter) (st : App) : App :=
  {| toggles := toggles st; heap := heap st;
     inventory_metal := inventory_metal st;
     inventory_plastic := inventory_plastic st;
     used_spacers := u;
     top_lines := top_lines st; bottom_lines := bottom_lines st;
     settings := settings st |}.

Definition set_lines (top bottom : list line) (st : App) : App :=
  {| toggles := toggles st; heap := heap st;
     inventory_metal := inventory_metal st;
     inventory_plastic := inventory_plastic st;
     used_spacers := used_spacers st;
     top_lines := top; bottom_lines := bottom;
     settings := settings st |}.

Definition set_settings (s : option Settings) (st : App) : App :=
  {| toggles := toggles st; heap := heap st;
     inventory_metal := inventory_metal st;
     inventory_plastic := inventory_plastic st;
     used_spacers := used_spacers st;
     top_lines := top_lines st; bottom_lines := bottom_lines st;
     settings := s |}.

(** The counter at address [l]. *)
Definition read (l : loc) : M Counter :=
  fun st =>
    match nth_error (heap st) l with
    | Some c => (Ok c, st)
    | None => (Raise (BadReference l), st)
    end.

Fixpoint replace_nth (h : list Counter) (l : loc) (c : Counter)
  : list Counter :=
  match h, l with
  | [], _ => []
  | _ :: h', O => c :: h'
  | c0 :: h', S l' => c0 :: replace_nth h' l' c
  end.

(** Update the counter at address [l] in place. *)
Definition write (l : loc) (c : Counter) : M unit :=
  fun st =>
    match nth_error (heap st) l with
    | Some _ => (Ok tt, set_heap (replace_nth (heap st) l c) st)
    | None => (Raise (BadReference l), st)
    end.

(** [counter.copy()]: a new object with the same counts. *)
Definition copy (l : loc) : M loc :=
  c <- read l ;;
  fun st => (Ok (length (heap st)), set_heap (heap st ++ [c]) st).

(** [counter[sz] -= 1] *)
Definition decrement (l : loc) (sz : R) : M unit :=
  c <- read l ;;
  write l (set c sz (get c sz - 1)).

(** The loop that takes the shoulder combo out of the working counters:
    [if sz in job_metal: ... elif sz in job_plastic: ...]. *)
Fixpoint take_shoulder (job_metal job_plastic : loc) (combo : list R)
  : M unit :=
  match combo with
  | [] => ret tt
  | sz :: rest =>
      m <- read job_metal ;;
      (if contains m sz then decrement job_metal sz
       else
         p <- read job_plastic ;;
         if contains p sz then decrement job_plastic sz else ret tt) ;;;
      take_shoulder job_metal job_plastic rest
  end.

(** The loop that takes a female or a male combo out of the working
    counters: [if sz in job_metal and job_metal[sz] > 0: ... elif sz in
    job_plastic and job_plastic[sz] > 0: ...]. *)
Fixpoint take_cut (job_metal job_plastic : loc) (combo : list R) : M unit :=
  match combo with
  | [] => ret tt
  | sz :: rest =>
      m <- read job_metal ;;
      (if contains m sz && (0 <? get m sz) then decrement job_metal sz
       else
         p <- read job_plastic ;;
         if contains p sz && (0 <? get p sz) then decrement job_plastic sz
         else ret tt) ;;;
      take_cut job_metal job_plastic rest
  end.

(** [self.find_spacer_combo(target, tol_plus, tol_minus, job_metal,
    job_plastic, prefer_metal=True, max_stack=8)] *)
Definition find_in_job (target tp tm : R) (job_metal job_plastic : loc)
  : M (option (list R * bool)) :=
  m <- read job_metal ;;
  p <- read job_plastic ;;
  fun st => (Ok (find_spacer_combo (toggles st) target tp tm m p true 8), st).

(** [if not combo: raise ...] lets a non-empty list through: [None] and
    the empty list are both false. *)
Definition found_combo (found : option (list R * bool)) : option (list R) :=
  match found with
  | Some (sz :: rest, _) => Some (sz :: rest)
  | _ => None
  end.

Definition append_lines (top bottom : list line) : M unit :=
  modify (fun st =>
            set_lines (top_lines st ++ top) (bottom_lines st ++ bottom) st).

Definition update_used (combo : list R) : M unit :=
  modify (fun st => set_used_spacers (update (used_spacers st) combo) st).

(** The body of [for i, cut in enumerate(cuts, 1)]. *)
Definition process_cut (tol_plus tol_minus kf km clearance deflect_offset : R)
  (job_metal job_plastic : loc) (i : nat) (cut : R) : M unit :=
  let female_on_top := Nat.eqb (i mod 2) 1 in
  found <- find_in_job cut tol_plus tol_minus job_metal job_plastic ;;
  match found_combo found with
  | None => raise (NoFemaleCombo cut)
  | Some female_combo =>
      take_cut job_metal job_plastic female_combo ;;;
      update_used female_combo ;;;
      let female_sum := sum female_combo +^ deflect_offset in
      let male_target := female_sum -^ (kf +^ km +^ of_int 2 *^ clearance) in
      found' <- find_in_job male_target (lit 1 3) (lit 1 3)
                  job_metal job_plastic ;;
      match found_combo found' with
      | None => raise (NoMaleCombo cut)
      | Some male_combo =>
          take_cut job_metal job_plastic male_combo ;;;
          update_used male_combo ;;;
          if female_on_top then
            append_lines [CutFemale i female_sum female_combo]
                         [CutMale i male_target male_combo]
          else
            append_lines [CutMale i male_target male_combo]
                         [CutFemale i female_sum female_combo]
      end
  end.

Fixpoint process_cuts (tol_plus tol_minus kf km clearance deflect_offset : R)
  (job_metal job_plastic : loc) (i : nat) (cuts : list R) : M unit :=
  match cuts with
  | [] => ret tt
  | cut :: rest =>
      process_cut tol_plus tol_minus kf km clearance deflect_offset
        job_metal job_plastic i cut ;;;
      process_cuts tol_plus tol_minus kf km clearance deflect_offset
        job_metal job_plastic (S i) rest
  end.

(** [cuts.extend([size] * count)] over the entries. *)
Definition expand_cuts (entries : list (R * Z)) : list R :=
  flat_map (fun e => repeat (fst e) (Z.to_nat (snd e))) entries.

(** [total_cut_width += size * count] over the entries. *)
Definition total_cut_width (entries : list (R * Z)) : R :=
  fold_left (fun acc e => acc +^ fst e *^ of_int (snd e)) entries (of_int 0).

Definition clearance_of (job : Job) : R :=
  thickness job *^ (clearance_pct job /^ of_int 100).

(** [deflect_offset]: 0.0 unless the auto-deflection box is ticked. *)
Definition deflect_offset_of (job : Job) : R :=
  if auto_deflect job
  then get_deflection_offset (material job) (thickness job)
  else lit 0 1.

Definition truthy (x : R) : bool := negb (num_eqb x (lit 0 1)).

(** The body of the [try] block of [calculate_spacers].  [form] is [None]
    when one of the fields does not parse. *)
Definition calculate_spacers_try (form : option Job) : M unit :=
  modify (fun st => set_used_spacers [] (set_lines [] [] st)) ;;;
  match form with
  | None => raise ParseError
  | Some job =>
      let cuts := expand_cuts (cut_entries job) in
      let clearance := clearance_of job in
      let kf := knife_female job in
      let km := knife_male job in
      let deflect_offset := deflect_offset_of job in
      st0 <- (fun st => (Ok st, st)) ;;
      job_metal <- copy (inventory_metal st0) ;;
      job_plastic <- copy (inventory_plastic st0) ;;
      let shoulder_clearance := clearance +^ kf in
      found <- find_in_job shoulder_clearance (lit 1 3) (lit 1 3)
                 job_metal job_plastic ;;
      match found_combo found with
      | None => raise NoShoulderSpacers
      | Some s_combo =>
          take_shoulder job_metal job_plastic s_combo ;;;
          update_used s_combo ;;;
          append_lines [] [Shoulder shoulder_clearance s_combo] ;;;
          process_cuts (tol_plus job) (tol_minus job) kf km clearance
            deflect_offset job_metal job_plastic 1 cuts ;;;
          let scrap :=
            if truthy (coil_width job)
            then coil_width job -^ total_cut_width (cut_entries job)
            else of_int 0 in
          modify (set_settings
                    (Some {| s_thickness := thickness job;
                             s_clearance := clearance_pct job;
                             s_knife_female := kf;
                             s_knife_male := km;
                             s_coil_width := coil_width job;
                             s_coil_weight := coil_weight job;
                             s_scrap := nround 3 scrap |}))
      end
  end.

(** What the user is shown at the end: the "Done" box or the error box. *)
Inductive shown :=
| Done
| ShowError (e : error).

(** [calculate_spacers]: the [except] clause only reports the error.  The
    summary and the preview drawn after a complete run read the inventory
    and write nothing. *)
Definition calculate_spacers (form : option Job) (st : App) : shown * App :=
  match calculate_spacers_try form st with
  | (Ok _, st') => (Done, st')
  | (Raise e, st') => (ShowError e, st')
  end.

(** The candidates in the order the two nested loops visit them. *)
Definition enumeration (pool : list R) (max_stack : nat) : list (list R) :=
  flat_map (combinations_with_replacement pool) (seq 1 max_stack).

(** [drawn_from pool c]: the stack [c] picks its sizes from [pool] at
    positions that never go back (a size may be picked again). *)
Inductive drawn_from : list R -> list R -> Prop :=
| drawn_nil pool : drawn_from pool []
| drawn_take x pool c :
    drawn_from (x :: pool) c -> drawn_from (x :: pool) (x :: c)
| drawn_skip x pool c :
    drawn_from pool c -> drawn_from (x :: pool) c.

(** What a returned combo was checked against: the metal counter for a
    result flagged all-metal, the merged counter otherwise. *)
Definition view_of (metal_inv plastic_inv : Counter) (is_metal : bool)
  : Counter :=
  if is_metal then metal_inv else counter_add metal_inv plastic_inv.

(** Minimality as the specification words it: no smaller stack drawn from
    the sizes with a positive count in either pool passes the test, under
    the limits of the two pools together. *)
Definition minimal_over_both_pools (self : Toggles)
  (target tol_plus tol_minus : R) (metal_inv plastic_inv : Counter)
  (prefer_metal : bool) (max_stack : nat) : Prop :=
  forall combo is_metal,
    find_spacer_combo self target tol_plus tol_minus metal_inv plastic_inv
      prefer_metal max_stack = Some (combo, is_metal) ->
    forall c,
      drawn_from (positive_keys (counter_add metal_inv plastic_inv)) c ->
      (1 <= length c < length combo)%nat ->
      accepted target tol_plus tol_minus
        (counter_add metal_inv plastic_inv) c = false.

(** What a successful pass of [use_spacers] over [combo] does to the
    counts of a size [k]. *)
Definition taken_off (self self' : SpacerInventory) (combo : list R) (k : R)
  : Prop :=
  get (metal self') k + get (plastic self') k
  = get (metal self) k + get (plastic self) k
    - Z.of_nat (count_occ num_eq_dec combo k)
  /\ get (metal self') k <= get (metal self) k
  /\ get (plastic self') k <= get (plastic self) k
  /\ (0 <= get (metal self) k -> 0 <= get (metal self') k)
  /\ (0 <= get (plastic self) k -> 0 <= get (plastic self') k).

(** [keeps I m Q]: from a state where [I] holds, the statement [m] ends,
    normally or by an exception, in a state where [I] holds, and a value it
    returns satisfies [Q]. *)
Definition keeps {A : Type} (I : App -> Prop) (m : M A) (Q : A -> Prop)
  : Prop :=
  forall st, I st ->
    match m st with
    | (Ok a, st') => I st' /\ Q a
    | (Raise _, st') => I st'
    end.

(** The inventory as the application sees it: the two counters its
    [SpacerInventory] object refers to. *)
Definition inventory_of (st : App) : option SpacerInventory :=
  match nth_error (heap st) (inventory_metal st),
        nth_error (heap st) (inventory_plastic st) with
  | Some m, Some p => Some {| metal := m; plastic := p |}
  | _, _ => None
  end.

(** [untouched st0 st]: every counter object of [st0] is still there in
    [st] with the same counts, and the inventory still refers to the same
    two objects. *)
Definition untouched (st0 st : App) : Prop :=
  inventory_metal st = inventory_metal st0
  /\ inventory_plastic st = inventory_plastic st0
  /\ (length (heap st0) <= length (heap st))%nat
  /\ forall l c, nth_error (heap st0) l = Some c ->
                 nth_error (heap st) l = Some c.

(** The two lines a cut leaves in the layout: the female stack found for
    the cut width within the job's tolerances, and the male stack found
    for the derived target within (0.001, 0.001); odd cuts put the female
    line on top. *)
Definition derived_pair (self : Toggles) (job : Job) (i : nat) (cut : R)
  (top bottom : line) : Prop :=
  exists female_combo female_flag male_combo male_flag m0 p0 m1 p1,
    let female_sum := sum female_combo +^ deflect_offset_of job in
    let male_target :=
      female_sum
      -^ (knife_female job +^ knife_male job +^ of_int 2 *^ clearance_of job)
    in
    find_spacer_combo self cut (tol_plus job) (tol_minus job) m0 p0 true 8
    = Some (female_combo, female_flag)
    /\ find_spacer_combo self male_target (lit 1 3) (lit 1 3) m1 p1 true 8
       = Some (male_combo, male_flag)
    /\ (top, bottom)
       = if Nat.eqb (i mod 2) 1
         then (CutFemale i female_sum female_combo,
               CutMale i male_target male_combo)
         else (CutMale i male_target male_combo,
               CutFemale i female_sum female_combo).

(** No counter object holds a negative count. *)
Definition no_negative_count (st : App) : Prop :=
  forall l c k, nth_error (heap st) l = Some c -> 0 <= get c k.

(** [same_lines st0 st]: the toggles and the layout lines are those of
    [st0]. *)
Definition same_lines (st0 st : App) : Prop :=
  toggles st = toggles st0
  /\ top_lines st = top_lines st0
  /\ bottom_lines st = bottom_lines st0.

(** The lines of the cuts [i], [i+1], ... as far as the run got. *)
Inductive paired (self : Toggles) (job : Job)
  : nat -> list R -> list line -> list line -> Prop :=
| paired_stop i cuts : paired self job i cuts [] []
| paired_next i cut cuts top bottom tops bottoms :
    derived_pair self job i cut top bottom ->
    paired self job (S i) cuts tops bottoms ->
    paired self job i (cut :: cuts) (top :: tops) (bottom :: bottoms).

(** ** The inventory editor: [save_inventory]

    The editor shows one entry per size of each counter; on "Save" every
    entry is read back with [var.get()], which raises [TclError] when the
    text is not a number ([None] below), and written to the counter under
    its size.  The inventory file is written only after all entries. *)
Inductive saved :=
| Saved
| TclError (sz : R).

(** [for sz, var in vars.items(): counter[sz] = var.get()] *)
Fixpoint write_vars (c : Counter) (vars : list (R * option Z))
  : Counter * saved :=
  match vars with
  | [] => (c, Saved)
  | (sz, Some v) :: rest => write_vars (set c sz v) rest
  | (sz, None) :: _ => (c, TclError sz)
  end.

Definition save_inventory (self : SpacerInventory)
  (metal_vars plastic_vars : list (R * option Z)) : SpacerInventory * saved :=
  match write_vars (metal self) metal_vars with
  | (m, Saved) =>
      match write_vars (plastic self) plastic_vars with
      | (p, r) => ({| metal := m; plastic := p |}, r)
      end
  | (m, TclError sz) => ({| metal := m; plastic := plastic self |}, TclError sz)
  end.

(** ** The preview: the column loop of [_draw_knife_layout]

    For each bottom line the preview draws its stack, labelled "Shoulder"
    for the first and "Cut idx (Bot)" for the others, and, when there is a
    top line for the cut, its stack labelled "Cut idx (Top)".  What is kept
    of each drawn stack is its label and its line; the coordinates and
    colours of the rectangles are left out.  [None] is an [IndexError]. *)
Inductive stack_label :=
| LabelShoulder
| LabelBottom (idx : nat)
| LabelTop (idx : nat).

Fixpoint draw_columns (top_lines bottom_lines : list line) (idxs : list nat)
  : option (list (stack_label * line)) :=
  match idxs with
  | [] => Some []
  | idx :: rest =>
      match nth_error bottom_lines idx with
      | None => None
      | Some b =>
          let label :=
            if Nat.eqb idx 0 then LabelShoulder else LabelBottom idx in
          match (if Nat.ltb 0 idx && Nat.ltb (idx - 1) (length top_lines)
                 then match nth_error top_lines (idx - 1) with
                      | Some t => Some [(LabelTop idx, t)]
                      | None => None
                      end
                 else Some []) with
          | None => None
          | Some tops =>
              match draw_columns top_lines bottom_lines rest with
              | None => None
              | Some more => Some ((label, b) :: tops ++ more)
              end
          end
      end
  end.

(** [for idx in range(total_cols)] with [total_cols = len(bottom_lines)] *)
Definition draw_knife_layout (top_lines bottom_lines : list line)
  : option (list (stack_label * line)) :=
  draw_columns top_lines bottom_lines (seq 0 (length bottom_lines)).

Definition is_top_label (l : stack_label) : bool :=
  match l with LabelTop _ => true | _ => false end.

(** The lines drawn as bottom stacks, and those drawn as top stacks. *)
Definition bottom_stacks (stacks : list (stack_label * line)) : list line :=
  map snd (filter (fun s => negb (is_top_label (fst s))) stacks).

Definition top_stacks (stacks : list (stack_label * line)) : list line :=
  map snd (filter (fun s => is_top_label (fst s)) stacks).

(** ** The PDF export: the page loop of [_save_preview_image]

    After the file dialog, the export draws [total_pages] pages of at most
    [stacks_per_page] columns.  For each [idx] of a page it draws the top
    stack of the cut first, when there is one, and then the bottom stack.
    As for the preview, a drawn stack is kept as its label ("Cut idx
    (Bottom)" is [LabelBottom idx]) and its line; [None] is an
    [IndexError], which the export reports as "Failed to save PDF". *)
Definition stacks_per_page : nat := 4.

Definition pdf_stack (tops bottoms : list line) (idx : nat)
  : option (list (stack_label * line)) :=
  match (if Nat.ltb 0 idx && Nat.ltb (idx - 1) (length tops)
         then match nth_error tops (idx - 1) with
              | Some t => Some [(LabelTop idx, t)]
              | None => None
              end
         else Some []) with
  | None => None
  | Some top =>
      match nth_error bottoms idx with
      | None => None
      | Some b =>
          Some (top ++ [(if Nat.eqb idx 0 then LabelShoulder
                         else LabelBottom idx, b)])
      end
  end.

(** [for i in range(stacks_per_page)], left at the first [idx >= total] *)
Fixpoint pdf_page_rows (tops bottoms : list line) (total page : nat)
  (range : list nat) : option (list (stack_label * line)) :=
  match range with
  | [] => Some []
  | i :: rest =>
      let idx := (page * stacks_per_page + i)%nat in
      if Nat.leb total idx then Some []
      else
        match pdf_stack tops bottoms idx with
        | None => None
        | Some s =>
            match pdf_page_rows tops bottoms total page rest with
            | None => None
            | Some more => Some (s ++ more)
            end
        end
  end.

(** [for page in range(total_pages)]: one list of stacks per page *)
Fixpoint pdf_pages (tops bottoms : list line) (total : nat)
  (pages : list nat) : option (list (list (stack_label * line))) :=
  match pages with
  | [] => Some []
  | page :: rest =>
      match pdf_page_rows tops bottoms total page (seq 0 stacks_per_page) with
      | None => None
      | Some p =>
          match pdf_pages tops bottoms total rest with
          | None => None
          | Some ps => Some (p :: ps)
          end
      end
  end.

Definition save_preview_image (tops bottoms : list line)
  : option (list (list (stack_label * line))) :=
  let total := length bottoms in
  let total_pages :=
    ((total + stacks_per_page - 1) / stacks_per_page)%nat in
  pdf_pages tops bottoms total (seq 0 total_pages).

(** How many spacers of size [k] a reservation can still take: what the
    metal counter holds above zero plus what the plastic counter holds
    above zero. *)
Definition available (self : SpacerInventory) (k : R) : Z :=
  Z.max 0 (get (metal self) k) + Z.max 0 (get (plastic self) k).

(** A counter as a [dict] has it: no key twice. *)
Definition well_formed (c : Counter) : Prop := NoDup (keys c).

(** [working job_metal job_plastic m p st]: in [st] the two working
    copies of a run hold the counters [m] and [p]. *)
Definition working (job_metal job_plastic : loc) (m p : Counter) (st : App)
  : Prop :=
  nth_error (heap st) job_metal = Some m
  /\ nth_error (heap st) job_plastic = Some p.

(** Everything but the store is the same in [st'] as in [st]. *)
Definition same_but_heap (st st' : App) : Prop :=
  toggles st' = toggles st
  /\ inventory_metal st' = inventory_metal st
  /\ inventory_plastic st' = inventory_plastic st
  /\ used_spacers st' = used_spacers st
  /\ top_lines st' = top_lines st
  /\ bottom_lines st' = bottom_lines st
  /\ settings st' = settings st.

(** The spacers a layout line lists, and those of a list of lines. *)
Definition line_combo (l : line) : list R :=
  match l with
  | Shoulder _ combo => combo
  | CutFemale _ _ combo => combo
  | CutMale _ _ combo => combo
  end.

Definition spacers_in (lines : list line) : list R :=
  flat_map line_combo lines.

(** [in_balance job_metal job_plastic total no_debt st]: the working
    counters have no repeated key; for every size, what they hold together
    plus what the tally has used is [total]; and, when [no_debt] holds
    (the run started without negative counts), the plastic count and the
    two counts together are not negative. *)
Definition in_balance (job_metal job_plastic : loc) (total : R -> Z)
  (no_debt : Prop) (st : App) : Prop :=
  exists m p,
    working job_metal job_plastic m p st
    /\ well_formed m /\ well_formed p
    /\ (forall k, get m k + get p k + get (used_spacers st) k = total k)
    /\ (no_debt -> forall k, 0 <= get p k /\ 0 <= get m k + get p k).

(** [tallied st]: the usage tally counts exactly the spacers listed in
    the layout lines. *)
Definition tallied (st : App) : Prop :=
  forall k,
    get (used_spacers st) k
    = Z.of_nat (count_occ num_eq_dec
                  (spacers_in (top_lines st ++ bottom_lines st)) k).

End Engine.

(** ** Concrete inventories and jobs, in exact decimal arithmetic *)

Import ExactDecimal.

(** The two check boxes as the form creates them: both ticked. *)
Definition both_ticked : Toggles :=
  {| minimize_shims_var := Some 1; smart_balance_var := Some 1 |}.

(** An inventory that has the 0.125 size in both pools. *)
Definition shop_metal : @Counter Q :=
  [(lit 1000 3, 1); (lit 500 3, 1); (lit 125 3, 1)].

Definition shop_plastic : @Counter Q := [(lit 125 3, 5)].

Definition shop : @App Q :=
  {| toggles := both_ticked;
     heap := [shop_metal; shop_plastic];
     inventory_metal := 0%nat;
     inventory_plastic := 1%nat;
     used_spacers := [];
     top_lines := [];
     bottom_lines := [];
     settings := None |}.

(** One cut of width 1.0; thickness 0.05 with 0 % clearance, both knives
    0.25 thick, tolerances +/- 0.005, Aluminum with auto-deflection. *)
Definition one_cut : @Job Q :=
  {| cut_entries := [(lit 10 1, 1)];
     thickness := lit 5 2;
     clearance_pct := lit 0 1;
     knife_female := lit 25 2;
     knife_male := lit 25 2;
     coil_width := lit 0 1;
     coil_weight := lit 0 1;
     tol_plus := lit 5 3;
     tol_minus := lit 5 3;
     material := "Aluminum"%string;
     auto_deflect := true |}.

(** A ledger with one metal spacer of size 1, asked for two. *)
Definition one_left : @SpacerInventory Q :=
  {| metal := [(of_int 1, 1)]; plastic := [] |}.

(** Two metal spacers of size 1 and one plastic shim of size 2. *)
Definition two_ones : @Counter Q := [(of_int 1, 2)].

Definition one_two : @Counter Q := [(of_int 2, 1)].

(** The shop's ledger, and the shop in the middle of a run, with the two
    working copies at the locations 2 and 3. *)
Definition shop_ledger : @SpacerInventory Q :=
  {| metal := shop_metal; plastic := shop_plastic |}.


(** Two spacers of size 0.125: the metal pool has one. *)
Definition two_eighths : list Q := [lit 125 3; lit 125 3].

(** What the inventory editor holds after typing 4 for the metal 0.125 and
    -1 for the plastic 0.125. *)
Definition typed_metal : list (Q * option Z) := [(lit 125 3, Some 4)].

Definition typed_plastic : list (Q * option Z) := [(lit 125 3, Some (-1))].

(** A job for the deflection table: only the material, the thickness and
    the flag vary. *)
Definition deflection_job (m : string) (t : Q) (enabled : bool) : @Job Q :=
  {| cut_entries := [];
     thickness := t;
     clearance_pct := lit 0 1;
     knife_female := lit 25 2;
     knife_male := lit 25 2;
     coil_width := lit 0 1;
     coil_weight := lit 0 1;
     tol_plus := lit 5 3;
     tol_minus := lit 5 3;
     material := m;
     auto_deflect := enabled |}.

(** * The games of the Help menu

    ** Python lists indexed by integers

    [l[i]], [l[i] = v] and [del l[i]]: an index from [-len(l)] to [-1]
    counts from the end, any other index outside the list raises
    [IndexError] ([None] below). *)
Definition position {A : Type} (l : list A) (i : Z) : option nat :=
  let n := Z.of_nat (length l) in
  if (0 <=? i) && (i <? n) then Some (Z.to_nat i)
  else if (i <? 0) && (- n <=? i) then Some (Z.to_nat (n + i))
  else None.

Definition getitem {A : Type} (l : list A) (i : Z) : option A :=
  match position l i with
  | Some k => nth_error l k
  | None => None
  end.

Definition setitem {A : Type} (l : list A) (i : Z) (v : A)
  : option (list A) :=
  match position l i with
  | Some k => Some (firstn k l ++ v :: skipn (S k) l)
  | None => None
  end.

Definition delitem {A : Type} (l : list A) (i : Z) : option (list A) :=
  match position l i with
  | Some k => Some (firstn k l ++ skipn (S k) l)
  | None => None
  end.

(** [range(n)] *)
Definition range (n : Z) : list Z := map Z.of_nat (seq 0 (Z.to_nat n)).

(** ** Spacer Stack Tetris: [_play_tetris]

    The state is what the nested functions share: the grid, the score, the
    running flag, the falling piece and the next one.  A cell of the grid
    is [0] or the colour of a frozen square.  The shape index that
    [random.randint] draws for a new piece is an argument.  Drawing on the
    canvas is left out.  [None] is an [IndexError] leaving a handler. *)
Module Tetris.

Definition cols : Z := 10.

Definition rows : Z := 20.

Inductive cell :=
| Zero
| Colour (c : string).

(** Truth value of a cell: [0] and the empty string are false. *)
Definition truthy (c : cell) : bool :=
  match c with
  | Zero => false
  | Colour EmptyString => false
  | Colour (String _ _) => true
  end.

Definition shapes : list (list (Z * Z)) :=
  [ [(0, 0); (1, 0); (2, 0); (3, 0)];
    [(0, 0); (1, 0); (1, 1); (2, 1)];
    [(1, 0); (2, 0); (0, 1); (1, 1)];
    [(0, 0); (0, 1); (1, 1); (2, 1)];
    [(2, 0); (0, 1); (1, 1); (2, 1)];
    [(0, 0); (1, 0); (0, 1); (1, 1)];
    [(1, 0); (0, 1); (1, 1); (2, 1)] ].

Definition colors : list string :=
  [ "#bbbbbb"; "#3a6edc"; "#d13b2b"; "#f0e130"; "#f5b042"; "#91d5ed";
    "#fa85c3" ]%string.

Record Piece := {
  coords : list (Z * Z);
  color : string;
  shape_idx : Z
}.

Record Game := {
  grid : list (list cell);
  score : Z;
  running : bool;
  piece : Piece;
  next_piece : Piece
}.

(** [new_piece()], for the drawn [shape_idx] *)
Definition new_piece (shape_idx : Z) : option Piece :=
  match getitem colors shape_idx with
  | None => None
  | Some color =>
      match getitem shapes shape_idx with
      | None => None
      | Some shape =>
          Some {| coords := map (fun c => (fst c + 3, snd c)) shape;
                  color := color;
                  shape_idx := shape_idx |}
      end
  end.

(** The state when the window opens, for the two shapes drawn. *)
Definition start (first second : Z) : option Game :=
  match new_piece first with
  | None => None
  | Some p =>
      match new_piece second with
      | None => None
      | Some n =>
          Some {| grid := repeat (repeat Zero (Z.to_nat cols))
                            (Z.to_nat rows);
                  score := 0;
                  running := true;
                  piece := p;
                  next_piece := n |}
      end
  end.

(** [grid[y][x]] *)
Definition cell_at (grid : list (list cell)) (x y : Z) : option cell :=
  match getitem grid y with
  | None => None
  | Some row => getitem row x
  end.

(** The loop of [can_move(dx, dy)] over the squares of the piece. *)
Fixpoint can_move_loop (grid : list (list cell)) (squares : list (Z * Z))
  (dx dy : Z) : option bool :=
  match squares with
  | [] => Some true
  | (x, y) :: rest =>
      let nx := x + dx in
      let ny := y + dy in
      if (nx <? 0) || (nx >=? cols) || (ny >=? rows) then Some false
      else if ny >=? 0 then
        match cell_at grid nx ny with
        | None => None
        | Some c =>
            if truthy c then Some false
            else can_move_loop grid rest dx dy
        end
      else can_move_loop grid rest dx dy
  end.

Definition can_move (dx dy : Z) (g : Game) : option bool :=
  can_move_loop (grid g) (coords (piece g)) dx dy.

Definition with_coords (squares : list (Z * Z)) (g : Game) : Game :=
  {| grid := grid g;
     score := score g;
     running := running g;
     piece := {| coords := squares;
                 color := color (piece g);
                 shape_idx := shape_idx (piece g) |};
     next_piece := next_piece g |}.

Definition move_piece (dx dy : Z) (g : Game) : option (bool * Game) :=
  match can_move dx dy g with
  | None => None
  | Some true =>
      Some (true,
            with_coords (map (fun c => (fst c + dx, snd c + dy))
                           (coords (piece g))) g)
  | Some false => Some (false, g)
  end.

(** The test of [rotate_piece]:
    [all(0 <= x < cols and y < rows and (y < 0 or not grid[y][x]) ...)] *)
Fixpoint fits (grid : list (list cell)) (squares : list (Z * Z))
  : option bool :=
  match squares with
  | [] => Some true
  | (x, y) :: rest =>
      if (0 <=? x) && (x <? cols) && (y <? rows) then
        if y <? 0 then fits grid rest
        else
          match cell_at grid x y with
          | None => None
          | Some c => if truthy c then Some false else fits grid rest
          end
      else Some false
  end.

Definition rotate_piece (g : Game) : option Game :=
  if shape_idx (piece g) =? 5 then Some g
  else
    match coords (piece g) with
    | [] => None
    | (px, py) :: _ =>
        let new_coords :=
          map (fun c => (px - (snd c - py), py + (fst c - px)))
            (coords (piece g)) in
        match fits (grid g) new_coords with
        | None => None
        | Some true => Some (with_coords new_coords g)
        | Some false => Some g
        end
    end.

(** The first loop of [freeze_piece]: [grid[y][x] = piece["color"]] for
    the squares with [y >= 0]. *)
Fixpoint place (grid : list (list cell)) (squares : list (Z * Z))
  (color : string) : option (list (list cell)) :=
  match squares with
  | [] => Some grid
  | (x, y) :: rest =>
      if y >=? 0 then
        match getitem grid y with
        | None => None
        | Some row =>
            match setitem row x (Colour color) with
            | None => None
            | Some row' =>
                match setitem grid y row' with
                | None => None
                | Some grid' => place grid' rest color
                end
            end
        end
      else place grid rest color
  end.

(** [all(grid[y][x] for x in range(cols))] *)
Fixpoint row_full (grid : list (list cell)) (y : Z) (xs : list Z)
  : option bool :=
  match xs with
  | [] => Some true
  | x :: rest =>
      match cell_at grid x y with
      | None => None
      | Some c => if truthy c then row_full grid y rest else Some false
      end
  end.

(** The second loop of [freeze_piece], over [reversed(range(rows))]: a
    full row is deleted and an empty one inserted on top. *)
Fixpoint clear_rows (grid : list (list cell)) (ys : list Z) (lines : Z)
  : option (list (list cell) * Z) :=
  match ys with
  | [] => Some (grid, lines)
  | y :: rest =>
      match row_full grid y (range cols) with
      | None => None
      | Some true =>
          match delitem grid y with
          | None => None
          | Some grid' =>
              clear_rows (repeat Zero (Z.to_nat cols) :: grid') rest
                (lines + 1)
          end
      | Some false => clear_rows grid rest lines
      end
  end.

(** [freeze_piece()], for the shape index drawn for the new next piece. *)
Definition freeze_piece (shape : Z) (g : Game) : option Game :=
  match place (grid g) (coords (piece g)) (color (piece g)) with
  | None => None
  | Some placed =>
      match clear_rows placed (rev (range rows)) 0 with
      | None => None
      | Some (cleared, lines) =>
          match getitem [0; 40; 100; 300; 1200] lines with
          | None => None
          | Some points =>
              match new_piece shape with
              | None => None
              | Some next =>
                  let g' := {| grid := cleared;
                               score := score g + points;
                               running := running g;
                               piece := next_piece g;
                               next_piece := next |} in
                  match can_move 0 0 g' with
                  | None => None
                  | Some true => Some g'
                  | Some false =>
                      Some {| grid := cleared;
                              score := score g + points;
                              running := false;
                              piece := next_piece g;
                              next_piece := next |}
                  end
              end
          end
      end
  end.

Definition tick (shape : Z) (g : Game) : option Game :=
  if negb (running g) then Some g
  else
    match move_piece 0 1 g with
    | None => None
    | Some (true, g') => Some g'
    | Some (false, g') => freeze_piece shape g'
    end.

(** The keys the window binds. *)
Inductive key :=
| Left
| Right
| Down
| Up
| Space.

(** What a handler with a loop comes to: it returns, an [IndexError]
    leaves it, or its loop is still running when the fuel is spent. *)
Inductive outcome :=
| Returns (g : Game)
| IndexError
| StillFalling.

Definition returned (r : option Game) : outcome :=
  match r with
  | Some g => Returns g
  | None => IndexError
  end.

(** [while move_piece(0, 1): pass; freeze_piece()], the loop for at most
    [fuel] rounds *)
Fixpoint hard_drop (fuel : nat) (shape : Z) (g : Game) : outcome :=
  match fuel with
  | O => StillFalling
  | S fuel' =>
      match move_piece 0 1 g with
      | None => IndexError
      | Some (true, g') => hard_drop fuel' shape g'
      | Some (false, g') => returned (freeze_piece shape g')
      end
  end.

Definition on_key (fuel : nat) (shape : Z) (k : key) (g : Game) : outcome :=
  match k with
  | Left => returned (option_map snd (move_piece (-1) 0 g))
  | Right => returned (option_map snd (move_piece 1 0 g))
  | Down => returned (option_map snd (move_piece 0 1 g))
  | Up => returned (rotate_piece g)
  | Space => hard_drop fuel shape g
  end.

(** The grid has [rows] rows of [cols] cells. *)
Definition board_ok (grid : list (list cell)) : Prop :=
  length grid = Z.to_nat rows
  /\ Forall (fun row => length row = Z.to_nat cols) grid.

(** A square is on the board when it is between the walls and above the
    floor; it may be above the top. *)
Definition on_board (squares : list (Z * Z)) : Prop :=
  Forall (fun c => 0 <= fst c < cols /\ snd c < rows) squares.

(** The squares are on the board and none covers a frozen square. *)
Definition valid (grid : list (list cell)) (squares : list (Z * Z)) : Prop :=
  Forall (fun c =>
            0 <= fst c < cols /\ snd c < rows
            /\ (0 <= snd c ->
                exists v, cell_at grid (fst c) (snd c) = Some v
                          /\ truthy v = false))
    squares.

(** A row in which every cell is taken. *)
Definition full (row : list cell) : bool := forallb truthy row.

(** A state of play: the grid has its shape, the piece is on the board
    with its first square at or below the top row, and the next piece is
    one [new_piece] makes. *)
Definition playable (g : Game) : Prop :=
  board_ok (grid g)
  /\ on_board (coords (piece g))
  /\ (exists px py rest, coords (piece g) = (px, py) :: rest /\ 0 <= py)
  /\ (exists shape, 0 <= shape < 7 /\ new_piece shape = Some (next_piece g)).

(** With the piece at rest on [squares], the clearing loop counts five
    rows or more: the score table has no entry for that. *)
Definition five_rows_cleared (g : Game) (squares : list (Z * Z)) : Prop :=
  exists placed cleared lines,
    place (grid g) squares (color (piece g)) = Some placed
    /\ clear_rows placed (rev (range rows)) 0 = Some (cleared, lines)
    /\ 5 <= lines.

(** How a handler may end in a state of play [g]: it returns a state of
    play, or the score table had no entry; its loop does not go on. *)
Definition plays_on (g : Game) (o : outcome) : Prop :=
  match o with
  | Returns g' => playable g'
  | IndexError => exists squares, five_rows_cleared g squares
  | StillFalling => False
  end.

(** What the clearing loop keeps of the rows, listed from the bottom: a
    full row goes, and the row above it stays without being looked at. *)
Fixpoint kept (rows_up : list (list cell)) : list (list cell) :=
  match rows_up with
  | [] => []
  | row :: above =>
      if full row then
        match above with
        | [] => []
        | next :: above' => next :: kept above'
        end
      else row :: kept above
  end.

(** The state when the window opens with the bar first and the S-shape
    next. *)
Definition opening : Game :=
  {| grid := repeat (repeat Zero 10) 20;
     score := 0;
     running := true;
     piece := {| coords := [(3, 0); (4, 0); (5, 0); (6, 0)];
                 color := "#bbbbbb";
                 shape_idx := 0 |};
     next_piece := {| coords := [(3, 0); (4, 0); (4, 1); (5, 1)];
                      color := "#3a6edc";
                      shape_idx := 1 |} |}.

(** A grid whose two lowest rows are full. *)
Definition grey_row : list cell := repeat (Colour "#bbbbbb") 10.

Definition empty_rows : list (list cell) := repeat (repeat Zero 10) 18.

End Tetris.

(** ** Spacer Snake: [_play_snake]

    The state is what the nested functions share: the direction, the
    snake (head first), the food, the score, the running flag and the high
    score.  The cells that [random.randint] draws for a new food are an
    argument of [move]: the loop takes the first that is not on the snake,
    and has not ended when all of them are.  Drawing and the high score
    file are left out. *)
Module Snake.


Record Game := {
  direction : Z * Z;
  snake : list (Z * Z);
  food : Z * Z;
  score : Z;
  running : bool;
  highscore : Z
}.

(** The state when the window opens, for the food drawn and the high
    score read. *)
Definition start (food : Z * Z) (highscore : Z) : Game :=
  {| direction := (1, 0);
     snake := [(5, 5); (4, 5); (3, 5)];
     food := food;
     score := 0;
     running := true;
     highscore := highscore |}.

Definition same_cell (a b : Z * Z) : bool :=
  (fst a =? fst b) && (snd a =? snd b).



Inductive outcome :=
| Returns (g : Game)
| IndexError
| StillDrawing.


Inductive key :=
| Up
| Down
| Left
| Right.

Definition turn (d : Z * Z) (g : Game) : Game :=
  {| direction := d;
     snake := snake g;
     food := food g;
     score := score g;
     running := running g;
     highscore := highscore g |}.

Definition on_key (k : key) (g : Game) : Game :=
  match k with
  | Up => if same_cell (direction g) (0, 1) then g else turn (0, -1) g
  | Down => if same_cell (direction g) (0, -1) then g else turn (0, 1) g
  | Left => if same_cell (direction g) (1, 0) then g else turn (-1, 0) g
  | Right => if same_cell (direction g) (-1, 0) then g else turn (1, 0) g
  end.




End Snake.


(** * Properties *)

Section CounterFacts.

Context {R : Type} {NR : Number R}.

Lemma get_set (c : Counter) (k k' : R) (v : Z) :
  get (set c k v) k' = if num_eq_dec k' k then v else get c k'.
Proof.
  induction c as [|[k0 v0] c IH]; simpl.
  - destruct (num_eq_dec k' k); reflexivity.
  - destruct (num_eq_dec k k0) as [->|Hk]; simpl.
    + destruct (num_eq_dec k' k0); reflexivity.
    + destruct (num_eq_dec k' k0) as [->|Hk'].
      * destruct (num_eq_dec k0 k); [congruence | reflexivity].
      * apply IH.
Qed.

Lemma get_set_same (c : Counter) (k : R) (v : Z) : get (set c k v) k = v.
Proof. rewrite get_set. destruct (num_eq_dec k k); congruence. Qed.

Lemma get_set_other (c : Counter) (k k' : R) (v : Z) :
  k' <> k -> get (set c k v) k' = get c k'.
Proof. intros H. rewrite get_set. destruct (num_eq_dec k' k); congruence. Qed.

Lemma keys_set (c : Counter) (k k' : R) (v : Z) :
  In k' (keys (set c k v)) <-> k' = k \/ In k' (keys c).
Proof.
  unfold keys. induction c as [|[k0 v0] c IH]; simpl.
  - intuition.
  - destruct (num_eq_dec k k0) as [->|Hk]; simpl.
    + intuition.
    + rewrite IH. intuition.
Qed.

Lemma contains_In (c : Counter) (k : R) :
  contains c k = true <-> In k (keys c).
Proof.
  unfold keys. induction c as [|[k0 v0] c IH]; simpl.
  - split; [discriminate | tauto].
  - destruct (num_eq_dec k k0) as [->|Hk].
    + tauto.
    + rewrite IH. split; [tauto | intros [H|H]; [congruence | exact H]].
Qed.

Lemma get_not_In (c : Counter) (k : R) : ~ In k (keys c) -> get c k = 0.
Proof.
  unfold keys. induction c as [|[k0 v0] c IH]; simpl; intros H.
  - reflexivity.
  - destruct (num_eq_dec k k0) as [->|Hk]; [tauto | apply IH; tauto].
Qed.

(** [Counter(combo)[k]] is the number of occurrences of [k] in [combo]. *)
Lemma get_tally (l : list R) (acc : Counter) (k : R) :
  get (fold_left (fun c x => set c x (get c x + 1)) l acc) k
  = get acc k + Z.of_nat (count_occ num_eq_dec l k).
Proof.
  revert acc. induction l as [|x l IH]; intros acc; simpl.
  - lia.
  - rewrite IH, get_set.
    destruct (num_eq_dec k x) as [->|Hk]; destruct (num_eq_dec x x) as [_|Hx];
      try congruence.
    + lia.
    + destruct (num_eq_dec x k); [congruence | lia].
Qed.

Lemma get_Counter_of (l : list R) (k : R) :
  get (Counter_of l) k = Z.of_nat (count_occ num_eq_dec l k).
Proof. unfold Counter_of, update. rewrite get_tally. reflexivity. Qed.

Lemma keys_tally (l : list R) (acc : Counter) (k : R) :
  In k (keys (fold_left (fun c x => set c x (get c x + 1)) l acc))
  <-> In k l \/ In k (keys acc).
Proof.
  revert acc. induction l as [|x l IH]; intros acc; simpl.
  - tauto.
  - rewrite IH, keys_set. intuition congruence.
Qed.

Lemma keys_Counter_of (l : list R) (k : R) :
  In k (keys (Counter_of l)) <-> In k l.
Proof. unfold Counter_of, update. rewrite keys_tally. simpl. tauto. Qed.

(** [within_counts] says that no size is used more often than [inv] has. *)
Lemma within_counts_spec (inv : Counter) (combo : list R) :
  within_counts inv combo = true <->
  forall k, In k combo -> Z.of_nat (count_occ num_eq_dec combo k) <= get inv k.
Proof.
  unfold within_counts. rewrite forallb_forall. split; intros H k Hk.
  - rewrite <- get_Counter_of. apply Z.leb_le, H, keys_Counter_of, Hk.
  - apply Z.leb_le. rewrite get_Counter_of. apply H, keys_Counter_of, Hk.
Qed.

End CounterFacts.

Section SortFacts.

Context {R : Type} {NR : Number R}.
Local Open Scope num_scope.

Lemma insert_desc_perm (x : R) (l : list R) :
  Permutation (insert_desc x l) (x :: l).
Proof.
  induction l as [|y l IH]; simpl.
  - apply Permutation_refl.
  - destruct (x <^ y).
    + eapply perm_trans; [apply perm_skip, IH | apply perm_swap].
    + apply Permutation_refl.
Qed.

(** Sorting keeps the keys, each as often as before. *)
Lemma sorted_reverse_perm (l : list R) : Permutation (sorted_reverse l) l.
Proof.
  induction l as [|x l IH]; simpl.
  - apply Permutation_refl.
  - eapply perm_trans; [apply insert_desc_perm | apply perm_skip, IH].
Qed.

(** For an order in which [x < y] excludes [y < x]. *)
Hypothesis nltb_asym : forall x y : R, (x <^ y) = true -> (y <^ x) = false.

Lemma insert_desc_HdRel (x y : R) (l : list R) :
  (x <^ y) = true -> HdRel not_below y l ->
  HdRel not_below y (insert_desc x l).
Proof.
  intros Hxy Hl. destruct l as [|z l]; simpl.
  - constructor. apply nltb_asym, Hxy.
  - destruct (x <^ z).
    + constructor. inversion Hl; assumption.
    + constructor. apply nltb_asym, Hxy.
Qed.

Lemma insert_desc_sorted (x : R) (l : list R) :
  Sorted not_below l -> Sorted not_below (insert_desc x l).
Proof.
  induction l as [|y l IH]; simpl; intros Hs.
  - repeat constructor.
  - destruct (x <^ y) eqn:E.
    + apply Sorted_inv in Hs. destruct Hs as [Hs Hhd].
      constructor; [apply IH, Hs | apply insert_desc_HdRel; assumption].
    + constructor; [exact Hs | constructor; exact E].
Qed.

(** The sorted list is descending: no key is less than the next one. *)
Lemma sorted_reverse_sorted (l : list R) :
  Sorted not_below (sorted_reverse l).
Proof.
  induction l as [|x l IH]; simpl.
  - constructor.
  - apply insert_desc_sorted, IH.
Qed.

End SortFacts.

Section SearchFacts.

Context {R : Type} {NR : Number R}.
Local Open Scope num_scope.

Lemma combinations_cons (x : R) (rest : list R) (r : nat) :
  combinations_with_replacement (x :: rest) (S r)
  = map (cons x) (combinations_with_replacement (x :: rest) r)
    ++ combinations_with_replacement rest (S r).
Proof. reflexivity. Qed.

Lemma combinations_nil (r : nat) :
  combinations_with_replacement ([] : list R) (S r) = [].
Proof. reflexivity. Qed.

Lemma combinations_length (pool c : list R) (r : nat) :
  In c (combinations_with_replacement pool r) -> length c = r.
Proof.
  revert pool c. induction r as [|r IHr]; intros pool c.
  - simpl. intros [<-|[]]. reflexivity.
  - induction pool as [|x rest IHp].
    + rewrite combinations_nil. intros [].
    + rewrite combinations_cons, in_app_iff, in_map_iff.
      intros [(c' & <- & Hc')|H].
      * simpl. f_equal. eapply IHr, Hc'.
      * apply IHp, H.
Qed.

Lemma combinations_drawn (pool c : list R) (r : nat) :
  In c (combinations_with_replacement pool r) -> drawn_from pool c.
Proof.
  revert pool c. induction r as [|r IHr]; intros pool c.
  - simpl. intros [<-|[]]. constructor.
  - induction pool as [|x rest IHp].
    + rewrite combinations_nil. intros [].
    + rewrite combinations_cons, in_app_iff, in_map_iff.
      intros [(c' & <- & Hc')|H].
      * apply drawn_take, IHr, Hc'.
      * apply drawn_skip, IHp, H.
Qed.

Lemma drawn_combinations (pool c : list R) :
  drawn_from pool c -> In c (combinations_with_replacement pool (length c)).
Proof.
  induction 1 as [pool|x pool c _ IH|x pool c _ IH].
  - simpl. auto.
  - simpl length. rewrite combinations_cons, in_app_iff. left.
    apply in_map, IH.
  - destruct c as [|y c]; [simpl; auto|].
    simpl length in *. rewrite combinations_cons, in_app_iff. right. exact IH.
Qed.

(** The candidates of size [r] are exactly the stacks of [r] sizes drawn
    from the pool. *)
Lemma combinations_spec (pool c : list R) (r : nat) :
  In c (combinations_with_replacement pool r)
  <-> drawn_from pool c /\ length c = r.
Proof.
  split.
  - intros H. split; [eapply combinations_drawn | eapply combinations_length];
      exact H.
  - intros [H <-]. apply drawn_combinations, H.
Qed.

Lemma drawn_from_In (pool c : list R) (k : R) :
  drawn_from pool c -> In k c -> In k pool.
Proof.
  induction 1 as [pool|x pool c _ IH|x pool c _ IH]; simpl.
  - intros [].
  - intros [<-|H]; [auto | apply IH, H].
  - intros H. right. apply IH, H.
Qed.

Lemma first_accepted_None (tg tp tm : R) (inv : Counter)
  (combos : list (list R)) :
  first_accepted tg tp tm inv combos = None
  <-> forall c, In c combos -> accepted tg tp tm inv c = false.
Proof.
  induction combos as [|c0 combos IH]; simpl.
  - split; [intros _ c [] | reflexivity].
  - destruct (accepted tg tp tm inv c0) eqn:E.
    + split; [discriminate | intros H]. rewrite H in E by auto. discriminate.
    + rewrite IH. split; [intros H c [<-|Hc]; auto | auto].
Qed.

Lemma first_accepted_Some (tg tp tm : R) (inv : Counter)
  (combos : list (list R)) (c : list R) :
  first_accepted tg tp tm inv combos = Some c
  <-> exists before after,
        combos = before ++ c :: after
        /\ accepted tg tp tm inv c = true
        /\ forall c', In c' before -> accepted tg tp tm inv c' = false.
Proof.
  induction combos as [|c0 combos IH]; simpl.
  - split; [discriminate | intros (b & a & H & _)].
    destruct b; discriminate.
  - destruct (accepted tg tp tm inv c0) eqn:E.
    + split.
      * intros [= <-]. exists [], combos. repeat split; auto. intros c' [].
      * intros ([|b0 before] & after & H & Hc & Hb); simpl in H.
        -- congruence.
        -- injection H as <- _. rewrite Hb in E by (left; reflexivity).
           discriminate.
    + rewrite IH. split.
      * intros (before & after & -> & Hc & Hb).
        exists (c0 :: before), after. repeat split; auto.
        intros c' [<-|Hc']; auto.
      * intros ([|b0 before] & after & H & Hc & Hb); simpl in H.
        -- injection H as -> _. congruence.
        -- injection H as <- ->. exists before, after. repeat split; auto.
           intros c' Hc'. apply Hb. right. exact Hc'.
Qed.

Lemma first_accepted_app (tg tp tm : R) (inv : Counter)
  (l1 l2 : list (list R)) :
  first_accepted tg tp tm inv (l1 ++ l2)
  = match first_accepted tg tp tm inv l1 with
    | Some c => Some c
    | None => first_accepted tg tp tm inv l2
    end.
Proof.
  induction l1 as [|c l1 IH]; simpl; [reflexivity|].
  destruct (accepted tg tp tm inv c); [reflexivity | apply IH].
Qed.

(** The two nested loops return the first accepted candidate of the flat
    enumeration. *)
Lemma search_flat (tg tp tm : R) (inv : Counter) (pool : list R)
  (rs : list nat) :
  search tg tp tm inv pool rs
  = first_accepted tg tp tm inv
      (flat_map (combinations_with_replacement pool) rs).
Proof.
  induction rs as [|r rs IH]; simpl; [reflexivity|].
  rewrite first_accepted_app, IH. reflexivity.
Qed.

(** A successful search stops at the smallest size that has an accepted
    candidate. *)
Lemma search_seq_Some (tg tp tm : R) (inv : Counter) (pool : list R)
  (n a : nat) (c : list R) :
  search tg tp tm inv pool (seq a n) = Some c ->
  exists r, (a <= r < a + n)%nat
    /\ first_accepted tg tp tm inv (combinations_with_replacement pool r)
       = Some c
    /\ forall r', (a <= r' < r)%nat ->
         first_accepted tg tp tm inv (combinations_with_replacement pool r')
         = None.
Proof.
  revert a. induction n as [|n IH]; intros a; simpl; [discriminate|].
  destruct (first_accepted tg tp tm inv (combinations_with_replacement pool a))
    as [c0|] eqn:E.
  - intros [= <-]. exists a. repeat split; [lia | lia | exact E | intros; lia].
  - intros H. destruct (IH _ H) as (r & Hr & Hc & Hmin).
    exists r. repeat split; [lia | lia | exact Hc |].
    intros r' Hr'. destruct (Nat.eq_dec r' a) as [->|Hne]; [exact E|].
    apply Hmin. lia.
Qed.

Lemma search_seq_None (tg tp tm : R) (inv : Counter) (pool : list R)
  (n a : nat) :
  search tg tp tm inv pool (seq a n) = None ->
  forall r, (a <= r < a + n)%nat ->
    first_accepted tg tp tm inv (combinations_with_replacement pool r) = None.
Proof.
  revert a. induction n as [|n IH]; intros a; simpl; [intros _ r; lia|].
  destruct (first_accepted tg tp tm inv (combinations_with_replacement pool a))
    as [c0|] eqn:E; [discriminate|].
  intros H r Hr. destruct (Nat.eq_dec r a) as [->|Hne]; [exact E|].
  apply (IH _ H). lia.
Qed.

Lemma accepted_spec (tg tp tm : R) (inv : Counter) (c : list R) :
  accepted tg tp tm inv c = true
  <-> in_band tg tp tm (nround 4 (sum c)) = true
      /\ within_counts inv c = true.
Proof.
  unfold accepted. destruct (in_band tg tp tm (nround 4 (sum c))).
  - tauto.
  - split; [discriminate | intros [H _]; discriminate].
Qed.

(** The result of [find_spacer_combo], pass by pass. *)
Lemma find_spacer_combo_cases (self : Toggles) (tg tp tm : R)
  (metal_inv plastic_inv : Counter) (prefer_metal : bool) (max_stack : nat)
  (combo : list R) (is_metal : bool) :
  find_spacer_combo self tg tp tm metal_inv plastic_inv prefer_metal max_stack
  = Some (combo, is_metal) ->
  (is_metal = true /\ prefer_metal = true
   /\ search tg tp tm metal_inv (positive_keys metal_inv) (seq 1 max_stack)
      = Some combo)
  \/ (is_metal = false
      /\ (prefer_metal = true ->
          search tg tp tm metal_inv (positive_keys metal_inv)
            (seq 1 max_stack) = None)
      /\ search tg tp tm (counter_add metal_inv plastic_inv)
           (positive_keys (counter_add metal_inv plastic_inv))
           (seq 1 max_stack) = Some combo).
Proof.
  unfold find_spacer_combo. cbv zeta.
  destruct prefer_metal.
  - destruct (search tg tp tm metal_inv _ _) as [c|] eqn:E1.
    + intros [= <- <-]. left. auto.
    + destruct (search tg tp tm (counter_add _ _) _ _) as [c|] eqn:E2;
        [|discriminate].
      intros [= <- <-]. right. auto.
  - destruct (search tg tp tm (counter_add _ _) _ _) as [c|] eqn:E2;
      [|discriminate].
    intros [= <- <-]. right. repeat split; auto. discriminate.
Qed.

(** Whatever pass returned it, the combo is the search result for the
    counter it is flagged with. *)
Lemma find_spacer_combo_view (self : Toggles) (tg tp tm : R)
  (metal_inv plastic_inv : Counter) (prefer_metal : bool) (max_stack : nat)
  (combo : list R) (is_metal : bool) :
  find_spacer_combo self tg tp tm metal_inv plastic_inv prefer_metal max_stack
  = Some (combo, is_metal) ->
  search tg tp tm (view_of metal_inv plastic_inv is_metal)
    (positive_keys (view_of metal_inv plastic_inv is_metal))
    (seq 1 max_stack) = Some combo.
Proof.
  intros H. apply find_spacer_combo_cases in H.
  destruct H as [(-> & _ & H)|(-> & _ & H)]; exact H.
Qed.

End SearchFacts.

Section FindFacts.

Context {R : Type} {NR : Number R}.
Local Open Scope num_scope.

(** C1.  Whenever [find_spacer_combo] returns a combo, the sum of the combo
    rounded to 4 places lies in the band
    [target - tol_minus <= round(sum(combo), 4) <= target + tol_plus], and
    no size occurs more often in the combo than the counter it was drawn
    from holds of it: the metal counter for a result of the first pass
    (flag [True]), the merged metal + plastic counter for a result of the
    second pass (flag [False]). *)
Theorem find_spacer_combo_sound (self : Toggles) (target tol_plus tol_minus : R)
  (metal_inv plastic_inv : Counter) (prefer_metal : bool) (max_stack : nat)
  (combo : list R) (is_metal : bool) :
  find_spacer_combo self target tol_plus tol_minus metal_inv plastic_inv
    prefer_metal max_stack = Some (combo, is_metal) ->
  let total := nround 4 (sum combo) in
  let inv := if is_metal then metal_inv
             else counter_add metal_inv plastic_inv in
  (target -^ tol_minus <=^ total) = true
  /\ (total <=^ target +^ tol_plus) = true
  /\ (forall k, In k combo ->
        Z.of_nat (count_occ num_eq_dec combo k) <= get inv k)
  /\ drawn_from (positive_keys inv) combo.
Proof.
  intros H. apply find_spacer_combo_view in H. cbv zeta.
  fold (view_of metal_inv plastic_inv is_metal).
  set (inv := view_of metal_inv plastic_inv is_metal) in *.
  apply search_seq_Some in H. destruct H as (r & _ & H & _).
  apply first_accepted_Some in H.
  destruct H as (before & after & Hsplit & Hacc & _).
  apply accepted_spec in Hacc. destruct Hacc as [Hband Hcounts].
  unfold in_band in Hband. apply andb_true_iff in Hband.
  destruct Hband as [Hlo Hhi].
  repeat split; [exact Hlo | exact Hhi | |].
  - apply within_counts_spec, Hcounts.
  - apply (combinations_drawn _ _ r). rewrite Hsplit.
    apply in_elt.
Qed.

(** C2 (amended).  A returned combo has the least size among the candidates
    of its own pass: no stack of fewer sizes drawn from the positive keys of
    the counter the combo is flagged with (the metal counter for a result
    flagged [True], the merged counter otherwise) is accepted against that
    counter. *)
Theorem find_spacer_combo_minimal (self : Toggles)
  (target tol_plus tol_minus : R) (metal_inv plastic_inv : Counter)
  (prefer_metal : bool) (max_stack : nat) (combo : list R) (is_metal : bool) :
  find_spacer_combo self target tol_plus tol_minus metal_inv plastic_inv
    prefer_metal max_stack = Some (combo, is_metal) ->
  let inv := view_of metal_inv plastic_inv is_metal in
  (1 <= length combo <= max_stack)%nat
  /\ forall c,
       drawn_from (positive_keys inv) c ->
       (1 <= length c < length combo)%nat ->
       accepted target tol_plus tol_minus inv c = false.
Proof.
  intros H. apply find_spacer_combo_view in H. cbv zeta.
  set (inv := view_of metal_inv plastic_inv is_metal) in *.
  apply search_seq_Some in H. destruct H as (r & Hr & H & Hmin).
  assert (Hlen : length combo = r).
  { apply first_accepted_Some in H.
    destruct H as (before & after & Hsplit & _).
    apply (combinations_length (positive_keys inv)). rewrite Hsplit.
    apply in_elt. }
  split; [lia|]. intros c Hc Hlenc.
  assert (Hnone := Hmin (length c) ltac:(lia)).
  rewrite first_accepted_None in Hnone.
  apply Hnone, drawn_combinations, Hc.
Qed.

(** C10.  The result of [find_spacer_combo] does not depend on the two
    toggle variables it reads: two calls that differ only in them return
    the same combo and the same flag. *)
Theorem find_spacer_combo_ignores_toggles (self1 self2 : Toggles)
  (target tol_plus tol_minus : R) (metal_inv plastic_inv : Counter)
  (prefer_metal : bool) (max_stack : nat) :
  find_spacer_combo self1 target tol_plus tol_minus metal_inv plastic_inv
    prefer_metal max_stack
  = find_spacer_combo self2 target tol_plus tol_minus metal_inv plastic_inv
      prefer_metal max_stack.
Proof.
  unfold find_spacer_combo.
  generalize (getattr_IntVar (minimize_shims_var self1))
             (getattr_IntVar (smart_balance_var self1))
             (getattr_IntVar (minimize_shims_var self2))
             (getattr_IntVar (smart_balance_var self2)).
  intros minimize_shims1 smart_balance1 minimize_shims2 smart_balance2.
  cbv zeta. reflexivity.
Qed.

End FindFacts.

Section LedgerFacts.

Context {R : Type} {NR : Number R}.

Ltac case_eq_dec :=
  repeat match goal with
         | |- context [num_eq_dec ?a ?b] =>
             destruct (num_eq_dec a b); subst; try congruence
         end.

Lemma taken_off_step (self mid self' : SpacerInventory) (sz : R)
  (rest : list R) (k : R) :
  taken_off mid self' rest k ->
  (get (metal mid) k + get (plastic mid) k
   = get (metal self) k + get (plastic self) k
     - (if num_eq_dec sz k then 1 else 0)) ->
  get (metal mid) k <= get (metal self) k ->
  get (plastic mid) k <= get (plastic self) k ->
  (0 <= get (metal self) k -> 0 <= get (metal mid) k) ->
  (0 <= get (plastic self) k -> 0 <= get (plastic mid) k) ->
  taken_off self self' (sz :: rest) k.
Proof.
  unfold taken_off. simpl count_occ.
  destruct (num_eq_dec sz k); intros; lia.
Qed.

Lemma use_spacers_loop_Reserved (combo : list R)
  (self self' : SpacerInventory) :
  use_spacers_loop self combo = (self', Reserved) ->
  forall k, taken_off self self' combo k.
Proof.
  revert self. induction combo as [|sz rest IH]; intros self; simpl.
  - intros [= <-] k. unfold taken_off. simpl. lia.
  - destruct (0 <? get (metal self) sz) eqn:Em.
    + intros H k. apply Z.ltb_lt in Em.
      eapply taken_off_step; [apply (IH _ H k) | simpl ..];
        rewrite ?get_set; case_eq_dec; lia.
    + destruct (0 <? get (plastic self) sz) eqn:Ep; [|discriminate].
      intros H k. apply Z.ltb_lt in Ep.
      eapply taken_off_step; [apply (IH _ H k) | simpl ..];
        rewrite ?get_set; case_eq_dec; lia.
Qed.

Lemma use_spacers_loop_NoInventoryLeft (combo : list R)
  (self self' : SpacerInventory) (sz : R) :
  use_spacers_loop self combo = (self', NoInventoryLeft sz) ->
  exists taken rest,
    combo = taken ++ sz :: rest
    /\ use_spacers_loop self taken = (self', Reserved)
    /\ get (metal self') sz <= 0
    /\ get (plastic self') sz <= 0.
Proof.
  revert self. induction combo as [|x rest IH]; intros self; simpl.
  - discriminate.
  - destruct (0 <? get (metal self) x) eqn:Em.
    + intros H. destruct (IH _ H) as (taken & rest' & -> & Hl & Hm & Hp).
      exists (x :: taken), rest'. simpl. rewrite Em. auto.
    + destruct (0 <? get (plastic self) x) eqn:Ep.
      * intros H. destruct (IH _ H) as (taken & rest' & -> & Hl & Hm & Hp).
        exists (x :: taken), rest'. simpl. rewrite Em, Ep. auto.
      * intros [= <- <-]. exists [], rest. simpl.
        apply Z.ltb_ge in Em, Ep. auto.
Qed.

(** C3 (amended).  [use_spacers] either succeeds, and then for every size
    the metal and plastic counts together have dropped by exactly its
    multiplicity in the combo, neither count has grown and a count that was
    not negative is still not negative; or it signals failure at the first
    element [sz] for which neither counter holds a positive count, and then
    the counters are the ones reached by reserving the elements before it:
    they are not restored. *)
Theorem use_spacers_outcome (self : SpacerInventory) (combo : list R) :
  match use_spacers self combo with
  | (self', Reserved) => forall k, taken_off self self' combo k
  | (self', NoInventoryLeft sz) =>
      exists taken rest,
        combo = taken ++ sz :: rest
        /\ use_spacers self taken = (self', Reserved)
        /\ (forall k, taken_off self self' taken k)
        /\ get (metal self') sz <= 0
        /\ get (plastic self') sz <= 0
  end.
Proof.
  unfold use_spacers. cbv zeta.
  destruct (use_spacers_loop self combo) as [self' [|sz]] eqn:E.
  - apply use_spacers_loop_Reserved, E.
  - destruct (use_spacers_loop_NoInventoryLeft _ _ _ _ E)
      as (taken & rest & Hc & Hl & Hm & Hp).
    exists taken, rest. repeat split; auto.
    all: apply (use_spacers_loop_Reserved _ _ _ Hl).
Qed.

End LedgerFacts.

(** ** Reasoning about runs *)

Section Runs.

Context {R : Type} {NR : Number R}.

Lemma keeps_ret {A : Type} (I : @App R -> Prop) (a : A) (Q : A -> Prop) :
  Q a -> keeps I (ret a) Q.
Proof. intros Ha st Hst. simpl. auto. Qed.

Lemma keeps_raise {A : Type} (I : @App R -> Prop) (e : error) (Q : A -> Prop) :
  keeps I (raise e) Q.
Proof. intros st Hst. exact Hst. Qed.

Lemma keeps_bind {A B : Type} (I : @App R -> Prop) (m : @M R A) (k : A -> @M R B)
  (Q : A -> Prop) (Q' : B -> Prop) :
  keeps I m Q -> (forall a, Q a -> keeps I (k a) Q') -> keeps I (bind m k) Q'.
Proof.
  intros Hm Hk st Hst. unfold bind. specialize (Hm st Hst).
  destruct (m st) as [[a|e] st1].
  - destruct Hm as [H1 Ha]. apply (Hk a Ha st1 H1).
  - exact Hm.
Qed.

Lemma keeps_weaken {A : Type} (I : @App R -> Prop) (m : @M R A)
  (Q Q' : A -> Prop) :
  keeps I m Q -> (forall a, Q a -> Q' a) -> keeps I m Q'.
Proof.
  intros Hm HQ st Hst. specialize (Hm st Hst).
  destruct (m st) as [[a|e] st1]; [|exact Hm].
  destruct Hm. auto.
Qed.

Lemma keeps_read (I : @App R -> Prop) (l : loc) :
  keeps I (read l) (fun _ => True).
Proof.
  intros st Hst. unfold read. destruct (nth_error (heap st) l); auto.
Qed.

Lemma keeps_find_in_job (I : @App R -> Prop) (target tp tm : R)
  (job_metal job_plastic : loc) :
  keeps I (find_in_job target tp tm job_metal job_plastic) (fun _ => True).
Proof.
  unfold find_in_job. eapply keeps_bind; [apply keeps_read|]. intros m _.
  eapply keeps_bind; [apply keeps_read|]. intros p _ st Hst. auto.
Qed.

Lemma keeps_update_used (I : @App R -> Prop) (combo : list R) :
  (forall st u, I st -> I (set_used_spacers u st)) ->
  keeps I (update_used combo) (fun _ => True).
Proof.
  intros I_used st Hst. simpl. split; [apply I_used, Hst | exact Logic.I].
Qed.

(** Statements that only touch counters through addresses in [ok_loc]. *)
Section Closed.

Variable I : @App R -> Prop.
Variable ok_loc : loc -> Prop.

Hypothesis I_write : forall st l c,
  I st -> ok_loc l -> (l < length (heap st))%nat ->
  I (set_heap (replace_nth (heap st) l c) st).
Hypothesis I_alloc : forall st c,
  I st -> I (set_heap (heap st ++ [c]) st) /\ ok_loc (length (heap st)).

Lemma keeps_write (l : loc) (c : Counter) :
  ok_loc l -> keeps I (write l c) (fun _ => True).
Proof.
  intros Hl st Hst. unfold write.
  destruct (nth_error (heap st) l) eqn:E; [|exact Hst].
  split; [|exact Logic.I]. apply I_write; auto.
  apply nth_error_Some. congruence.
Qed.

Lemma keeps_copy (l : loc) : keeps I (copy l) ok_loc.
Proof.
  unfold copy. eapply keeps_bind; [apply keeps_read|].
  intros c _ st Hst. apply I_alloc, Hst.
Qed.

Lemma keeps_decrement (l : loc) (sz : R) :
  ok_loc l -> keeps I (decrement l sz) (fun _ => True).
Proof.
  intros Hl. unfold decrement. eapply keeps_bind; [apply keeps_read|].
  intros c _. apply keeps_write, Hl.
Qed.

Lemma keeps_take_shoulder (job_metal job_plastic : loc) (combo : list R) :
  ok_loc job_metal -> ok_loc job_plastic ->
  keeps I (take_shoulder job_metal job_plastic combo) (fun _ => True).
Proof.
  intros Hm Hp. induction combo as [|sz rest IH]; simpl.
  - apply keeps_ret. exact Logic.I.
  - eapply keeps_bind; [apply keeps_read|]. intros m _.
    eapply keeps_bind; [|intros _ _; exact IH].
    destruct (contains m sz); [apply keeps_decrement, Hm|].
    eapply keeps_bind; [apply keeps_read|]. intros p _.
    destruct (contains p sz); [apply keeps_decrement, Hp|].
    apply keeps_ret. exact Logic.I.
Qed.

Lemma keeps_take_cut (job_metal job_plastic : loc) (combo : list R) :
  ok_loc job_metal -> ok_loc job_plastic ->
  keeps I (take_cut job_metal job_plastic combo) (fun _ => True).
Proof.
  intros Hm Hp. induction combo as [|sz rest IH]; simpl.
  - apply keeps_ret. exact Logic.I.
  - eapply keeps_bind; [apply keeps_read|]. intros m _.
    eapply keeps_bind; [|intros _ _; exact IH].
    destruct (contains m sz && (0 <? get m sz));
      [apply keeps_decrement, Hm|].
    eapply keeps_bind; [apply keeps_read|]. intros p _.
    destruct (contains p sz && (0 <? get p sz));
      [apply keeps_decrement, Hp|].
    apply keeps_ret. exact Logic.I.
Qed.

End Closed.

(** The cut loop, for an invariant that the loop taking a combo out of the
    working counters keeps. *)
Section CutLoop.

Variable I : @App R -> Prop.
Variables job_metal job_plastic : loc.

Hypothesis I_take_cut : forall combo,
  keeps I (take_cut job_metal job_plastic combo) (fun _ => True).
Hypothesis I_used : forall st u, I st -> I (set_used_spacers u st).
Hypothesis I_lines : forall st top bottom, I st -> I (set_lines top bottom st).

Lemma keeps_append_lines (top bottom : list line) :
  keeps I (append_lines top bottom) (fun _ => True).
Proof. intros st Hst. simpl. split; [apply I_lines, Hst | exact Logic.I]. Qed.

Lemma keeps_process_cut (tp tm kf km clearance off : R) (i : nat) (cut : R) :
  keeps I (process_cut tp tm kf km clearance off job_metal job_plastic i cut)
    (fun _ => True).
Proof.
  unfold process_cut. cbv zeta.
  eapply keeps_bind; [apply keeps_find_in_job|].
  intros found _. destruct (found_combo found) as [female_combo|];
    [|apply keeps_raise].
  eapply keeps_bind; [apply I_take_cut|]. intros _ _.
  eapply keeps_bind; [apply keeps_update_used, I_used|]. intros _ _.
  eapply keeps_bind; [apply keeps_find_in_job|].
  intros found' _. destruct (found_combo found') as [male_combo|];
    [|apply keeps_raise].
  eapply keeps_bind; [apply I_take_cut|]. intros _ _.
  eapply keeps_bind; [apply keeps_update_used, I_used|]. intros _ _.
  destruct (Nat.eqb (i mod 2) 1); apply keeps_append_lines.
Qed.

Lemma keeps_process_cuts (tp tm kf km clearance off : R) (cuts : list R)
  (i : nat) :
  keeps I (process_cuts tp tm kf km clearance off job_metal job_plastic
             i cuts) (fun _ => True).
Proof.
  revert i. induction cuts as [|cut rest IH]; intros i; simpl.
  - apply keeps_ret. exact Logic.I.
  - eapply keeps_bind; [apply keeps_process_cut|].
    intros _ _. apply IH.
Qed.

End CutLoop.

(** The whole [try] block, for an invariant closed under the updates of
    the counters in [ok_loc] and of the other fields. *)
Section Whole.

Variable I : @App R -> Prop.
Variable ok_loc : loc -> Prop.

Hypothesis I_write : forall st l c,
  I st -> ok_loc l -> (l < length (heap st))%nat ->
  I (set_heap (replace_nth (heap st) l c) st).
Hypothesis I_alloc : forall st c,
  I st -> I (set_heap (heap st ++ [c]) st) /\ ok_loc (length (heap st)).
Hypothesis I_used : forall st u, I st -> I (set_used_spacers u st).
Hypothesis I_lines : forall st top bottom, I st -> I (set_lines top bottom st).
Hypothesis I_settings : forall st s, I st -> I (set_settings s st).

Lemma keeps_calculate_spacers_try (form : option Job) :
  keeps I (calculate_spacers_try form) (fun _ => True).
Proof.
  unfold calculate_spacers_try.
  eapply keeps_bind with (Q := fun _ => True).
  { intros st Hst. simpl. split; [|exact Logic.I].
    apply I_used, I_lines, Hst. }
  intros _ _. destruct form as [job|]; [|apply keeps_raise]. cbv zeta.
  eapply keeps_bind with (Q := fun _ => True).
  { intros st Hst. simpl. auto. }
  intros st0 _.
  eapply keeps_bind; [apply (keeps_copy I ok_loc I_alloc)|].
  intros job_metal Hm.
  eapply keeps_bind; [apply (keeps_copy I ok_loc I_alloc)|].
  intros job_plastic Hp.
  eapply keeps_bind; [apply keeps_find_in_job|].
  intros found _. destruct (found_combo found) as [s_combo|];
    [|apply keeps_raise].
  eapply keeps_bind;
    [apply (keeps_take_shoulder I ok_loc I_write); assumption|].
  intros _ _.
  eapply keeps_bind; [apply keeps_update_used, I_used|]. intros _ _.
  eapply keeps_bind; [apply keeps_append_lines, I_lines|]. intros _ _.
  eapply keeps_bind.
  { apply keeps_process_cuts; auto.
    intros combo. apply (keeps_take_cut I ok_loc I_write); assumption. }
  intros _ _.
  intros st Hst. simpl. split; [apply I_settings, Hst | exact Logic.I].
Qed.

End Whole.


End Runs.

Section PipelineFacts.

Context {R : Type} {NR : Number R}.
Local Open Scope num_scope.

Lemma replace_nth_length (h : list (@Counter R)) (l : loc) (c : Counter) :
  length (replace_nth h l c) = length h.
Proof.
  revert l. induction h as [|c0 h IH]; intros [|l]; simpl; auto.
Qed.

Lemma replace_nth_other (h : list (@Counter R)) (l l' : loc) (c : Counter) :
  l' <> l -> nth_error (replace_nth h l c) l' = nth_error h l'.
Proof.
  revert l l'. induction h as [|c0 h IH]; intros [|l] [|l'] H; simpl; auto;
    try congruence.
Qed.

Lemma replace_nth_same (h : list (@Counter R)) (l : loc) (c : Counter) :
  (l < length h)%nat -> nth_error (replace_nth h l c) l = Some c.
Proof.
  revert l. induction h as [|c0 h IH]; intros [|l] H; simpl in *;
    try lia; auto.
  apply IH. lia.
Qed.

Lemma untouched_refl (st : @App R) : untouched st st.
Proof. unfold untouched. auto. Qed.

Lemma untouched_write (st0 st : @App R) (l : loc) (c : Counter) :
  untouched st0 st -> (length (heap st0) <= l)%nat ->
  (l < length (heap st))%nat ->
  untouched st0 (set_heap (replace_nth (heap st) l c) st).
Proof.
  intros (Hm & Hp & Hlen & Hobj) Hl _. unfold untouched. simpl.
  rewrite replace_nth_length. repeat split; auto.
  intros l' c' H'. rewrite replace_nth_other; [apply Hobj, H'|].
  assert (l' < length (heap st0))%nat by (apply nth_error_Some; congruence).
  lia.
Qed.

Lemma untouched_alloc (st0 st : @App R) (c : Counter) :
  untouched st0 st ->
  untouched st0 (set_heap (heap st ++ [c]) st)
  /\ (length (heap st0) <= length (heap st))%nat.
Proof.
  intros (Hm & Hp & Hlen & Hobj). split; [|exact Hlen].
  unfold untouched. simpl. rewrite length_app. simpl.
  repeat split; auto; [lia|].
  intros l' c' H'. rewrite nth_error_app1; [apply Hobj, H'|].
  assert (l' < length (heap st0))%nat by (apply nth_error_Some; congruence).
  lia.
Qed.

(** The whole [try] block writes only to the counters it has copied. *)
Lemma calculate_spacers_try_untouched (form : option Job) (st0 : @App R) :
  keeps (untouched st0) (calculate_spacers_try form) (fun _ => True).
Proof.
  apply keeps_calculate_spacers_try
    with (ok_loc := fun l => (length (heap st0) <= l)%nat).
  - intros st l c. apply untouched_write.
  - intros st c. apply untouched_alloc.
  - intros st u H. exact H.
  - intros st top bottom H. exact H.
  - intros st s H. exact H.
Qed.

(** C7.  A run of [calculate_spacers], whether it completes or stops with
    an error at any stage, leaves the inventory as it was: the
    [SpacerInventory] still refers to the same two counter objects and
    these hold the same counts as before the run (and so does every other
    counter object that existed before it); the reservations went to the
    copies. *)
Theorem calculate_spacers_frame (form : option Job) (st : @App R)
  (inv : SpacerInventory) :
  inventory_of st = Some inv ->
  let st' := snd (calculate_spacers form st) in
  inventory_of st' = Some inv
  /\ inventory_metal st' = inventory_metal st
  /\ inventory_plastic st' = inventory_plastic st
  /\ forall l c, nth_error (heap st) l = Some c ->
                 nth_error (heap st') l = Some c.
Proof.
  intros Hinv. cbv zeta.
  assert (H : untouched st (snd (calculate_spacers form st))).
  { pose proof (calculate_spacers_try_untouched form st st (untouched_refl st))
      as H.
    unfold calculate_spacers.
    destruct (calculate_spacers_try form st) as [[a|e] st']; simpl;
      [apply H | exact H]. }
  destruct H as (Hm & Hp & _ & Hobj). repeat split; auto.
  unfold inventory_of in *. rewrite Hm, Hp.
  destruct (nth_error (heap st) (inventory_metal st)) as [m|] eqn:Em;
    [|discriminate].
  destruct (nth_error (heap st) (inventory_plastic st)) as [p|] eqn:Ep;
    [|discriminate].
  rewrite (Hobj _ _ Em), (Hobj _ _ Ep). exact Hinv.
Qed.

Lemma found_combo_Some (found : option (list R * bool)) (combo : list R) :
  found_combo found = Some combo -> exists flag, found = Some (combo, flag).
Proof.
  destruct found as [[[|sz rest] flag]|]; simpl; try discriminate.
  intros [= <-]. exists flag. reflexivity.
Qed.

Lemma find_in_job_spec (target tp tm : R) (job_metal job_plastic : loc)
  (st : @App R) :
  match find_in_job target tp tm job_metal job_plastic st with
  | (Ok found, st') =>
      st' = st
      /\ exists m p,
           found = find_spacer_combo (toggles st) target tp tm m p true 8
  | (Raise _, st') => st' = st
  end.
Proof.
  unfold find_in_job, bind, read.
  destruct (nth_error (heap st) job_metal) as [m|]; [|reflexivity].
  destruct (nth_error (heap st) job_plastic) as [p|]; [|reflexivity].
  split; [reflexivity | exists m, p; reflexivity].
Qed.

Lemma take_cut_same_lines (job_metal job_plastic : loc) (combo : list R)
  (st0 : @App R) :
  keeps (same_lines st0) (take_cut job_metal job_plastic combo)
    (fun _ => True).
Proof.
  apply keeps_take_cut with (ok_loc := fun _ => True); auto.
Qed.

Lemma take_shoulder_same_lines (job_metal job_plastic : loc)
  (combo : list R) (st0 : @App R) :
  keeps (same_lines st0) (take_shoulder job_metal job_plastic combo)
    (fun _ => True).
Proof.
  apply keeps_take_shoulder with (ok_loc := fun _ => True); auto.
Qed.

Lemma copy_same_lines (l : loc) (st0 : @App R) :
  keeps (same_lines st0) (copy l) (fun _ => True).
Proof.
  apply keeps_copy with (ok_loc := fun _ => True); auto.
Qed.

(** One cut: either it stops with an error and adds no line, or it adds
    one line on top and one at the bottom, derived as [derived_pair] says. *)
Lemma process_cut_lines (job : Job) (job_metal job_plastic : loc) (i : nat)
  (cut : R) (st : @App R) :
  match process_cut (tol_plus job) (tol_minus job) (knife_female job)
          (knife_male job) (clearance_of job) (deflect_offset_of job)
          job_metal job_plastic i cut st with
  | (Ok _, st') =>
      toggles st' = toggles st
      /\ exists top bottom,
           top_lines st' = top_lines st ++ [top]
           /\ bottom_lines st' = bottom_lines st ++ [bottom]
           /\ derived_pair (toggles st) job i cut top bottom
  | (Raise _, st') => same_lines st st'
  end.
Proof.
  unfold process_cut. cbv zeta. unfold bind at 1.
  pose proof (find_in_job_spec cut (tol_plus job) (tol_minus job)
                job_metal job_plastic st) as Hf.
  destruct (find_in_job cut (tol_plus job) (tol_minus job)
              job_metal job_plastic st) as [[found|e] st1].
  2:{ subst st1. unfold same_lines. auto. }
  destruct Hf as [-> (m0 & p0 & Hfound)].
  destruct (found_combo found) as [female_combo|] eqn:Efound.
  2:{ unfold raise, same_lines. auto. }
  apply found_combo_Some in Efound. destruct Efound as [female_flag ->].
  unfold bind at 1.
  pose proof (take_cut_same_lines job_metal job_plastic female_combo st st)
    as Ht.
  destruct (take_cut job_metal job_plastic female_combo st) as [[[]|e] st2].
  2:{ apply Ht. unfold same_lines. auto. }
  destruct Ht as [(Htg2 & Htop2 & Hbot2) _]; [unfold same_lines; auto|].
  unfold bind at 1. unfold update_used at 1, modify at 1.
  unfold bind at 1.
  set (st3 := set_used_spacers (update (used_spacers st2) female_combo) st2).
  set (female_sum := sum female_combo +^ deflect_offset_of job).
  set (male_target :=
         female_sum
         -^ (knife_female job +^ knife_male job
             +^ of_int 2 *^ clearance_of job)).
  pose proof (find_in_job_spec male_target (lit 1 3) (lit 1 3)
                job_metal job_plastic st3) as Hf'.
  destruct (find_in_job male_target (lit 1 3) (lit 1 3)
              job_metal job_plastic st3) as [[found'|e] st4].
  2:{ subst st4. unfold same_lines. simpl. auto. }
  destruct Hf' as [-> (m1 & p1 & Hfound')].
  destruct (found_combo found') as [male_combo|] eqn:Efound'.
  2:{ unfold raise, same_lines. simpl. auto. }
  apply found_combo_Some in Efound'. destruct Efound' as [male_flag ->].
  unfold bind at 1.
  pose proof (take_cut_same_lines job_metal job_plastic male_combo st st3)
    as Ht'.
  destruct (take_cut job_metal job_plastic male_combo st3) as [[[]|e] st5].
  2:{ apply Ht'. unfold same_lines. simpl. auto. }
  destruct Ht' as [(Htg5 & Htop5 & Hbot5) _];
    [unfold same_lines; simpl; auto|].
  assert (Hpair : forall top bottom,
            (top, bottom)
            = (if Nat.eqb (i mod 2) 1
               then (CutFemale i female_sum female_combo,
                     CutMale i male_target male_combo)
               else (CutMale i male_target male_combo,
                     CutFemale i female_sum female_combo)) ->
            derived_pair (toggles st) job i cut top bottom).
  { intros top bottom Heq.
    exists female_combo, female_flag, male_combo, male_flag, m0, p0, m1, p1.
    cbv zeta. fold female_sum. fold male_target.
    split. { symmetry. exact Hfound. }
    split. 2:{ exact Heq. }
    symmetry. rewrite <- Htg2. exact Hfound'. }
  destruct (Nat.eqb (i mod 2) 1) eqn:Epar; simpl;
    (split; [exact Htg5|]);
    rewrite Htop5, Hbot5; eexists; eexists;
    (split; [reflexivity | split; [reflexivity | apply Hpair; reflexivity]]).
Qed.

Lemma process_cuts_lines (job : Job) (job_metal job_plastic : loc)
  (cuts : list R) (i : nat) (st : @App R) :
  match process_cuts (tol_plus job) (tol_minus job) (knife_female job)
          (knife_male job) (clearance_of job) (deflect_offset_of job)
          job_metal job_plastic i cuts st with
  | (r, st') =>
      toggles st' = toggles st
      /\ exists tops bottoms,
           top_lines st' = top_lines st ++ tops
           /\ bottom_lines st' = bottom_lines st ++ bottoms
           /\ paired (toggles st) job i cuts tops bottoms
           /\ (forall u, r = Ok u -> length tops = length cuts)
  end.
Proof.
  revert i st. induction cuts as [|cut rest IH]; intros i st.
  - simpl. split; [reflexivity|]. exists [], [].
    rewrite !app_nil_r. repeat split; auto. constructor.
  - simpl process_cuts. unfold bind.
    pose proof (process_cut_lines job job_metal job_plastic i cut st) as Hc.
    destruct (process_cut _ _ _ _ _ _ job_metal job_plastic i cut st)
      as [[[]|e] st1].
    + destruct Hc as (Htg & top & bottom & Htop & Hbot & Hpair).
      specialize (IH (S i) st1).
      destruct (process_cuts _ _ _ _ _ _ job_metal job_plastic (S i) rest st1)
        as [r st'].
      destruct IH as (Htg' & tops & bottoms & Htops & Hbots & Hrest & Hlen).
      split; [congruence|].
      exists (top :: tops), (bottom :: bottoms).
      rewrite Htops, Hbots, Htop, Hbot, <- !app_assoc. simpl.
      repeat split; auto.
      * constructor; [exact Hpair|]. rewrite <- Htg. exact Hrest.
      * intros u Hu. f_equal. apply (Hlen u Hu).
    + destruct Hc as (Htg & Htop & Hbot).
      split; [exact Htg|]. exists [], [].
      rewrite !app_nil_r. repeat split; auto; [constructor | discriminate].
Qed.

Lemma calculate_spacers_try_lines (job : Job) (st : @App R) :
  match calculate_spacers_try (Some job) st with
  | (r, st') =>
      paired (toggles st) job 1 (expand_cuts (cut_entries job))
        (top_lines st') (tl (bottom_lines st'))
      /\ (forall u, r = Ok u ->
            length (top_lines st') = length (expand_cuts (cut_entries job)))
  end.
Proof.
  unfold calculate_spacers_try.
  unfold bind at 1. unfold modify at 1. cbv zeta.
  set (st1 := set_used_spacers [] (set_lines [] [] st)).
  assert (Hstop : forall e (st' : @App R),
            same_lines st1 st' ->
            paired (toggles st) job 1 (expand_cuts (cut_entries job))
              (top_lines st') (tl (bottom_lines st'))
            /\ (forall u : unit, @Raise (@error R) unit e = Ok u ->
                length (top_lines st')
                = length (expand_cuts (cut_entries job)))).
  { intros e st' (_ & Htop & Hbot). rewrite Htop, Hbot. simpl.
    split; [constructor | discriminate]. }
  unfold bind at 1.
  unfold bind at 1.
  pose proof (copy_same_lines (inventory_metal st1) st1 st1) as Hc1.
  destruct (copy (inventory_metal st1) st1) as [[job_metal|e] st2].
  2:{ apply Hstop, Hc1. unfold same_lines. auto. }
  destruct Hc1 as [H2 _]; [unfold same_lines; auto|].
  unfold bind at 1.
  pose proof (copy_same_lines (inventory_plastic st1) st1 st2 H2) as Hc2.
  destruct (copy (inventory_plastic st1) st2) as [[job_plastic|e] st3].
  2:{ apply Hstop, Hc2. }
  destruct Hc2 as [H3 _].
  unfold bind at 1.
  pose proof (find_in_job_spec (clearance_of job +^ knife_female job)
                (lit 1 3) (lit 1 3) job_metal job_plastic st3) as Hf.
  destruct (find_in_job (clearance_of job +^ knife_female job)
              (lit 1 3) (lit 1 3) job_metal job_plastic st3)
    as [[found|e] st4].
  2:{ subst st4. apply Hstop, H3. }
  destruct Hf as [-> _].
  destruct (found_combo found) as [s_combo|].
  2:{ unfold raise. apply Hstop, H3. }
  unfold bind at 1.
  pose proof (take_shoulder_same_lines job_metal job_plastic s_combo st1
                st3 H3) as Ht.
  destruct (take_shoulder job_metal job_plastic s_combo st3)
    as [[[]|e] st5].
  2:{ apply Hstop, Ht. }
  destruct Ht as [(Htg5 & Htop5 & Hbot5) _].
  unfold bind at 1. unfold update_used at 1, modify at 1.
  unfold bind at 1. unfold append_lines at 1, modify at 1.
  unfold bind at 1.
  set (st6 := set_lines _ _ _).
  pose proof (process_cuts_lines job job_metal job_plastic
                (expand_cuts (cut_entries job)) 1 st6) as Hp.
  destruct (process_cuts _ _ _ _ _ _ job_metal job_plastic 1
              (expand_cuts (cut_entries job)) st6) as [[[]|e] st7];
    simpl in Hp;
    destruct Hp as (Htg7 & tops & bottoms & Htops & Hbots & Hpaired & Hlen);
    rewrite Htop5 in Htops; rewrite Hbot5 in Hbots; simpl in Htops, Hbots;
    rewrite Htg5 in Hpaired; simpl in Hpaired; simpl;
    rewrite Htops, Hbots; simpl.
  - split; [exact Hpaired | intros _ _; apply (Hlen tt eq_refl)].
  - split; [exact Hpaired | discriminate].
Qed.

(** C8.  In every run, the lines of cut [i] record a female stack found for
    the cut width within the job's tolerances and a male stack found, with
    the fixed tolerances (0.001, 0.001), for the target
    [(sum(female_combo) + deflect_offset) - (kf + km + 2 * clearance)],
    where [deflect_offset] is the one offset of the run; a run that
    completes has such a pair of lines for every cut. *)
Theorem male_target_derivation (job : Job) (st : @App R) :
  let run := calculate_spacers (Some job) st in
  let cuts := expand_cuts (cut_entries job) in
  paired (toggles st) job 1 cuts
    (top_lines (snd run)) (tl (bottom_lines (snd run)))
  /\ (fst run = Done -> length (top_lines (snd run)) = length cuts).
Proof.
  cbv zeta. unfold calculate_spacers.
  pose proof (calculate_spacers_try_lines job st) as H.
  destruct (calculate_spacers_try (Some job) st) as [[[]|e] st']; simpl;
    destruct H as [Hp Hlen].
  - split; [exact Hp | intros _; apply (Hlen tt eq_refl)].
  - split; [exact Hp | discriminate].
Qed.

(** The guarded decrement of the cut loops never goes below zero. *)
Lemma decrement_positive (l : loc) (sz : R) (c : Counter) (st : @App R) :
  nth_error (heap st) l = Some c -> 0 < get c sz ->
  no_negative_count st ->
  match decrement l sz st with
  | (_, st') => no_negative_count st'
  end.
Proof.
  intros Hc Hpos Hst. unfold decrement, bind, read, write. rewrite Hc, Hc.
  intros l' c' k. simpl.
  destruct (Nat.eq_dec l' l) as [->|Hne].
  - rewrite replace_nth_same by (apply nth_error_Some; congruence).
    intros [= <-]. rewrite get_set.
    destruct (num_eq_dec k sz) as [->|_]; [lia | apply (Hst l c k Hc)].
  - rewrite replace_nth_other by exact Hne. apply Hst.
Qed.

Lemma take_cut_no_negative_count (job_metal job_plastic : loc)
  (combo : list R) :
  keeps no_negative_count (take_cut job_metal job_plastic combo)
    (fun _ => True).
Proof.
  induction combo as [|sz rest IH]; simpl.
  - apply keeps_ret. exact Logic.I.
  - intros st Hst. unfold bind at 1. unfold read at 1.
    destruct (nth_error (heap st) job_metal) as [m|] eqn:Em; [|exact Hst].
    unfold bind at 1.
    destruct (contains m sz && (0 <? get m sz)) eqn:Gm.
    + apply andb_true_iff in Gm. destruct Gm as [_ Gm].
      apply Z.ltb_lt in Gm.
      pose proof (decrement_positive job_metal sz m st Em Gm Hst) as Hd.
      destruct (decrement job_metal sz st) as [[[]|e] st1]; [|exact Hd].
      apply (IH st1 Hd).
    + unfold bind at 1. unfold read at 1.
      destruct (nth_error (heap st) job_plastic) as [p|] eqn:Ep;
        [|exact Hst].
      destruct (contains p sz && (0 <? get p sz)) eqn:Gp.
      * apply andb_true_iff in Gp. destruct Gp as [_ Gp].
        apply Z.ltb_lt in Gp.
        pose proof (decrement_positive job_plastic sz p st Ep Gp Hst) as Hd.
        destruct (decrement job_plastic sz st) as [[[]|e] st1]; [|exact Hd].
        apply (IH st1 Hd).
      * apply (IH st Hst).
Qed.

(** The cut stage as a whole, female and male stacks of every cut, takes
    no count below zero. *)
Lemma process_cuts_no_negative_count (tp tm kf km clearance off : R)
  (job_metal job_plastic : loc) (cuts : list R) (i : nat) :
  keeps no_negative_count
    (process_cuts tp tm kf km clearance off job_metal job_plastic i cuts)
    (fun _ => True).
Proof.
  apply keeps_process_cuts.
  - apply take_cut_no_negative_count.
  - intros st u H. exact H.
  - intros st top bottom H. exact H.
Qed.

End PipelineFacts.

Section DeflectionFacts.

Context {R : Type} {NR : Number R}.
Local Open Scope num_scope.
Local Open Scope string_scope.

(** C9.  The deflection offset of a run is 0.0 when auto-deflection is
    off; when it is on, it is 0.0005 for Aluminum, 0.0015 for Galvanized or
    Stainless when the thickness is above 0.030 and 0.0010 otherwise, and
    0.0 for any other material tag.  It is a function of the material, the
    thickness and the flag alone. *)
Theorem deflection_offset_table (job : @Job R) :
  (auto_deflect job = false -> deflect_offset_of job = lit 0 1)
  /\ (auto_deflect job = true -> material job = "Aluminum" ->
      deflect_offset_of job = lit 5 4)
  /\ (auto_deflect job = true ->
      material job = "Galvanized" \/ material job = "Stainless" ->
      deflect_offset_of job
      = if lit 30 3 <^ thickness job then lit 15 4 else lit 10 4)
  /\ (auto_deflect job = true ->
      material job <> "Aluminum" -> material job <> "Galvanized" ->
      material job <> "Stainless" ->
      deflect_offset_of job = lit 0 1)
  /\ (forall job' : @Job R,
        material job' = material job -> thickness job' = thickness job ->
        auto_deflect job' = auto_deflect job ->
        deflect_offset_of job' = deflect_offset_of job).
Proof.
  unfold deflect_offset_of, get_deflection_offset.
  repeat split.
  - intros ->. reflexivity.
  - intros -> ->. reflexivity.
  - intros -> [-> | ->]; reflexivity.
  - intros -> Ha Hg Hs.
    apply String.eqb_neq in Ha, Hg, Hs. rewrite Ha, Hg, Hs. reflexivity.
  - intros job' -> -> ->. reflexivity.
Qed.

End DeflectionFacts.

Section TieBreakFacts.

Context {R : Type} {NR : Number R}.

(** The returned combo is the first accepted candidate in the order of the
    enumeration of its pass. *)
Lemma find_spacer_combo_first (self : Toggles) (target tol_plus tol_minus : R)
  (metal_inv plastic_inv : Counter) (prefer_metal : bool) (max_stack : nat)
  (combo : list R) (is_metal : bool) :
  find_spacer_combo self target tol_plus tol_minus metal_inv plastic_inv
    prefer_metal max_stack = Some (combo, is_metal) ->
  let inv := view_of metal_inv plastic_inv is_metal in
  exists before after,
    enumeration (positive_keys inv) max_stack = before ++ combo :: after
    /\ accepted target tol_plus tol_minus inv combo = true
    /\ forall c, In c before ->
         accepted target tol_plus tol_minus inv c = false.
Proof.
  intros H. apply find_spacer_combo_view in H. cbv zeta.
  rewrite search_flat in H. apply first_accepted_Some, H.
Qed.

(** With metal preferred, a result flagged [False] means that no stack of
    1 to [max_stack] metal sizes was acceptable. *)
Lemma find_spacer_combo_mixed (self : Toggles) (target tol_plus tol_minus : R)
  (metal_inv plastic_inv : Counter) (max_stack : nat) (combo : list R) :
  find_spacer_combo self target tol_plus tol_minus metal_inv plastic_inv
    true max_stack = Some (combo, false) ->
  forall c,
    drawn_from (positive_keys metal_inv) c ->
    (1 <= length c <= max_stack)%nat ->
    accepted target tol_plus tol_minus metal_inv c = false.
Proof.
  intros H c Hc Hlen. apply find_spacer_combo_cases in H.
  destruct H as [(Habs & _)|(_ & Hnone & _)]; [discriminate|].
  specialize (Hnone eq_refl).
  assert (Hr := search_seq_None _ _ _ _ _ _ _ Hnone (length c) ltac:(lia)).
  rewrite first_accepted_None in Hr. apply Hr, drawn_combinations, Hc.
Qed.

End TieBreakFacts.

(** ** Concrete runs, in exact decimal arithmetic *)

Lemma exact_nltb_asym (x y : Q) : nltb x y = true -> nltb y x = false.
Proof.
  simpl. intros H. apply negb_true_iff in H. apply negb_false_iff.
  apply Qle_bool_iff. apply Qlt_le_weak, Qnot_le_lt.
  intros Hle. apply Qle_bool_iff in Hle. congruence.
Qed.

(** In exact arithmetic the pool of a search is in descending order. *)
Lemma positive_keys_descending (inv : @Counter Q) :
  Sorted not_below (positive_keys inv).
Proof. apply sorted_reverse_sorted, exact_nltb_asym. Qed.

(** C6.  For the counter it searches, [find_spacer_combo] returns the first
    accepted candidate of the enumeration that takes the sizes r = 1, 2,
    ... in turn and, for each, the combinations with replacement of the
    positive keys sorted in descending order.  For the pool
    {0.500: 2, 0.250: 1}, target 0.750 and tolerances (0.001, 0.001) it
    returns exactly [0.500, 0.250]. *)
Theorem deterministic_tie_break :
  (forall (R : Type) (NR : Number R) (self : Toggles)
          (target tol_plus tol_minus : R) (metal_inv plastic_inv : Counter)
          (prefer_metal : bool) (max_stack : nat) (combo : list R)
          (is_metal : bool),
      find_spacer_combo self target tol_plus tol_minus metal_inv plastic_inv
        prefer_metal max_stack = Some (combo, is_metal) ->
      let inv := view_of metal_inv plastic_inv is_metal in
      exists before after,
        enumeration (positive_keys inv) max_stack = before ++ combo :: after
        /\ accepted target tol_plus tol_minus inv combo = true
        /\ forall c, In c before ->
             accepted target tol_plus tol_minus inv c = false)
  /\ (forall self : Toggles,
        find_spacer_combo self (lit 750 3) (lit 1 3) (lit 1 3)
          [(lit 500 3, 2); (lit 250 3, 1)] [] true 8
        = Some ([lit 500 3; lit 250 3], true))
  /\ positive_keys [(lit 250 3, 1); (lit 500 3, 2)] = [lit 500 3; lit 250 3]
  /\ enumeration [lit 500 3; lit 250 3] 2
     = [[lit 500 3]; [lit 250 3];
        [lit 500 3; lit 500 3]; [lit 500 3; lit 250 3];
        [lit 250 3; lit 250 3]].
Proof.
  split; [|split; [|split]].
  - intros R NR. apply find_spacer_combo_first.
  - intros self. vm_compute. reflexivity.
  - vm_compute. reflexivity.
  - vm_compute. reflexivity.
Qed.

(** C4.  With metal preferred, [find_spacer_combo] returns a result flagged
    as not all-metal only when no stack of 1 to [max_stack] metal sizes is
    acceptable.  With metal {0.125: 1}, plastic {0.125: 5}, target 0.125
    and tolerances (0, 0), the first call returns [0.125] flagged metal;
    once that spacer is taken (metal at 0) the same call returns [0.125]
    flagged non-metal, and taking it draws on the plastic counter. *)
Theorem material_preference :
  (forall (R : Type) (NR : Number R) (self : Toggles)
          (target tol_plus tol_minus : R) (metal_inv plastic_inv : Counter)
          (max_stack : nat) (combo : list R),
      find_spacer_combo self target tol_plus tol_minus metal_inv plastic_inv
        true max_stack = Some (combo, false) ->
      forall c,
        drawn_from (positive_keys metal_inv) c ->
        (1 <= length c <= max_stack)%nat ->
        accepted target tol_plus tol_minus metal_inv c = false)
  /\ (forall self : Toggles,
        let metal0 := [(lit 125 3, 1)] in
        let plastic0 := [(lit 125 3, 5)] in
        let metal1 := [(lit 125 3, 0)] in
        let plastic1 := [(lit 125 3, 4)] in
        find_spacer_combo self (lit 125 3) (of_int 0) (of_int 0)
          metal0 plastic0 true 8 = Some ([lit 125 3], true)
        /\ use_spacers {| metal := metal0; plastic := plastic0 |} [lit 125 3]
           = ({| metal := metal1; plastic := plastic0 |}, Reserved)
        /\ find_spacer_combo self (lit 125 3) (of_int 0) (of_int 0)
             metal1 plastic0 true 8 = Some ([lit 125 3], false)
        /\ use_spacers {| metal := metal1; plastic := plastic0 |} [lit 125 3]
           = ({| metal := metal1; plastic := plastic1 |}, Reserved)).
Proof.
  split.
  - intros R NR. apply find_spacer_combo_mixed.
  - intros self. cbv zeta.
    split; [|split; [|split]]; vm_compute; reflexivity.
Qed.

(** C5.  The shoulder loop of [calculate_spacers] takes a size off the
    working metal counter whenever the key is there, also when no metal
    spacer of that size is left: with 0.125 once in metal and five times in
    plastic, a shoulder of two 0.125 leaves the working metal count of
    0.125 at -1, in a run that completes.  The loop used for the cuts, on
    the same counters, stops at 0 and goes on with the plastic. *)
Theorem shoulder_takes_count_below_zero :
  let run := calculate_spacers (Some one_cut) shop in
  fst run = Done
  /\ hd_error (bottom_lines (snd run))
     = Some (Shoulder (lit 25 2) [lit 125 3; lit 125 3])
  /\ nth_error (heap (snd run)) 2
     = Some [(lit 1000 3, 0); (lit 500 3, 0); (lit 125 3, -1)]
  /\ heap (snd (take_shoulder 0%nat 1%nat [lit 125 3; lit 125 3] shop))
     = [[(lit 1000 3, 1); (lit 500 3, 1); (lit 125 3, -1)];
        [(lit 125 3, 5)]]
  /\ heap (snd (take_cut 0%nat 1%nat [lit 125 3; lit 125 3] shop))
     = [[(lit 1000 3, 1); (lit 500 3, 1); (lit 125 3, 0)];
        [(lit 125 3, 4)]].
Proof.
  cbv zeta. split; [|split; [|split; [|split]]]; vm_compute; reflexivity.
Qed.

(** C2 as stated fails: with two metal spacers of size 1, one plastic shim
    of size 2 and target 2, the result is the all-metal [1, 1], although
    the single size 2 is a smaller stack within the band. *)
Lemma minimal_over_both_pools_fails :
  ~ minimal_over_both_pools both_ticked (of_int 2) (of_int 0) (of_int 0)
      two_ones one_two true 8.
Proof.
  intros H.
  specialize (H [of_int 1; of_int 1] true eq_refl [of_int 2]).
  assert (Hd : drawn_from (positive_keys (counter_add two_ones one_two))
                 [of_int 2]).
  { change (positive_keys (counter_add two_ones one_two))
      with [of_int 2; of_int 1].
    apply drawn_take, drawn_nil. }
  specialize (H Hd). simpl length in H.
  specialize (H ltac:(lia)). vm_compute in H. discriminate.
Qed.

(** C3 as stated fails: asked for two spacers of size 1 when one is left,
    [use_spacers] signals failure after it has taken the first. *)
Lemma all_or_nothing_fails :
  ~ all_or_nothing one_left [of_int 1; of_int 1].
Proof.
  unfold all_or_nothing. vm_compute. intros [H _]. discriminate.
Qed.

Lemma find_spacer_combo_sound_witness :
  let combo := [lit 500 3; lit 250 3] in
  let total := nround 4 (sum combo) in
  let inv := [(lit 500 3, 2); (lit 250 3, 1)] in
  (lit 750 3 -^ lit 1 3 <=^ total)%num = true
  /\ (total <=^ lit 750 3 +^ lit 1 3)%num = true
  /\ (forall k, In k combo ->
        Z.of_nat (count_occ num_eq_dec combo k) <= get inv k)
  /\ drawn_from (positive_keys inv) combo.
Proof.
  apply (find_spacer_combo_sound both_ticked (lit 750 3) (lit 1 3) (lit 1 3)
           [(lit 500 3, 2); (lit 250 3, 1)] [] true 8
           [lit 500 3; lit 250 3] true).
  vm_compute. reflexivity.
Defined.

Lemma find_spacer_combo_minimal_witness :
  let inv := view_of two_ones one_two true in
  (1 <= length [of_int 1; of_int 1] <= 8)%nat
  /\ forall c,
       drawn_from (positive_keys inv) c ->
       (1 <= length c < length [of_int 1; of_int 1])%nat ->
       accepted (of_int 2) (of_int 0) (of_int 0) inv c = false.
Proof.
  apply (find_spacer_combo_minimal both_ticked (of_int 2) (of_int 0)
           (of_int 0) two_ones one_two true 8 [of_int 1; of_int 1] true).
  vm_compute. reflexivity.
Defined.

Lemma deterministic_tie_break_witness :
  let inv := view_of [(lit 500 3, 2); (lit 250 3, 1)] [] true in
  exists before after,
    enumeration (positive_keys inv) 8
    = before ++ [lit 500 3; lit 250 3] :: after
    /\ accepted (lit 750 3) (lit 1 3) (lit 1 3) inv [lit 500 3; lit 250 3]
       = true
    /\ forall c, In c before ->
         accepted (lit 750 3) (lit 1 3) (lit 1 3) inv c = false.
Proof.
  apply (proj1 deterministic_tie_break Q number both_ticked
           (lit 750 3) (lit 1 3) (lit 1 3)
           [(lit 500 3, 2); (lit 250 3, 1)] [] true 8%nat
           [lit 500 3; lit 250 3] true).
  vm_compute. reflexivity.
Defined.

Lemma material_preference_witness :
  accepted (lit 125 3) (of_int 0) (of_int 0) [(lit 500 3, 1)] [lit 500 3]
  = false.
Proof.
  apply (proj1 material_preference Q number both_ticked
           (lit 125 3) (of_int 0) (of_int 0)
           [(lit 500 3, 1)] [(lit 125 3, 1)] 8%nat [lit 125 3]).
  - vm_compute. reflexivity.
  - change (positive_keys [(lit 500 3, 1)]) with [lit 500 3].
    apply drawn_take, drawn_nil.
  - simpl. lia.
Defined.

Lemma calculate_spacers_frame_witness :
  let st' := snd (calculate_spacers (Some one_cut) shop) in
  inventory_of st'
  = Some {| metal := shop_metal; plastic := shop_plastic |}
  /\ inventory_metal st' = inventory_metal shop
  /\ inventory_plastic st' = inventory_plastic shop
  /\ forall l c, nth_error (heap shop) l = Some c ->
                 nth_error (heap st') l = Some c.
Proof.
  apply (calculate_spacers_frame (Some one_cut) shop
           {| metal := shop_metal; plastic := shop_plastic |}).
  reflexivity.
Defined.

Lemma male_target_derivation_witness :
  length (top_lines (snd (calculate_spacers (Some one_cut) shop)))
  = length (expand_cuts (cut_entries one_cut)).
Proof.
  apply (proj2 (male_target_derivation one_cut shop)).
  vm_compute. reflexivity.
Defined.

Lemma deflection_offset_table_witness :
  deflect_offset_of (deflection_job "Aluminum" (lit 4 2) true) = lit 5 4
  /\ deflect_offset_of (deflection_job "Stainless" (lit 4 2) true)
     = lit 15 4
  /\ deflect_offset_of (deflection_job "Galvanized" (lit 3 2) true)
     = lit 10 4
  /\ deflect_offset_of (deflection_job "Copper" (lit 4 2) true) = lit 0 1
  /\ deflect_offset_of (deflection_job "Stainless" (lit 4 2) false)
     = lit 0 1.
Proof.
  split; [|split; [|split; [|split]]].
  - apply (proj1 (proj2 (deflection_offset_table
                           (deflection_job "Aluminum" (lit 4 2) true))));
      reflexivity.
  - etransitivity;
      [apply (proj1 (proj2 (proj2 (deflection_offset_table
                (deflection_job "Stainless" (lit 4 2) true)))));
         [reflexivity | right; reflexivity]
      | reflexivity].
  - etransitivity;
      [apply (proj1 (proj2 (proj2 (deflection_offset_table
                (deflection_job "Galvanized" (lit 3 2) true)))));
         [reflexivity | left; reflexivity]
      | reflexivity].
  - apply (proj1 (proj2 (proj2 (proj2 (deflection_offset_table
                           (deflection_job "Copper" (lit 4 2) true))))));
      [reflexivity | discriminate | discriminate | discriminate].
  - apply (proj1 (deflection_offset_table
                    (deflection_job "Stainless" (lit 4 2) false)));
      reflexivity.
Defined.

(** * More of the ledger and of the search *)

Section LedgerMore.

Context {R : Type} {NR : Number R}.

Ltac case_keys :=
  repeat match goal with
         | |- context [num_eq_dec ?a ?b] =>
             destruct (num_eq_dec a b); subst; try congruence
         | H : context [num_eq_dec ?a ?b] |- _ =>
             destruct (num_eq_dec a b); subst; try congruence
         end.

(** What acceptance gives for a returned combo: its counts are within the
    counter of its pass, and it is drawn from that counter's pool. *)
Lemma found_is_accepted (self : Toggles) (target tol_plus tol_minus : R)
  (metal_inv plastic_inv : Counter) (prefer_metal : bool) (max_stack : nat)
  (combo : list R) (is_metal : bool) :
  find_spacer_combo self target tol_plus tol_minus metal_inv plastic_inv
    prefer_metal max_stack = Some (combo, is_metal) ->
  (forall k, In k combo ->
     Z.of_nat (count_occ num_eq_dec combo k)
     <= get (view_of metal_inv plastic_inv is_metal) k)
  /\ drawn_from (positive_keys (view_of metal_inv plastic_inv is_metal)) combo.
Proof.
  intros H. apply find_spacer_combo_first in H. cbv zeta in H.
  destruct H as (before & after & Henum & Hacc & _).
  apply accepted_spec in Hacc. destruct Hacc as [_ Hcounts]. split.
  - apply within_counts_spec, Hcounts.
  - assert (Hin : In combo (enumeration
                     (positive_keys (view_of metal_inv plastic_inv is_metal))
                     max_stack)) by (rewrite Henum; apply in_elt).
    unfold enumeration in Hin. apply in_flat_map in Hin.
    destruct Hin as (r & _ & Hin). apply (combinations_drawn _ _ r Hin).
Qed.

Lemma available_take_metal (self : SpacerInventory) (sz k : R) :
  0 < get (metal self) sz ->
  available {| metal := set (metal self) sz (get (metal self) sz - 1);
               plastic := plastic self |} k
  = available self k - (if num_eq_dec sz k then 1 else 0).
Proof.
  intros H. unfold available. simpl. rewrite get_set. case_keys; lia.
Qed.

Lemma available_take_plastic (self : SpacerInventory) (sz k : R) :
  0 < get (plastic self) sz ->
  available {| metal := metal self;
               plastic := set (plastic self) sz (get (plastic self) sz - 1) |}
    k
  = available self k - (if num_eq_dec sz k then 1 else 0).
Proof.
  intros H. unfold available. simpl. rewrite get_set. case_keys; lia.
Qed.

Lemma use_spacers_loop_succeeds (combo : list R) (self : SpacerInventory) :
  snd (use_spacers_loop self combo) = Reserved
  <-> forall k, Z.of_nat (count_occ num_eq_dec combo k) <= available self k.
Proof.
  revert self. induction combo as [|sz rest IH]; intros self; simpl.
  - split; [intros _ k; unfold available; lia | reflexivity].
  - destruct (0 <? get (metal self) sz) eqn:Em.
    + apply Z.ltb_lt in Em. rewrite IH. split; intros H k; specialize (H k).
      * rewrite available_take_metal in H by exact Em. case_keys; lia.
      * rewrite available_take_metal by exact Em. case_keys; lia.
    + destruct (0 <? get (plastic self) sz) eqn:Ep.
      * apply Z.ltb_lt in Ep. rewrite IH.
        split; intros H k; specialize (H k).
        -- rewrite available_take_plastic in H by exact Ep. case_keys; lia.
        -- rewrite available_take_plastic by exact Ep. case_keys; lia.
      * apply Z.ltb_ge in Em, Ep. simpl. split; [discriminate|].
        intros H. specialize (H sz). unfold available in H. case_keys. lia.
Qed.

(** X1.  [use_spacers] succeeds exactly when, for every size, the combo
    asks for no more pieces than the two counters hold above zero
    together; otherwise it raises. *)
Theorem use_spacers_succeeds_iff (self : SpacerInventory) (combo : list R) :
  snd (use_spacers self combo) = Reserved
  <-> forall k, Z.of_nat (count_occ num_eq_dec combo k) <= available self k.
Proof. unfold use_spacers. cbv zeta. apply use_spacers_loop_succeeds. Qed.

Lemma use_spacers_loop_metal_first (combo : list R)
  (self self' : SpacerInventory) :
  use_spacers_loop self combo = (self', Reserved) ->
  forall k,
    let n := Z.of_nat (count_occ num_eq_dec combo k) in
    let a := Z.max 0 (get (metal self) k) in
    get (metal self') k = get (metal self) k - Z.min n a
    /\ get (plastic self') k = get (plastic self) k - Z.max 0 (n - a).
Proof.
  revert self. induction combo as [|sz rest IH]; intros self; simpl.
  - intros [= <-] k. lia.
  - destruct (0 <? get (metal self) sz) eqn:Em.
    + apply Z.ltb_lt in Em. intros H k. specialize (IH _ H k).
      simpl in IH. rewrite get_set in IH. case_keys; lia.
    + destruct (0 <? get (plastic self) sz) eqn:Ep; [|discriminate].
      apply Z.ltb_lt in Ep. apply Z.ltb_ge in Em.
      intros H k. specialize (IH _ H k).
      simpl in IH. rewrite get_set in IH. case_keys; lia.
Qed.

(** X2.  A successful [use_spacers] draws on metal first: of the [n]
    pieces of a size the combo asks for, as many as the metal counter
    holds above zero come off the metal count, and only the rest off the
    plastic count. *)
Theorem use_spacers_metal_first (self self' : SpacerInventory)
  (combo : list R) :
  use_spacers self combo = (self', Reserved) ->
  forall k,
    let n := Z.of_nat (count_occ num_eq_dec combo k) in
    let a := Z.max 0 (get (metal self) k) in
    get (metal self') k = get (metal self) k - Z.min n a
    /\ get (plastic self') k = get (plastic self) k - Z.max 0 (n - a).
Proof. unfold use_spacers. cbv zeta. apply use_spacers_loop_metal_first. Qed.

(** ** The sum of two counters *)

Lemma contains_false_get (c : Counter) (k : R) :
  contains c k = false -> get c k = 0.
Proof.
  intros H. apply get_not_In. intros Hin. apply contains_In in Hin. congruence.
Qed.

Lemma well_formed_set (c : Counter) (k : R) (v : Z) :
  well_formed c -> well_formed (set c k v).
Proof.
  unfold well_formed, keys. induction c as [|[k0 v0] c IH]; simpl; intros Hnd.
  - constructor; [intros [] | constructor].
  - apply NoDup_cons_iff in Hnd. destruct Hnd as [Hk0 Hnd].
    destruct (num_eq_dec k k0) as [->|Hne]; simpl.
    + constructor; assumption.
    + constructor; [|apply IH, Hnd].
      intros Hin. apply (keys_set c k k0 v) in Hin.
      destruct Hin as [->|Hin]; [congruence | exact (Hk0 Hin)].
Qed.

Lemma keys_set_present (c : Counter) (k : R) (v : Z) :
  In k (keys c) -> keys (set c k v) = keys c.
Proof.
  unfold keys. induction c as [|[k0 v0] c IH]; simpl.
  - intros [].
  - intros Hin. destruct (num_eq_dec k k0) as [->|Hne]; simpl.
    + reflexivity.
    + f_equal. apply IH. destruct Hin as [<-|Hin]; [congruence | exact Hin].
Qed.

(** The first loop of [a + b], over the items of [a]. *)
Lemma sum_loop_get (b : Counter) (l acc : Counter) (k : R) :
  well_formed l ->
  get (fold_left (fun res kv =>
                    let newcount := snd kv + get b (fst kv) in
                    if 0 <? newcount then set res (fst kv) newcount else res)
         l acc) k
  = if contains l k && (0 <? get l k + get b k)
    then get l k + get b k else get acc k.
Proof.
  unfold well_formed, keys. revert acc.
  induction l as [|[k0 v0] l IH]; intros acc Hnd; simpl.
  - reflexivity.
  - apply NoDup_cons_iff in Hnd. destruct Hnd as [Hk0 Hnd].
    rewrite IH by exact Hnd.
    destruct (num_eq_dec k k0) as [->|Hne].
    + assert (Hc : contains l k0 = false).
      { destruct (contains l k0) eqn:E; [|reflexivity].
        apply contains_In in E. contradiction. }
      rewrite Hc. simpl.
      destruct (0 <? v0 + get b k0); [apply get_set_same | reflexivity].
    + destruct (contains l k && (0 <? get l k + get b k)); [reflexivity|].
      destruct (0 <? v0 + get b k0); [|reflexivity].
      apply get_set_other, Hne.
Qed.

(** The second loop of [a + b], over the items of [b]. *)
Lemma rest_loop_get (a : Counter) (l acc : Counter) (k : R) :
  well_formed l ->
  get (fold_left (fun res kv =>
                    if negb (contains a (fst kv)) && (0 <? snd kv)
                    then set res (fst kv) (snd kv) else res)
         l acc) k
  = if contains l k && (negb (contains a k) && (0 <? get l k))
    then get l k else get acc k.
Proof.
  unfold well_formed, keys. revert acc.
  induction l as [|[k0 v0] l IH]; intros acc Hnd; simpl.
  - reflexivity.
  - apply NoDup_cons_iff in Hnd. destruct Hnd as [Hk0 Hnd].
    rewrite IH by exact Hnd.
    destruct (num_eq_dec k k0) as [->|Hne].
    + assert (Hc : contains l k0 = false).
      { destruct (contains l k0) eqn:E; [|reflexivity].
        apply contains_In in E. contradiction. }
      rewrite Hc. simpl.
      destruct (negb (contains a k0) && (0 <? v0));
        [apply get_set_same | reflexivity].
    + destruct (contains l k && (negb (contains a k) && (0 <? get l k)));
        [reflexivity|].
      destruct (negb (contains a k0) && (0 <? v0)); [|reflexivity].
      apply get_set_other, Hne.
Qed.

(** In [a + b] a size counts the sum of its two counts when that is
    positive, and 0 otherwise. *)
Lemma get_counter_add (a b : Counter) (k : R) :
  well_formed a -> well_formed b ->
  get (counter_add a b) k = Z.max 0 (get a k + get b k).
Proof.
  intros Ha Hb. unfold counter_add, items.
  rewrite rest_loop_get by exact Hb. rewrite sum_loop_get by exact Ha.
  simpl get.
  destruct (contains a k) eqn:Ea; simpl.
  - rewrite andb_false_r.
    destruct (0 <? get a k + get b k) eqn:E;
      [apply Z.ltb_lt in E | apply Z.ltb_ge in E]; lia.
  - rewrite (contains_false_get a k Ea).
    destruct (contains b k) eqn:Eb; simpl.
    + destruct (0 <? get b k) eqn:E;
        [apply Z.ltb_lt in E | apply Z.ltb_ge in E]; lia.
    + rewrite (contains_false_get b k Eb). reflexivity.
Qed.

Lemma check_availability_spec (self : SpacerInventory) (combo : list R) :
  well_formed (metal self) -> well_formed (plastic self) ->
  check_availability self combo = true
  <-> forall k, In k combo ->
        Z.of_nat (count_occ num_eq_dec combo k)
        <= Z.max 0 (get (metal self) k + get (plastic self) k).
Proof.
  intros Hm Hp. unfold check_availability. cbv zeta.
  rewrite forallb_forall. split; intros H k Hk.
  - apply (proj2 (keys_Counter_of combo k)) in Hk. specialize (H k Hk).
    apply negb_true_iff, Z.ltb_ge in H.
    rewrite get_counter_add, get_Counter_of in H by assumption. exact H.
  - apply (proj1 (keys_Counter_of combo k)) in Hk. specialize (H k Hk).
    apply negb_true_iff, Z.ltb_ge.
    rewrite get_counter_add, get_Counter_of by assumption. exact H.
Qed.

(** X3.  For counters without a repeated key, a combo that
    [check_availability] accepts is one [use_spacers] reserves without
    raising; when no count is negative the two agree exactly. *)
Theorem check_availability_use_spacers (self : SpacerInventory)
  (combo : list R) :
  well_formed (metal self) -> well_formed (plastic self) ->
  (check_availability self combo = true ->
   snd (use_spacers self combo) = Reserved)
  /\ ((forall k, 0 <= get (metal self) k /\ 0 <= get (plastic self) k) ->
      snd (use_spacers self combo) = Reserved ->
      check_availability self combo = true).
Proof.
  intros Hm Hp. unfold use_spacers. cbv zeta.
  rewrite use_spacers_loop_succeeds.
  rewrite check_availability_spec by assumption. split.
  - intros H k. unfold available.
    destruct (in_dec num_eq_dec k combo) as [Hin|Hout].
    + specialize (H k Hin). lia.
    + rewrite (count_occ_not_In num_eq_dec) in Hout. rewrite Hout. lia.
  - intros Hpos H k _. specialize (H k). specialize (Hpos k).
    unfold available in H. lia.
Qed.

Lemma reservable_when_found (self : Toggles) (inv : SpacerInventory)
  (target tol_plus tol_minus : R) (prefer_metal : bool) (max_stack : nat)
  (combo : list R) (is_metal : bool) :
  well_formed (metal inv) -> well_formed (plastic inv) ->
  find_spacer_combo self target tol_plus tol_minus (metal inv) (plastic inv)
    prefer_metal max_stack = Some (combo, is_metal) ->
  snd (use_spacers_loop inv combo) = Reserved.
Proof.
  intros Hm Hp H. apply found_is_accepted in H.
  destruct H as (Hcount & _).
  apply use_spacers_loop_succeeds. intros k. unfold available.
  destruct (in_dec num_eq_dec k combo) as [Hin|Hout].
  - specialize (Hcount k Hin). destruct is_metal; simpl in Hcount.
    + lia.
    + rewrite get_counter_add in Hcount by assumption. lia.
  - rewrite (count_occ_not_In num_eq_dec) in Hout. rewrite Hout. lia.
Qed.

(** X5.  A combo that [find_spacer_combo] returns for the two counters of
    a ledger (no repeated key) can always be reserved: [use_spacers] on
    that ledger does not raise. *)
Theorem found_combo_is_reservable (self : Toggles) (inv : SpacerInventory)
  (target tol_plus tol_minus : R) (prefer_metal : bool) (max_stack : nat)
  (combo : list R) (is_metal : bool) :
  well_formed (metal inv) -> well_formed (plastic inv) ->
  find_spacer_combo self target tol_plus tol_minus (metal inv) (plastic inv)
    prefer_metal max_stack = Some (combo, is_metal) ->
  snd (use_spacers inv combo) = Reserved.
Proof.
  unfold use_spacers. cbv zeta. apply reservable_when_found.
Qed.

(** X4.  [find_spacer_combo] returns nothing only when nothing fits: with
    metal preferred no stack of 1 to [max_stack] metal sizes is accepted
    against the metal counter, and no stack of 1 to [max_stack] sizes of
    the merged pool is accepted against the merged counter; and whenever
    that is so it returns nothing. *)
Theorem find_spacer_combo_none_iff (self : Toggles)
  (target tol_plus tol_minus : R) (metal_inv plastic_inv : Counter)
  (prefer_metal : bool) (max_stack : nat) :
  find_spacer_combo self target tol_plus tol_minus metal_inv plastic_inv
    prefer_metal max_stack = None
  <-> (prefer_metal = true ->
       forall c, drawn_from (positive_keys metal_inv) c ->
         (1 <= length c <= max_stack)%nat ->
         accepted target tol_plus tol_minus metal_inv c = false)
      /\ (forall c,
            drawn_from (positive_keys (counter_add metal_inv plastic_inv)) c ->
            (1 <= length c <= max_stack)%nat ->
            accepted target tol_plus tol_minus
              (counter_add metal_inv plastic_inv) c = false).
Proof.
  assert (Hnone : forall inv pool,
            search target tol_plus tol_minus inv pool (seq 1 max_stack) = None
            <-> forall c, drawn_from pool c ->
                  (1 <= length c <= max_stack)%nat ->
                  accepted target tol_plus tol_minus inv c = false).
  { intros inv pool. split.
    - intros H c Hc Hlen.
      assert (Hr := search_seq_None _ _ _ _ _ _ _ H (length c) ltac:(lia)).
      rewrite first_accepted_None in Hr. apply Hr, drawn_combinations, Hc.
    - intros H.
      destruct (search target tol_plus tol_minus inv pool (seq 1 max_stack))
        as [c|] eqn:E; [|reflexivity].
      apply search_seq_Some in E. destruct E as (r & Hr & Hc & _).
      apply first_accepted_Some in Hc.
      destruct Hc as (before & after & Hsplit & Hacc & _).
      assert (Hin : In c (combinations_with_replacement pool r))
        by (rewrite Hsplit; apply in_elt).
      apply combinations_spec in Hin. destruct Hin as [Hd Hlen].
      rewrite H in Hacc by (auto; lia). discriminate. }
  unfold find_spacer_combo. cbv zeta. destruct prefer_metal.
  - destruct (search target tol_plus tol_minus metal_inv _ _) as [c|] eqn:E1.
    + split; [discriminate|]. intros [H _].
      apply Hnone in H; [congruence | reflexivity].
    + destruct (search target tol_plus tol_minus (counter_add _ _) _ _)
        as [c|] eqn:E2.
      * split; [discriminate|]. intros [_ H]. apply Hnone in H. congruence.
      * split; [|reflexivity]. intros _. split.
        -- intros _. apply Hnone, E1.
        -- apply Hnone, E2.
  - destruct (search target tol_plus tol_minus (counter_add _ _) _ _)
      as [c|] eqn:E2.
    + split; [discriminate|]. intros [_ H]. apply Hnone in H. congruence.
    + split; [|reflexivity]. intros _. split; [discriminate|].
      apply Hnone, E2.
Qed.

End LedgerMore.

(** * More of the pipeline: what a run does to the working counters *)

Section PipelineMore.

Context {R : Type} {NR : Number R}.
Local Open Scope num_scope.

Ltac case_keys :=
  repeat match goal with
         | |- context [num_eq_dec ?a ?b] =>
             destruct (num_eq_dec a b); subst; try congruence
         | H : context [num_eq_dec ?a ?b] |- _ =>
             destruct (num_eq_dec a b); subst; try congruence
         end.

Lemma same_but_heap_refl (st : @App R) : same_but_heap st st.
Proof. unfold same_but_heap. repeat split. Qed.

Lemma same_but_heap_trans (st1 st2 st3 : @App R) :
  same_but_heap st1 st2 -> same_but_heap st2 st3 -> same_but_heap st1 st3.
Proof.
  unfold same_but_heap.
  intros (A1 & A2 & A3 & A4 & A5 & A6 & A7) (B1 & B2 & B3 & B4 & B5 & B6 & B7).
  repeat split; congruence.
Qed.

Lemma positive_get_contains (c : Counter) (k : R) :
  0 < get c k -> contains c k = true.
Proof.
  intros H. destruct (contains c k) eqn:E; [reflexivity|].
  apply contains_false_get in E. lia.
Qed.

(** [counter[sz] -= 1] on the counter at [l]. *)
Lemma decrement_spec (l : loc) (sz : R) (c : Counter) (st : @App R) :
  nth_error (heap st) l = Some c ->
  decrement l sz st
  = (Ok tt, set_heap (replace_nth (heap st) l (set c sz (get c sz - 1))) st).
Proof.
  intros H. unfold decrement, bind, read, write. rewrite H, H. reflexivity.
Qed.

Lemma working_decrement_metal (jm jp : loc) (m p : Counter) (sz : R)
  (st : @App R) :
  jm <> jp -> working jm jp m p st ->
  working jm jp (set m sz (get m sz - 1)) p
    (set_heap (replace_nth (heap st) jm (set m sz (get m sz - 1))) st).
Proof.
  intros Hne [Hm Hp]. split; simpl.
  - apply replace_nth_same, nth_error_Some. congruence.
  - rewrite replace_nth_other by congruence. exact Hp.
Qed.

Lemma working_decrement_plastic (jm jp : loc) (m p : Counter) (sz : R)
  (st : @App R) :
  jm <> jp -> working jm jp m p st ->
  working jm jp m (set p sz (get p sz - 1))
    (set_heap (replace_nth (heap st) jp (set p sz (get p sz - 1))) st).
Proof.
  intros Hne [Hm Hp]. split; simpl.
  - rewrite replace_nth_other by congruence. exact Hm.
  - apply replace_nth_same, nth_error_Some. congruence.
Qed.

Lemma take_cut_as_use_spacers (job_metal job_plastic : loc) (combo : list R)
  (m p : Counter) (self' : SpacerInventory) (st : @App R) :
  job_metal <> job_plastic ->
  working job_metal job_plastic m p st ->
  use_spacers_loop {| metal := m; plastic := p |} combo
  = (self', Reserved) ->
  exists st',
    take_cut job_metal job_plastic combo st = (Ok tt, st')
    /\ working job_metal job_plastic (metal self') (plastic self') st'
    /\ same_but_heap st st'.
Proof.
  intros Hne. revert m p st.
  induction combo as [|sz rest IH]; intros m p st Hw; simpl.
  - intros [= <-]. exists st. simpl.
    repeat split; try apply Hw.
  - destruct Hw as [Hm Hp].
    unfold bind at 1. unfold read at 1. rewrite Hm.
    destruct (0 <? get m sz) eqn:Gm.
    + apply Z.ltb_lt in Gm. rewrite (positive_get_contains m sz Gm). simpl.
      intros Hl. unfold bind at 1.
      rewrite (decrement_spec job_metal sz m st Hm).
      destruct (IH _ _ _ (working_decrement_metal job_metal job_plastic
                            m p sz st Hne (conj Hm Hp)) Hl)
        as (st' & Hrun & Hw' & Hsame).
      exists st'. repeat split; try apply Hw'; try exact Hrun; apply Hsame.
    + rewrite andb_false_r. unfold bind at 1. unfold bind at 1.
      unfold read at 1. rewrite Hp.
      destruct (0 <? get p sz) eqn:Gp; [|discriminate].
      apply Z.ltb_lt in Gp. rewrite (positive_get_contains p sz Gp). simpl.
      intros Hl. rewrite (decrement_spec job_plastic sz p st Hp).
      destruct (IH _ _ _ (working_decrement_plastic job_metal job_plastic
                            m p sz st Hne (conj Hm Hp)) Hl)
        as (st' & Hrun & Hw' & Hsame).
      exists st'. repeat split; try apply Hw'; try exact Hrun; apply Hsame.
Qed.


Lemma contains_same_keys (c c' : Counter) (k : R) :
  keys c' = keys c -> contains c' k = contains c k.
Proof.
  intros H. destruct (contains c k) eqn:E.
  - apply contains_In. rewrite H. apply contains_In, E.
  - destruct (contains c' k) eqn:E'; [|reflexivity].
    apply contains_In in E'. rewrite H in E'. apply contains_In in E'.
    congruence.
Qed.

Lemma keys_decrement (c : Counter) (sz : R) :
  contains c sz = true -> keys (set c sz (get c sz - 1)) = keys c.
Proof. intros H. apply keys_set_present, contains_In, H. Qed.

Lemma take_shoulder_spec (job_metal job_plastic : loc) (combo : list R)
  (m p : Counter) (st : @App R) :
  job_metal <> job_plastic ->
  working job_metal job_plastic m p st ->
  exists st' m' p',
    take_shoulder job_metal job_plastic combo st = (Ok tt, st')
    /\ working job_metal job_plastic m' p' st'
    /\ same_but_heap st st'
    /\ keys m' = keys m /\ keys p' = keys p
    /\ forall k,
         let n := Z.of_nat (count_occ num_eq_dec combo k) in
         get m' k = get m k - (if contains m k then n else 0)
         /\ get p' k
            = get p k
              - (if contains m k then 0 else if contains p k then n else 0).
Proof.
  intros Hne. revert m p st.
  induction combo as [|sz rest IH]; intros m p st Hw; simpl.
  - exists st, m, p. repeat split; try apply Hw.
    + destruct (contains m k); lia.
    + destruct (contains m k); [lia | destruct (contains p k); lia].
  - destruct Hw as [Hm Hp].
    unfold bind at 1. unfold read at 1. rewrite Hm.
    destruct (contains m sz) eqn:Cm.
    + unfold bind at 1. rewrite (decrement_spec job_metal sz m st Hm).
      destruct (IH _ _ _ (working_decrement_metal job_metal job_plastic
                            m p sz st Hne (conj Hm Hp)))
        as (st' & m' & p' & Hrun & Hw' & Hsame & Hkm & Hkp & Hget).
      exists st', m', p'. rewrite Hkm, (keys_decrement m sz Cm).
      repeat split; try apply Hw'; try exact Hrun; try apply Hsame;
        try exact Hkp; specialize (Hget k); cbv zeta in Hget;
        rewrite (contains_same_keys m _ k (keys_decrement m sz Cm)) in Hget;
        rewrite get_set in Hget; destruct Hget as [G1 G2];
        destruct (contains m k) eqn:Ck; case_keys; lia.
    + unfold bind at 1. unfold bind at 1. unfold read at 1. rewrite Hp.
      destruct (contains p sz) eqn:Cp.
      * rewrite (decrement_spec job_plastic sz p st Hp).
        destruct (IH _ _ _ (working_decrement_plastic job_metal job_plastic
                              m p sz st Hne (conj Hm Hp)))
          as (st' & m' & p' & Hrun & Hw' & Hsame & Hkm & Hkp & Hget).
        exists st', m', p'. rewrite Hkp, (keys_decrement p sz Cp).
        repeat split; try apply Hw'; try exact Hrun; try apply Hsame;
          try exact Hkm; specialize (Hget k); cbv zeta in Hget;
          rewrite (contains_same_keys p _ k (keys_decrement p sz Cp)) in Hget;
          rewrite get_set in Hget; destruct Hget as [G1 G2];
          destruct (contains m k) eqn:Ck; destruct (contains p k) eqn:Ck';
          case_keys; lia.
      * simpl.
        destruct (IH _ _ _ (conj Hm Hp))
          as (st' & m' & p' & Hrun & Hw' & Hsame & Hkm & Hkp & Hget).
        exists st', m', p'.
        repeat split; try apply Hw'; try exact Hrun; try apply Hsame;
          try exact Hkm; try exact Hkp; specialize (Hget k);
          cbv zeta in Hget; destruct Hget as [G1 G2];
          destruct (contains m k) eqn:Ck; destruct (contains p k) eqn:Ck';
          case_keys; lia.
Qed.


Lemma use_spacers_loop_well_formed (combo : list R)
  (self self' : SpacerInventory) (r : reserved) :
  use_spacers_loop self combo = (self', r) ->
  well_formed (metal self) -> well_formed (plastic self) ->
  well_formed (metal self') /\ well_formed (plastic self').
Proof.
  revert self. induction combo as [|sz rest IH]; intros self; simpl.
  - intros [= <- _]. auto.
  - destruct (0 <? get (metal self) sz).
    + intros H Hm Hp.
      apply (IH _ H); simpl; [apply well_formed_set, Hm | exact Hp].
    + destruct (0 <? get (plastic self) sz).
      * intros H Hm Hp.
        apply (IH _ H); simpl; [exact Hm | apply well_formed_set, Hp].
      * intros [= <- _]. auto.
Qed.

Lemma well_formed_same_keys (c c' : @Counter R) :
  keys c' = keys c -> well_formed c -> well_formed c'.
Proof. unfold well_formed. intros ->. auto. Qed.

(** What acceptance says about a returned combo, size by size. *)
Lemma found_bounds (self : Toggles) (target tp tm : R) (m p : Counter)
  (prefer_metal : bool) (max_stack : nat) (combo : list R) (flag : bool) :
  well_formed m -> well_formed p ->
  find_spacer_combo self target tp tm m p prefer_metal max_stack
  = Some (combo, flag) ->
  forall k,
    let n := Z.of_nat (count_occ num_eq_dec combo k) in
    n = 0
    \/ (0 < n
        /\ n <= (if flag then get m k else Z.max 0 (get m k + get p k))).
Proof.
  intros Hm Hp H k. cbv zeta.
  apply found_is_accepted in H. destruct H as (Hcount & _).
  destruct (in_dec num_eq_dec k combo) as [Hin|Hout].
  - right. split.
    + apply (count_occ_In num_eq_dec) in Hin. lia.
    + specialize (Hcount k Hin). destruct flag; [exact Hcount|].
      simpl in Hcount.
      rewrite get_counter_add in Hcount by assumption. exact Hcount.
  - left. rewrite (count_occ_not_In num_eq_dec) in Hout. lia.
Qed.

Lemma find_in_job_working (target tp tm : R) (jm jp : loc) (m p : Counter)
  (st : @App R) :
  working jm jp m p st ->
  find_in_job target tp tm jm jp st
  = (Ok (find_spacer_combo (toggles st) target tp tm m p true 8), st).
Proof.
  intros [Hm Hp]. unfold find_in_job, bind, read. rewrite Hm, Hp. reflexivity.
Qed.

Lemma working_functional (jm jp : loc) (m p m' p' : Counter) (st : @App R) :
  working jm jp m p st -> working jm jp m' p' st -> m' = m /\ p' = p.
Proof. intros [Hm Hp] [Hm' Hp']. split; congruence. Qed.

Lemma get_update (u : Counter) (combo : list R) (k : R) :
  get (update u combo) k
  = get u k + Z.of_nat (count_occ num_eq_dec combo k).
Proof. unfold update. apply get_tally. Qed.

(** A found combo, taken by the cut loop and added to the tally, keeps
    the books in balance. *)
Lemma commit_cut (jm jp : loc) (total : R -> Z) (no_debt : Prop)
  (target tp tm : R) (st : @App R) :
  jm <> jp -> in_balance jm jp total no_debt st ->
  exists found,
    find_in_job target tp tm jm jp st = (Ok found, st)
    /\ forall combo, found_combo found = Some combo ->
         exists st2,
           take_cut jm jp combo st = (Ok tt, st2)
           /\ same_but_heap st st2
           /\ in_balance jm jp total no_debt
                (set_used_spacers (update (used_spacers st2) combo) st2).
Proof.
  intros Hne (m & p & Hw & Hwm & Hwp & Hsum & Hdebt).
  eexists. split; [apply (find_in_job_working _ _ _ _ _ m p st Hw)|].
  intros combo Hfound. apply found_combo_Some in Hfound.
  destruct Hfound as [flag Hfound].
  assert (Hres : snd (use_spacers_loop {| metal := m; plastic := p |} combo)
                 = Reserved).
  { apply (reservable_when_found (toggles st)
             {| metal := m; plastic := p |} target tp tm true 8 combo flag);
      assumption. }
  destruct (use_spacers_loop {| metal := m; plastic := p |} combo)
    as [self' r] eqn:Euse. simpl in Hres. subst r.
  destruct (take_cut_as_use_spacers jm jp combo m p self' st Hne Hw Euse)
    as (st2 & Hrun & Hw2 & Hsame).
  exists st2. split; [exact Hrun|]. split; [exact Hsame|].
  destruct (use_spacers_loop_well_formed _ _ _ _ Euse Hwm Hwp) as [Hwm' Hwp'].
  pose proof (use_spacers_loop_Reserved _ _ _ Euse) as Htaken.
  exists (metal self'), (plastic self').
  split; [exact Hw2|]. split; [exact Hwm'|]. split; [exact Hwp'|].
  destruct Hsame as (_ & _ & _ & Hused & _).
  split.
  - intros k. simpl. rewrite get_update, Hused.
    destruct (Htaken k) as (Heq & _). simpl in Heq.
    specialize (Hsum k). lia.
  - intros Hnd k. specialize (Hdebt Hnd k).
    destruct (Htaken k) as (Heq & _ & _ & _ & Hpl). simpl in Heq, Hpl.
    pose proof (found_bounds _ _ _ _ _ _ _ _ _ _ Hwm Hwp Hfound k) as Hb.
    cbv zeta in Hb. destruct flag; lia.
Qed.

(** The same for the shoulder combo and the shoulder loop. *)
Lemma commit_shoulder (jm jp : loc) (total : R -> Z) (no_debt : Prop)
  (target tp tm : R) (st : @App R) :
  jm <> jp -> in_balance jm jp total no_debt st ->
  exists found,
    find_in_job target tp tm jm jp st = (Ok found, st)
    /\ forall combo, found_combo found = Some combo ->
         exists st2,
           take_shoulder jm jp combo st = (Ok tt, st2)
           /\ same_but_heap st st2
           /\ in_balance jm jp total no_debt
                (set_used_spacers (update (used_spacers st2) combo) st2).
Proof.
  intros Hne (m & p & Hw & Hwm & Hwp & Hsum & Hdebt).
  eexists. split; [apply (find_in_job_working _ _ _ _ _ m p st Hw)|].
  intros combo Hfound. apply found_combo_Some in Hfound.
  destruct Hfound as [flag Hfound].
  destruct (take_shoulder_spec jm jp combo m p st Hne Hw)
    as (st2 & m' & p' & Hrun & Hw2 & Hsame & Hkm & Hkp & Hget).
  exists st2. split; [exact Hrun|]. split; [exact Hsame|].
  exists m', p'.
  split; [exact Hw2|].
  split; [apply (well_formed_same_keys m m' Hkm Hwm)|].
  split; [apply (well_formed_same_keys p p' Hkp Hwp)|].
  destruct Hsame as (_ & _ & _ & Hused & _).
  assert (Hall : forall k,
            get m' k + get p' k
            = get m k + get p k - Z.of_nat (count_occ num_eq_dec combo k)
            /\ (no_debt -> 0 <= get p' k /\ 0 <= get m' k + get p' k)).
  { intros k. specialize (Hget k). cbv zeta in Hget.
    destruct Hget as [G1 G2].
    pose proof (found_bounds _ _ _ _ _ _ _ _ _ _ Hwm Hwp Hfound k) as Hb.
    cbv zeta in Hb.
    destruct (contains m k) eqn:Cm.
    - split; [lia|]. intros Hnd. specialize (Hdebt Hnd k).
      destruct flag; lia.
    - pose proof (contains_false_get m k Cm) as Hm0.
      destruct (contains p k) eqn:Cp.
      + split; [lia|]. intros Hnd. specialize (Hdebt Hnd k).
        destruct flag; lia.
      + pose proof (contains_false_get p k Cp) as Hp0.
        split; [destruct flag; lia|]. intros Hnd. specialize (Hdebt Hnd k).
        destruct flag; lia. }
  split.
  - intros k. simpl. rewrite get_update, Hused.
    destruct (Hall k) as [Heq _]. specialize (Hsum k). lia.
  - intros Hnd k. apply (Hall k), Hnd.
Qed.

Lemma count_spacers_in_app (l1 l2 : list (@line R)) (k : R) :
  count_occ num_eq_dec (spacers_in (l1 ++ l2)) k
  = (count_occ num_eq_dec (spacers_in l1) k
     + count_occ num_eq_dec (spacers_in l2) k)%nat.
Proof. unfold spacers_in. rewrite flat_map_app. apply count_occ_app. Qed.

Lemma tallied_after_pair (st st' : @App R) (top bottom : line)
  (c1 c2 : list R) :
  tallied st ->
  used_spacers st' = update (update (used_spacers st) c1) c2 ->
  top_lines st' = top_lines st ++ [top] ->
  bottom_lines st' = bottom_lines st ++ [bottom] ->
  (line_combo top = c1 /\ line_combo bottom = c2
   \/ line_combo top = c2 /\ line_combo bottom = c1) ->
  tallied st'.
Proof.
  intros Ht Hu Htop Hbot Hlines k. specialize (Ht k).
  rewrite Hu, Htop, Hbot, !get_update, Ht.
  rewrite !count_spacers_in_app. unfold spacers_in. simpl.
  rewrite !app_nil_r.
  destruct Hlines as [[-> ->]|[-> ->]]; lia.
Qed.

(** One cut keeps the books in balance, however it ends. *)
Lemma process_cut_in_balance (jm jp : loc) (total : R -> Z) (no_debt : Prop)
  (tp tm kf km clearance off : R) (i : nat) (cut : R) (st : @App R) :
  jm <> jp -> in_balance jm jp total no_debt st ->
  in_balance jm jp total no_debt
    (snd (process_cut tp tm kf km clearance off jm jp i cut st)).
Proof.
  intros Hne Hbal. unfold process_cut. cbv zeta. unfold bind at 1.
  destruct (commit_cut jm jp total no_debt cut tp tm st Hne Hbal)
    as (found & Hfind & Hcommit).
  rewrite Hfind.
  destruct (found_combo found) as [female_combo|]; [|exact Hbal].
  destruct (Hcommit female_combo eq_refl) as (st2 & Hrun & _ & Hbal2).
  unfold bind at 1. rewrite Hrun.
  unfold bind at 1. unfold update_used at 1, modify at 1.
  set (st3 := set_used_spacers (update (used_spacers st2) female_combo) st2)
    in *.
  set (male_target := sum female_combo +^ off
                      -^ (kf +^ km +^ of_int 2 *^ clearance)).
  unfold bind at 1.
  destruct (commit_cut jm jp total no_debt male_target (lit 1 3) (lit 1 3)
              st3 Hne Hbal2) as (found' & Hfind' & Hcommit').
  rewrite Hfind'.
  destruct (found_combo found') as [male_combo|]; [|exact Hbal2].
  destruct (Hcommit' male_combo eq_refl) as (st4 & Hrun' & _ & Hbal4).
  unfold bind at 1. rewrite Hrun'.
  unfold bind at 1. unfold update_used at 1, modify at 1.
  destruct (Nat.eqb (i mod 2) 1); exact Hbal4.
Qed.

Lemma process_cuts_in_balance (jm jp : loc) (total : R -> Z) (no_debt : Prop)
  (tp tm kf km clearance off : R) (cuts : list R) (i : nat) (st : @App R) :
  jm <> jp -> in_balance jm jp total no_debt st ->
  in_balance jm jp total no_debt
    (snd (process_cuts tp tm kf km clearance off jm jp i cuts st)).
Proof.
  intros Hne. revert i st. induction cuts as [|cut rest IH]; intros i st Hbal.
  - exact Hbal.
  - simpl process_cuts. unfold bind.
    pose proof (process_cut_in_balance jm jp total no_debt tp tm kf km
                  clearance off i cut st Hne Hbal) as Hc.
    destruct (process_cut tp tm kf km clearance off jm jp i cut st)
      as [[[]|e] st1]; [|exact Hc].
    apply IH, Hc.
Qed.

Lemma copy_spec (l : loc) (c : Counter) (st : @App R) :
  nth_error (heap st) l = Some c ->
  copy l st = (Ok (length (heap st)), set_heap (heap st ++ [c]) st).
Proof. intros H. unfold copy, bind, read. rewrite H. reflexivity. Qed.

(** The books of a whole run: the working copies start as the inventory,
    and every stage keeps them in balance. *)
Lemma calculate_spacers_try_in_balance (job : Job) (st : @App R)
  (inv : SpacerInventory) :
  inventory_of st = Some inv ->
  well_formed (metal inv) -> well_formed (plastic inv) ->
  in_balance (length (heap st)) (S (length (heap st)))
    (fun k => get (metal inv) k + get (plastic inv) k)
    (forall k, 0 <= get (metal inv) k /\ 0 <= get (plastic inv) k)
    (snd (calculate_spacers_try (Some job) st)).
Proof.
  intros Hinv Hwm Hwp. unfold inventory_of in Hinv.
  destruct (nth_error (heap st) (inventory_metal st)) as [m0|] eqn:Em;
    [|discriminate].
  destruct (nth_error (heap st) (inventory_plastic st)) as [p0|] eqn:Ep;
    [|discriminate].
  injection Hinv as <-. simpl in Hwm, Hwp |- *.
  unfold calculate_spacers_try.
  unfold bind at 1. unfold modify at 1. cbv zeta.
  set (st1 := set_used_spacers [] (set_lines [] [] st)).
  unfold bind at 1. unfold bind at 1.
  rewrite (copy_spec (inventory_metal st1) m0 st1 Em).
  set (st2 := set_heap (heap st1 ++ [m0]) st1).
  unfold bind at 1.
  assert (Ep2 : nth_error (heap st2) (inventory_plastic st1) = Some p0).
  { simpl. rewrite nth_error_app1; [exact Ep|].
    apply nth_error_Some. congruence. }
  rewrite (copy_spec (inventory_plastic st1) p0 st2 Ep2).
  set (st3 := set_heap (heap st2 ++ [p0]) st2).
  set (jm := length (heap st1)). set (jp := length (heap st2)).
  assert (Hjp : jp = S jm).
  { unfold jp, jm. simpl. rewrite length_app. simpl. lia. }
  change (length (heap st)) with jm. rewrite <- Hjp.
  assert (Hne : jm <> jp) by lia.
  assert (Hbal : in_balance jm jp
                   (fun k => get m0 k + get p0 k)
                   (forall k, 0 <= get m0 k /\ 0 <= get p0 k) st3).
  { exists m0, p0. unfold working, jm, jp. simpl. split; [split|].
    - rewrite nth_error_app1 by (rewrite length_app; simpl; lia).
      rewrite nth_error_app2 by lia. rewrite Nat.sub_diag. reflexivity.
    - rewrite nth_error_app2 by lia. rewrite Nat.sub_diag. reflexivity.
    - split; [exact Hwm|]. split; [exact Hwp|]. split.
      + intros k. lia.
      + intros Hnd k. destruct (Hnd k). lia. }
  unfold bind at 1.
  destruct (commit_shoulder jm jp _ _
              (clearance_of job +^ knife_female job) (lit 1 3) (lit 1 3)
              st3 Hne Hbal) as (found & Hfind & Hcommit).
  rewrite Hfind.
  destruct (found_combo found) as [s_combo|]; [|exact Hbal].
  destruct (Hcommit s_combo eq_refl) as (st4 & Hrun & _ & Hbal4).
  unfold bind at 1. rewrite Hrun.
  unfold bind at 1. unfold update_used at 1, modify at 1.
  unfold bind at 1. unfold append_lines at 1, modify at 1.
  unfold bind at 1.
  set (st6 := set_lines _ _ _).
  pose proof (process_cuts_in_balance jm jp _ _
                (tol_plus job) (tol_minus job) (knife_female job)
                (knife_male job) (clearance_of job) (deflect_offset_of job)
                (expand_cuts (cut_entries job)) 1 st6 Hne Hbal4) as Hp.
  destruct (process_cuts _ _ _ _ _ _ jm jp 1 _ st6) as [[[]|e] st7];
    exact Hp.
Qed.

(** X8.  The books of a run balance.  From an inventory whose counters
    have no repeated key, at the end of any run that got the form parsed,
    complete or stopped by an error, for every size the two working copies
    together hold what the inventory held minus what the usage tally
    counts. *)
Theorem run_conserves_spacers (job : Job) (st : @App R)
  (inv : SpacerInventory) :
  inventory_of st = Some inv ->
  well_formed (metal inv) -> well_formed (plastic inv) ->
  let st' := snd (calculate_spacers (Some job) st) in
  let job_metal := length (heap st) in
  exists m p,
    working job_metal (S job_metal) m p st'
    /\ forall k,
         get m k + get p k
         = get (metal inv) k + get (plastic inv) k
           - get (used_spacers st') k.
Proof.
  intros Hinv Hwm Hwp. cbv zeta.
  pose proof (calculate_spacers_try_in_balance job st inv Hinv Hwm Hwp) as H.
  unfold calculate_spacers.
  destruct (calculate_spacers_try (Some job) st) as [[[]|e] st']; simpl in *;
    destruct H as (m & p & Hw & _ & _ & Hsum & _);
    exists m, p; (split; [exact Hw|]); intros k; specialize (Hsum k); lia.
Qed.

(** X9.  A run never uses more than there is.  From an inventory without
    repeated keys and without negative counts, the usage tally of any run
    counts, for every size, at most what the metal and plastic inventory
    held together; the plastic working count and the two working counts
    together never end below zero. *)
Theorem run_never_overdraws (job : Job) (st : @App R)
  (inv : SpacerInventory) :
  inventory_of st = Some inv ->
  well_formed (metal inv) -> well_formed (plastic inv) ->
  (forall k, 0 <= get (metal inv) k /\ 0 <= get (plastic inv) k) ->
  let st' := snd (calculate_spacers (Some job) st) in
  let job_metal := length (heap st) in
  (forall k,
     get (used_spacers st') k <= get (metal inv) k + get (plastic inv) k)
  /\ exists m p,
       working job_metal (S job_metal) m p st'
       /\ forall k, 0 <= get p k /\ 0 <= get m k + get p k.
Proof.
  intros Hinv Hwm Hwp Hpos. cbv zeta.
  pose proof (calculate_spacers_try_in_balance job st inv Hinv Hwm Hwp) as H.
  unfold calculate_spacers.
  destruct (calculate_spacers_try (Some job) st) as [[[]|e] st']; simpl in *;
    destruct H as (m & p & Hw & _ & _ & Hsum & Hdebt);
    specialize (Hdebt Hpos);
    (split; [intros k; specialize (Hsum k); specialize (Hdebt k); lia|]);
    exists m, p; (split; [exact Hw | exact Hdebt]).
Qed.

Lemma take_cut_same_but_heap (jm jp : loc) (combo : list R) (st0 : @App R) :
  keeps (same_but_heap st0) (take_cut jm jp combo) (fun _ => True).
Proof.
  apply keeps_take_cut with (ok_loc := fun _ => True); auto.
Qed.

Lemma take_shoulder_same_but_heap (jm jp : loc) (combo : list R)
  (st0 : @App R) :
  keeps (same_but_heap st0) (take_shoulder jm jp combo) (fun _ => True).
Proof.
  apply keeps_take_shoulder with (ok_loc := fun _ => True); auto.
Qed.

Lemma copy_same_but_heap (l : loc) (st0 : @App R) :
  keeps (same_but_heap st0) (copy l) (fun _ => True).
Proof.
  apply keeps_copy with (ok_loc := fun _ => True); auto.
Qed.

(** One cut leaves the settings alone; when it completes, the tally has
    grown by the two combos of the two lines it has added. *)
Lemma process_cut_effect (tp tm kf km clearance off : R) (jm jp : loc)
  (i : nat) (cut : R) (st : @App R) :
  match process_cut tp tm kf km clearance off jm jp i cut st with
  | (Ok _, st') => settings st' = settings st /\ (tallied st -> tallied st')
  | (Raise _, st') => settings st' = settings st
  end.
Proof.
  unfold process_cut. cbv zeta. unfold bind at 1.
  pose proof (find_in_job_spec cut tp tm jm jp st) as Hf.
  destruct (find_in_job cut tp tm jm jp st) as [[found|e] st1].
  2:{ subst st1. reflexivity. }
  destruct Hf as [-> _].
  destruct (found_combo found) as [female_combo|]; [|reflexivity].
  unfold bind at 1.
  pose proof (take_cut_same_but_heap jm jp female_combo st st
                (same_but_heap_refl st)) as Ht.
  destruct (take_cut jm jp female_combo st) as [[[]|e] st2].
  2:{ apply Ht. }
  destruct Ht as [(S1 & S2 & S3 & S4 & S5 & S6 & S7) _].
  unfold bind at 1. unfold update_used at 1, modify at 1.
  unfold bind at 1.
  set (st3 := set_used_spacers (update (used_spacers st2) female_combo) st2).
  set (male_target := sum female_combo +^ off
                      -^ (kf +^ km +^ of_int 2 *^ clearance)).
  pose proof (find_in_job_spec male_target (lit 1 3) (lit 1 3) jm jp st3)
    as Hf'.
  destruct (find_in_job male_target (lit 1 3) (lit 1 3) jm jp st3)
    as [[found'|e] st4].
  2:{ subst st4. exact S7. }
  destruct Hf' as [-> _].
  destruct (found_combo found') as [male_combo|]; [|exact S7].
  unfold bind at 1.
  pose proof (take_cut_same_but_heap jm jp male_combo st3 st3
                (same_but_heap_refl st3)) as Ht'.
  destruct (take_cut jm jp male_combo st3) as [[[]|e] st5].
  2:{ destruct Ht' as (_ & _ & _ & _ & _ & _ & T7). simpl in T7. congruence. }
  destruct Ht' as [(T1 & T2 & T3 & T4 & T5 & T6 & T7) _].
  unfold st3 in T4, T5, T6, T7. simpl in T4, T5, T6, T7.
  unfold bind at 1. unfold update_used at 1, modify at 1.
  assert (Hfinal : forall top bottom,
            (line_combo top = female_combo /\ line_combo bottom = male_combo
             \/ line_combo top = male_combo
                /\ line_combo bottom = female_combo) ->
            let st' :=
              set_lines (top_lines st5 ++ [top]) (bottom_lines st5 ++ [bottom])
                (set_used_spacers (update (used_spacers st5) male_combo) st5)
            in
            settings st' = settings st /\ (tallied st -> tallied st')).
  { intros top bottom Hlines. cbv zeta. split; [simpl; congruence|].
    intros Htal.
    apply (tallied_after_pair st _ top bottom female_combo male_combo Htal);
      simpl; try congruence; try exact Hlines. }
  destruct (Nat.eqb (i mod 2) 1); apply Hfinal; simpl; auto.
Qed.

Lemma process_cuts_effect (tp tm kf km clearance off : R) (jm jp : loc)
  (cuts : list R) (i : nat) (st : @App R) :
  match process_cuts tp tm kf km clearance off jm jp i cuts st with
  | (Ok _, st') => settings st' = settings st /\ (tallied st -> tallied st')
  | (Raise _, st') => settings st' = settings st
  end.
Proof.
  revert i st. induction cuts as [|cut rest IH]; intros i st.
  - simpl. auto.
  - simpl process_cuts. unfold bind.
    pose proof (process_cut_effect tp tm kf km clearance off jm jp i cut st)
      as Hc.
    destruct (process_cut tp tm kf km clearance off jm jp i cut st)
      as [[[]|e] st1]; [|exact Hc].
    destruct Hc as [Hs Ht]. specialize (IH (S i) st1).
    destruct (process_cuts tp tm kf km clearance off jm jp (S i) rest st1)
      as [[[]|e] st2].
    + destruct IH as [Hs' Ht']. split; [congruence | auto].
    + congruence.
Qed.

(** The settings a complete run stores. *)
Lemma calculate_spacers_try_effect (form : option Job) (st : @App R) :
  match calculate_spacers_try form st with
  | (Ok _, st') =>
      tallied st'
      /\ exists job,
           form = Some job
           /\ settings st'
              = Some {| s_thickness := thickness job;
                        s_clearance := clearance_pct job;
                        s_knife_female := knife_female job;
                        s_knife_male := knife_male job;
                        s_coil_width := coil_width job;
                        s_coil_weight := coil_weight job;
                        s_scrap :=
                          nround 3
                            (if truthy (coil_width job)
                             then coil_width job
                                  -^ total_cut_width (cut_entries job)
                             else of_int 0) |}
  | (Raise _, st') => settings st' = settings st
  end.
Proof.
  unfold calculate_spacers_try.
  unfold bind at 1. unfold modify at 1.
  set (st1 := set_used_spacers [] (set_lines [] [] st)).
  destruct form as [job|]; [|reflexivity]. cbv zeta.
  unfold bind at 1. unfold bind at 1.
  pose proof (copy_same_but_heap (inventory_metal st1) st1 st1
                (same_but_heap_refl st1)) as Hc1.
  destruct (copy (inventory_metal st1) st1) as [[job_metal|e] st2].
  2:{ apply Hc1. }
  destruct Hc1 as [H2 _].
  unfold bind at 1.
  pose proof (copy_same_but_heap (inventory_plastic st1) st1 st2 H2) as Hc2.
  destruct (copy (inventory_plastic st1) st2) as [[job_plastic|e] st3].
  2:{ apply Hc2. }
  destruct Hc2 as [H3 _].
  unfold bind at 1.
  pose proof (find_in_job_spec (clearance_of job +^ knife_female job)
                (lit 1 3) (lit 1 3) job_metal job_plastic st3) as Hf.
  destruct (find_in_job (clearance_of job +^ knife_female job)
              (lit 1 3) (lit 1 3) job_metal job_plastic st3)
    as [[found|e] st4].
  2:{ subst st4. apply H3. }
  destruct Hf as [-> _].
  destruct (found_combo found) as [s_combo|]; [|apply H3].
  unfold bind at 1.
  pose proof (take_shoulder_same_but_heap job_metal job_plastic s_combo st1
                st3 H3) as Ht.
  destruct (take_shoulder job_metal job_plastic s_combo st3)
    as [[[]|e] st5].
  2:{ apply Ht. }
  destruct Ht as [(S1 & S2 & S3 & S4 & S5 & S6 & S7) _].
  simpl in S4, S5, S6, S7.
  unfold bind at 1. unfold update_used at 1, modify at 1.
  unfold bind at 1. unfold append_lines at 1, modify at 1.
  unfold bind at 1.
  set (st6 := set_lines _ _ _).
  assert (Htal6 : tallied st6).
  { intros k. unfold st6. simpl. rewrite S4, S5, S6. simpl.
    rewrite get_update, app_nil_r. reflexivity. }
  pose proof (process_cuts_effect (tol_plus job) (tol_minus job)
                (knife_female job) (knife_male job) (clearance_of job)
                (deflect_offset_of job) job_metal job_plastic
                (expand_cuts (cut_entries job)) 1 st6) as Hp.
  destruct (process_cuts _ _ _ _ _ _ job_metal job_plastic 1 _ st6)
    as [[[]|e] st7].
  - destruct Hp as [_ Htal7]. simpl. split.
    + intros k. apply (Htal7 Htal6 k).
    + exists job. split; reflexivity.
  - rewrite Hp. unfold st6. simpl. exact S7.
Qed.

(** X10.  After a complete run the usage tally counts exactly the
    spacers the layout shows: for every size, its tally is the number of
    times it occurs in the combos of the top and bottom lines. *)
Theorem tally_matches_layout (form : option Job) (st : @App R) :
  fst (calculate_spacers form st) = Done ->
  tallied (snd (calculate_spacers form st)).
Proof.
  unfold calculate_spacers.
  pose proof (calculate_spacers_try_effect form st) as H.
  destruct (calculate_spacers_try form st) as [[[]|e] st']; simpl.
  - intros _. apply H.
  - discriminate.
Qed.

(** X11.  A run that stops with an error, at any stage, leaves the stored
    settings (the scrap figure among them) exactly as they were before the
    run; only a complete run stores new ones, with the scrap
    [round(coil_width - total_cut_width, 3)], or 0 when the coil width is
    0. *)
Theorem settings_change_only_when_done (form : option Job) (st : @App R) :
  match calculate_spacers form st with
  | (ShowError _, st') => settings st' = settings st
  | (Done, st') =>
      exists job,
        form = Some job
        /\ settings st'
           = Some {| s_thickness := thickness job;
                     s_clearance := clearance_pct job;
                     s_knife_female := knife_female job;
                     s_knife_male := knife_male job;
                     s_coil_width := coil_width job;
                     s_coil_weight := coil_weight job;
                     s_scrap :=
                       nround 3
                         (if truthy (coil_width job)
                          then coil_width job
                               -^ total_cut_width (cut_entries job)
                          else of_int 0) |}
  end.
Proof.
  unfold calculate_spacers.
  pose proof (calculate_spacers_try_effect form st) as H.
  destruct (calculate_spacers_try form st) as [[[]|e] st'];
    [apply H | exact H].
Qed.

End PipelineMore.

(** * The order of a returned combo *)

Section ComboOrder.

Context {R : Type} {NR : Number R}.
Local Open Scope num_scope.

(** For sizes ordered as numbers are: nothing is less than itself, [x < y]
    excludes [y < x], and "not less than" is transitive. *)
Hypothesis nltb_irrefl : forall x : R, (x <^ x) = false.
Hypothesis nltb_asym : forall x y : R, (x <^ y) = true -> (y <^ x) = false.
Hypothesis not_below_trans :
  forall x y z : R, not_below x y -> not_below y z -> not_below x z.

Lemma sorted_reverse_strongly_sorted (l : list R) :
  StronglySorted not_below (sorted_reverse l).
Proof.
  apply Sorted_StronglySorted.
  - intros x y z. apply not_below_trans.
  - apply sorted_reverse_sorted, nltb_asym.
Qed.

Lemma drawn_from_sorted (pool c : list R) :
  drawn_from pool c ->
  StronglySorted not_below pool -> StronglySorted not_below c.
Proof.
  induction 1 as [pool|x pool c Hd IH|x pool c Hd IH]; intros Hs.
  - constructor.
  - constructor; [apply IH, Hs|].
    apply Forall_forall. intros y Hy.
    apply (drawn_from_In _ _ y Hd) in Hy. destruct Hy as [<-|Hy].
    + apply nltb_irrefl.
    + apply StronglySorted_inv in Hs. destruct Hs as [_ Hall].
      rewrite Forall_forall in Hall. apply Hall, Hy.
  - apply IH. apply StronglySorted_inv in Hs. apply Hs.
Qed.

(** X12.  A returned combo lists its sizes from the largest to the
    smallest: no size in it is less than any size after it. *)
Theorem found_combo_descending (self : Toggles) (target tol_plus tol_minus : R)
  (metal_inv plastic_inv : Counter) (prefer_metal : bool) (max_stack : nat)
  (combo : list R) (is_metal : bool) :
  find_spacer_combo self target tol_plus tol_minus metal_inv plastic_inv
    prefer_metal max_stack = Some (combo, is_metal) ->
  StronglySorted not_below combo.
Proof.
  intros H. apply found_is_accepted in H. destruct H as (_ & Hd).
  apply (drawn_from_sorted _ _ Hd). unfold positive_keys.
  apply sorted_reverse_strongly_sorted.
Qed.

End ComboOrder.

(** * The inventory editor *)

Section EditorFacts.

Context {R : Type} {NR : Number R}.

Lemma write_vars_keys (vars : list (R * option Z)) (c : Counter) :
  (forall sz v, In (sz, v) vars -> In sz (keys c)) ->
  keys (fst (write_vars c vars)) = keys c.
Proof.
  revert c. induction vars as [|[sz [v|]] rest IH]; intros c Hin; simpl.
  - reflexivity.
  - rewrite IH.
    + apply keys_set_present, (Hin sz (Some v)). left. reflexivity.
    + intros sz' v' H'. apply keys_set. right. apply (Hin sz' v'). right.
      exact H'.
  - reflexivity.
Qed.

Lemma write_vars_get (vars : list (R * option Z)) (c c' : Counter) (k : R) :
  NoDup (map fst vars) ->
  write_vars c vars = (c', Saved) ->
  (forall v, In (k, v) vars -> v = Some (get c' k))
  /\ (~ In k (map fst vars) -> get c' k = get c k).
Proof.
  revert c. induction vars as [|[sz [v|]] rest IH]; intros c Hnd; simpl.
  - intros [= <-]. split; [intros v [] | reflexivity].
  - apply NoDup_cons_iff in Hnd. destruct Hnd as [Hsz Hnd].
    intros H. destruct (IH _ Hnd H) as [Hin Hout]. split.
    + intros v' [Heq|H'].
      * injection Heq as <- <-. rewrite (Hout Hsz), get_set_same.
        reflexivity.
      * apply Hin, H'.
    + intros Hk. rewrite Hout by tauto. apply get_set_other.
      intros ->. apply Hk. left. reflexivity.
  - discriminate.
Qed.

(** X13.  Saving the inventory editor never adds or removes a size: when
    every entry belongs to a size of its counter, as the editor builds
    them, both counters keep their keys in their order, whether the save
    completes or stops at an entry that is not a number.  When it
    completes, every size with an entry counts what was entered, negative
    numbers included, and the sizes without an entry are unchanged. *)
Theorem save_inventory_keeps_sizes (self : SpacerInventory)
  (metal_vars plastic_vars : list (R * option Z)) :
  (forall sz v, In (sz, v) metal_vars -> In sz (keys (metal self))) ->
  (forall sz v, In (sz, v) plastic_vars -> In sz (keys (plastic self))) ->
  NoDup (map fst metal_vars) -> NoDup (map fst plastic_vars) ->
  let self' := fst (save_inventory self metal_vars plastic_vars) in
  keys (metal self') = keys (metal self)
  /\ keys (plastic self') = keys (plastic self)
  /\ (snd (save_inventory self metal_vars plastic_vars) = Saved ->
      (forall sz v, In (sz, v) metal_vars ->
                    v = Some (get (metal self') sz))
      /\ (forall sz v, In (sz, v) plastic_vars ->
                       v = Some (get (plastic self') sz))
      /\ (forall sz, ~ In sz (map fst metal_vars) ->
                     get (metal self') sz = get (metal self) sz)
      /\ (forall sz, ~ In sz (map fst plastic_vars) ->
                     get (plastic self') sz = get (plastic self) sz)).
Proof.
  intros Hm Hp Hndm Hndp. cbv zeta. unfold save_inventory.
  pose proof (write_vars_keys metal_vars (metal self) Hm) as Km.
  pose proof (write_vars_keys plastic_vars (plastic self) Hp) as Kp.
  destruct (write_vars (metal self) metal_vars) as [m [|sz]] eqn:Em.
  - destruct (write_vars (plastic self) plastic_vars) as [p r] eqn:Ep.
    simpl in *. split; [exact Km|]. split; [exact Kp|].
    intros ->.
    pose proof (fun k => write_vars_get _ _ _ k Hndm Em) as Gm.
    pose proof (fun k => write_vars_get _ _ _ k Hndp Ep) as Gp.
    repeat split; intros sz; [apply Gm | apply Gp | apply Gm | apply Gp].
  - simpl in *. split; [exact Km|]. split; [reflexivity | discriminate].
Qed.

End EditorFacts.

(** * The preview *)

Section PreviewFacts.

Context {R : Type} {NR : Number R}.

Lemma skipn_nth_error {A : Type} (l : list A) (k : nat) (x : A) :
  nth_error l k = Some x -> skipn k l = x :: skipn (S k) l.
Proof.
  revert k. induction l as [|y l IH]; intros [|k]; simpl; try discriminate.
  - intros [= ->]. reflexivity.
  - intros H. apply IH, H.
Qed.

Lemma draw_columns_from (top_lines suf pre : list (@line R)) :
  exists stacks,
    draw_columns top_lines (pre ++ suf) (seq (length pre) (length suf))
    = Some stacks
    /\ bottom_stacks stacks = suf
    /\ top_stacks stacks
       = skipn (length pre - 1)
           (firstn (length pre + length suf - 1) top_lines).
Proof.
  revert pre. induction suf as [|b suf IH]; intros pre.
  - exists []. simpl. repeat split.
    symmetry. apply skipn_all2. rewrite length_firstn. lia.
  - simpl seq. simpl draw_columns.
    rewrite nth_error_app2 by lia. rewrite Nat.sub_diag. simpl nth_error.
    specialize (IH (pre ++ [b])).
    rewrite <- app_assoc, length_app in IH. simpl in IH.
    replace (length pre + 1)%nat with (S (length pre)) in IH by lia.
    destruct IH as (more & Hrun & Hbot & Htop).
    rewrite Hrun.
    replace (S (length pre) - 1)%nat with (length pre) in Htop by lia.
    replace (S (length pre) + length suf - 1)%nat
      with (length pre + length suf)%nat in Htop by lia.
    simpl length.
    replace (length pre + S (length suf) - 1)%nat
      with (length pre + length suf)%nat by lia.
    destruct (length pre) as [|a] eqn:Ea.
    + simpl. eexists. split; [reflexivity|].
      unfold bottom_stacks, top_stacks in *. simpl.
      rewrite Hbot, Htop. split; reflexivity.
    + replace (S a - 1)%nat with a by lia. simpl Nat.ltb at 1. simpl andb.
      destruct (Nat.ltb a (length top_lines)) eqn:Elt.
      * apply Nat.ltb_lt in Elt.
        destruct (nth_error top_lines a) as [t|] eqn:Et.
        2:{ apply nth_error_None in Et. lia. }
        eexists. split; [reflexivity|].
        unfold bottom_stacks, top_stacks in *. simpl.
        rewrite Hbot, Htop. split; [reflexivity|].
        symmetry. apply skipn_nth_error.
        rewrite nth_error_firstn.
        destruct (Nat.ltb a (S a + length suf)) eqn:E; [exact Et|].
        apply Nat.ltb_ge in E. lia.
      * apply Nat.ltb_ge in Elt.
        eexists. split; [reflexivity|].
        unfold bottom_stacks, top_stacks in *. simpl.
        rewrite Hbot, Htop. split; [reflexivity|].
        assert (Hlen : (length (firstn (S a + length suf) top_lines) <= a)%nat)
          by (rewrite length_firstn; lia).
        rewrite (skipn_all2 (n := a)) by exact Hlen.
        rewrite (skipn_all2 (n := S a)) by lia. reflexivity.
Qed.

Lemma draw_knife_layout_spec (top_lines bottom_lines : list (@line R)) :
  exists stacks,
    draw_knife_layout top_lines bottom_lines = Some stacks
    /\ bottom_stacks stacks = bottom_lines
    /\ top_stacks stacks = firstn (length bottom_lines - 1) top_lines.
Proof.
  destruct (draw_columns_from top_lines bottom_lines [])
    as (stacks & Hrun & Hbot & Htop).
  exists stacks. simpl in *. repeat split; assumption.
Qed.

(** X14.  The preview loop never indexes outside its lists.  It draws
    every bottom line once, in order; and it draws the first
    [len(bottom_lines) - 1] top lines, in order: a top line is left out
    exactly when there is no bottom line for its cut. *)
Theorem preview_draws_each_stack_once (top_lines bottom_lines : list (@line R)) :
  exists stacks,
    draw_knife_layout top_lines bottom_lines = Some stacks
    /\ bottom_stacks stacks = bottom_lines
    /\ top_stacks stacks = firstn (length bottom_lines - 1) top_lines.
Proof. apply draw_knife_layout_spec. Qed.

End PreviewFacts.

(** * The layout of a complete run *)

Section LayoutFacts.

Context {R : Type} {NR : Number R}.
Local Open Scope num_scope.

Lemma paired_length (self : Toggles) (job : @Job R) (i : nat)
  (cuts : list R) (tops bottoms : list line) :
  paired self job i cuts tops bottoms -> length tops = length bottoms.
Proof. induction 1; simpl; congruence. Qed.

Lemma calculate_spacers_try_shape (job : Job) (st : @App R) :
  match calculate_spacers_try (Some job) st with
  | (Ok _, st') =>
      exists s_combo bottoms,
        bottom_lines st'
        = Shoulder (clearance_of job +^ knife_female job) s_combo :: bottoms
        /\ length bottoms = length (top_lines st')
        /\ length (top_lines st') = length (expand_cuts (cut_entries job))
  | (Raise _, _) => True
  end.
Proof.
  unfold calculate_spacers_try.
  unfold bind at 1. unfold modify at 1. cbv zeta.
  set (st1 := set_used_spacers [] (set_lines [] [] st)).
  unfold bind at 1. unfold bind at 1.
  pose proof (copy_same_but_heap (inventory_metal st1) st1 st1
                (same_but_heap_refl st1)) as Hc1.
  destruct (copy (inventory_metal st1) st1) as [[job_metal|e] st2];
    [|exact Logic.I].
  destruct Hc1 as [H2 _].
  unfold bind at 1.
  pose proof (copy_same_but_heap (inventory_plastic st1) st1 st2 H2) as Hc2.
  destruct (copy (inventory_plastic st1) st2) as [[job_plastic|e] st3];
    [|exact Logic.I].
  destruct Hc2 as [H3 _].
  unfold bind at 1.
  pose proof (find_in_job_spec (clearance_of job +^ knife_female job)
                (lit 1 3) (lit 1 3) job_metal job_plastic st3) as Hf.
  destruct (find_in_job (clearance_of job +^ knife_female job)
              (lit 1 3) (lit 1 3) job_metal job_plastic st3)
    as [[found|e] st4]; [|exact Logic.I].
  destruct Hf as [-> _].
  destruct (found_combo found) as [s_combo|]; [|exact Logic.I].
  unfold bind at 1.
  pose proof (take_shoulder_same_but_heap job_metal job_plastic s_combo st1
                st3 H3) as Ht.
  destruct (take_shoulder job_metal job_plastic s_combo st3)
    as [[[]|e] st5]; [|exact Logic.I].
  destruct Ht as [(S1 & S2 & S3 & S4 & S5 & S6 & S7) _].
  simpl in S5, S6.
  unfold bind at 1. unfold update_used at 1, modify at 1.
  unfold bind at 1. unfold append_lines at 1, modify at 1.
  unfold bind at 1.
  set (st6 := set_lines _ _ _).
  pose proof (process_cuts_lines job job_metal job_plastic
                (expand_cuts (cut_entries job)) 1 st6) as Hp.
  destruct (process_cuts _ _ _ _ _ _ job_metal job_plastic 1
              (expand_cuts (cut_entries job)) st6) as [[[]|e] st7];
    [|exact Logic.I].
  destruct Hp as (_ & tops & bottoms & Htops & Hbots & Hpaired & Hlen).
  unfold st6 in Htops, Hbots. simpl in Htops, Hbots.
  rewrite S5 in Htops. rewrite S6 in Hbots. simpl in Htops, Hbots.
  simpl. exists s_combo, bottoms. rewrite Htops, Hbots.
  split; [reflexivity|]. split.
  - symmetry. apply (paired_length _ _ _ _ _ _ Hpaired).
  - apply (Hlen tt eq_refl).
Qed.

(** X15.  A complete run leaves the shoulder line first at the bottom,
    followed by one bottom line for each cut, and one top line for each
    cut; the preview then draws every line of the layout exactly once,
    the shoulder first. *)
Theorem complete_layout_is_drawn (job : Job) (st : @App R) :
  fst (calculate_spacers (Some job) st) = Done ->
  let st' := snd (calculate_spacers (Some job) st) in
  exists s_combo bottoms stacks,
    bottom_lines st'
    = Shoulder (clearance_of job +^ knife_female job) s_combo :: bottoms
    /\ length bottoms = length (expand_cuts (cut_entries job))
    /\ length (top_lines st') = length (expand_cuts (cut_entries job))
    /\ draw_knife_layout (top_lines st') (bottom_lines st') = Some stacks
    /\ bottom_stacks stacks = bottom_lines st'
    /\ top_stacks stacks = top_lines st'.
Proof.
  unfold calculate_spacers.
  pose proof (calculate_spacers_try_shape job st) as H.
  destruct (calculate_spacers_try (Some job) st) as [[[]|e] st'];
    simpl; [|discriminate].
  intros _. destruct H as (s_combo & bottoms & Hbot & Hlen & Hcuts).
  destruct (draw_knife_layout_spec (top_lines st') (bottom_lines st'))
    as (stacks & Hrun & Hb & Ht).
  exists s_combo, bottoms, stacks.
  repeat split; try assumption; try congruence.
  rewrite Ht, Hbot. simpl. rewrite Nat.sub_0_r, Hlen. apply firstn_all.
Qed.

End LayoutFacts.

(** * The PDF export *)

Section PdfFacts.

Context {R : Type} {NR : Number R}.

(** [l[a:b] + l[b:c] = l[a:c]] *)
Lemma slice_app {A : Type} (l : list A) (a b c : nat) :
  (a <= b <= c)%nat ->
  skipn a (firstn b l) ++ skipn b (firstn c l) = skipn a (firstn c l).
Proof.
  intros Habc.
  rewrite <- (firstn_skipn b (firstn c l)) at 2.
  rewrite firstn_firstn, (Nat.min_l b c) by lia.
  rewrite skipn_app. f_equal.
  destruct (Nat.le_gt_cases a (length (firstn b l))) as [Hle|Hgt].
  - replace (a - length (firstn b l))%nat with 0%nat by lia. reflexivity.
  - rewrite length_firstn in Hgt.
    rewrite (skipn_all2 (n := b)) by (rewrite length_firstn; lia).
    symmetry. apply skipn_nil.
Qed.

Lemma slice_one {A : Type} (l : list A) (k : nat) (x : A) :
  nth_error l k = Some x -> skipn k (firstn (S k) l) = [x].
Proof.
  intros H.
  rewrite (skipn_nth_error (firstn (S k) l) k x).
  - rewrite skipn_all2 by (rewrite length_firstn; lia). reflexivity.
  - rewrite nth_error_firstn.
    destruct (Nat.ltb k (S k)) eqn:E; [exact H|].
    apply Nat.ltb_ge in E. lia.
Qed.

Lemma bottom_stacks_app (a b : list (stack_label * @line R)) :
  bottom_stacks (a ++ b) = bottom_stacks a ++ bottom_stacks b.
Proof. unfold bottom_stacks. rewrite filter_app, map_app. reflexivity. Qed.

Lemma top_stacks_app (a b : list (stack_label * @line R)) :
  top_stacks (a ++ b) = top_stacks a ++ top_stacks b.
Proof. unfold top_stacks. rewrite filter_app, map_app. reflexivity. Qed.

(** The stacks drawn for one [idx]: the bottom line [idx] and, when there
    is one, the top line [idx - 1]. *)
Lemma pdf_stack_spec (tops bottoms : list (@line R)) (idx : nat) :
  (idx < length bottoms)%nat ->
  exists s,
    pdf_stack tops bottoms idx = Some s
    /\ bottom_stacks s = skipn idx (firstn (S idx) bottoms)
    /\ top_stacks s = skipn (idx - 1) (firstn idx tops).
Proof.
  intros Hlt. unfold pdf_stack.
  destruct (nth_error bottoms idx) as [b|] eqn:Eb.
  2:{ apply nth_error_None in Eb. lia. }
  rewrite (slice_one bottoms idx b Eb).
  destruct idx as [|a].
  - simpl. eexists. split; [reflexivity|]. split; reflexivity.
  - replace (S a - 1)%nat with a by lia. simpl Nat.ltb at 1. simpl andb.
    simpl Nat.eqb.
    destruct (Nat.ltb a (length tops)) eqn:Elt.
    + apply Nat.ltb_lt in Elt.
      destruct (nth_error tops a) as [t|] eqn:Et.
      2:{ apply nth_error_None in Et. lia. }
      rewrite (slice_one tops a t Et).
      eexists. split; [reflexivity|]. split; reflexivity.
    + apply Nat.ltb_ge in Elt.
      rewrite (skipn_all2 (n := a)) by (rewrite length_firstn; lia).
      eexists. split; [reflexivity|]. split; reflexivity.
Qed.

(** The rows [i, i + n) of a page draw the bottom lines
    [page * 4 + i, page * 4 + i + n), cut at [total], with their tops. *)
Lemma pdf_page_rows_spec (tops bottoms : list (@line R)) (page n i : nat) :
  let total := length bottoms in
  let a := Nat.min (page * stacks_per_page + i) total in
  let b := Nat.min (page * stacks_per_page + i + n) total in
  exists stacks,
    pdf_page_rows tops bottoms total page (seq i n) = Some stacks
    /\ bottom_stacks stacks = skipn a (firstn b bottoms)
    /\ top_stacks stacks = skipn (a - 1) (firstn (b - 1) tops).
Proof.
  cbv zeta. revert i. induction n as [|n IH]; intros i.
  - rewrite Nat.add_0_r. exists []. simpl. split; [reflexivity|]. split.
    + symmetry. apply skipn_all2. rewrite length_firstn. lia.
    + symmetry. apply skipn_all2. rewrite length_firstn. lia.
  - simpl seq. simpl pdf_page_rows.
    destruct (Nat.leb (length bottoms) (page * stacks_per_page + i)) eqn:E.
    + apply Nat.leb_le in E. exists []. split; [reflexivity|].
      rewrite !Nat.min_r by lia. split.
      * symmetry. apply skipn_all2. rewrite length_firstn. lia.
      * symmetry. apply skipn_all2. rewrite length_firstn. lia.
    + apply Nat.leb_gt in E.
      destruct (pdf_stack_spec tops bottoms _ E) as (s & Hs & Hsb & Hst).
      rewrite Hs.
      destruct (IH (S i)) as (more & Hm & Hmb & Hmt). rewrite Hm.
      exists (s ++ more). split; [reflexivity|].
      rewrite bottom_stacks_app, top_stacks_app, Hsb, Hst, Hmb, Hmt.
      replace (page * stacks_per_page + S i)%nat
        with (S (page * stacks_per_page + i)) by lia.
      replace (S (page * stacks_per_page + i) + n)%nat
        with (page * stacks_per_page + i + S n)%nat by lia.
      set (k := (page * stacks_per_page + i)%nat) in *.
      rewrite (Nat.min_l k) by lia.
      rewrite (Nat.min_l (S k)) by lia.
      replace (S k - 1)%nat with k by lia.
      split; apply slice_app; lia.
Qed.

(** The pages [p, p + k) draw the bottom lines [4 p, 4 (p + k)), cut at
    [total], and their tops; a page that starts below [total] has between
    one and [stacks_per_page] bottom stacks. *)
Lemma pdf_pages_spec (tops bottoms : list (@line R)) (k p : nat) :
  let total := length bottoms in
  let a := Nat.min (p * stacks_per_page) total in
  let b := Nat.min ((p + k) * stacks_per_page) total in
  exists pages,
    pdf_pages tops bottoms total (seq p k) = Some pages
    /\ length pages = k
    /\ bottom_stacks (concat pages) = skipn a (firstn b bottoms)
    /\ top_stacks (concat pages) = skipn (a - 1) (firstn (b - 1) tops)
    /\ (((p + k - 1) * stacks_per_page < total)%nat ->
        Forall (fun pg => (1 <= length (bottom_stacks pg)
                           <= stacks_per_page)%nat) pages).
Proof.
  cbv zeta. revert p. induction k as [|k IH]; intros p.
  - rewrite Nat.add_0_r. exists []. simpl. split; [reflexivity|].
    split; [reflexivity|]. split; [|split].
    + symmetry. apply skipn_all2. rewrite length_firstn. lia.
    + symmetry. apply skipn_all2. rewrite length_firstn. lia.
    + intros _. constructor.
  - change (seq p (S k)) with (p :: seq (S p) k). cbn [pdf_pages].
    destruct (pdf_page_rows_spec tops bottoms p stacks_per_page 0)
      as (pg & Hpg & Hpb & Hpt). cbv zeta in Hpg, Hpb, Hpt.
    rewrite Hpg.
    destruct (IH (S p)) as (pages & Hps & Hlen & Hb & Ht & Hall).
    rewrite Hps. exists (pg :: pages). split; [reflexivity|].
    split; [simpl; congruence|].
    simpl concat. rewrite bottom_stacks_app, top_stacks_app.
    rewrite Hpb, Hpt, Hb, Ht.
    replace (S p + k)%nat with (p + S k)%nat by lia.
    replace (p * stacks_per_page + 0 + stacks_per_page)%nat
      with (S p * stacks_per_page)%nat by (unfold stacks_per_page; lia).
    rewrite Nat.add_0_r.
    split; [apply slice_app; unfold stacks_per_page; lia|].
    split; [apply slice_app; unfold stacks_per_page; lia|].
    intros Hlast. constructor.
    + rewrite Hpb, length_skipn, length_firstn.
      unfold stacks_per_page in *. lia.
    + apply Hall. unfold stacks_per_page in *. lia.
Qed.

(** X16.  The PDF export never indexes outside its lists.  Its pages
    together draw every bottom line once, in order, and the first
    [len(bottoms) - 1] top lines, in order: the stacks the on-screen
    preview draws. *)
Theorem pdf_draws_what_the_preview_draws (tops bottoms : list (@line R)) :
  exists pages stacks,
    save_preview_image tops bottoms = Some pages
    /\ draw_knife_layout tops bottoms = Some stacks
    /\ bottom_stacks (concat pages) = bottoms
    /\ top_stacks (concat pages) = firstn (length bottoms - 1) tops
    /\ bottom_stacks (concat pages) = bottom_stacks stacks
    /\ top_stacks (concat pages) = top_stacks stacks.
Proof.
  unfold save_preview_image. cbv zeta.
  set (total := length bottoms).
  set (k := ((total + stacks_per_page - 1) / stacks_per_page)%nat).
  destruct (pdf_pages_spec tops bottoms k 0)
    as (pages & Hrun & _ & Hb & Ht & _).
  cbv zeta in Hrun, Hb, Ht. fold total in Hrun, Hb, Ht.
  destruct (draw_knife_layout_spec tops bottoms)
    as (stacks & Hdraw & Hdb & Hdt).
  assert (Hk : (total <= k * stacks_per_page)%nat).
  { unfold k, stacks_per_page.
    pose proof (Nat.div_mod_eq (total + 4 - 1) 4) as Hd.
    pose proof (Nat.mod_upper_bound (total + 4 - 1) 4 ltac:(lia)) as Hm.
    lia. }
  simpl in Hb, Ht. rewrite Nat.min_r in Hb, Ht by lia.
  simpl in Ht. unfold total in Hb. rewrite firstn_all in Hb.
  exists pages, stacks. unfold total in *.
  repeat split; try assumption; congruence.
Qed.

(** X17.  The export makes [ceil(len(bottoms) / 4)] pages, none for an
    empty layout, and no page is empty or overfull: each page draws
    between one and four bottom stacks. *)
Theorem pdf_pages_are_filled (tops bottoms : list (@line R)) :
  exists pages,
    save_preview_image tops bottoms = Some pages
    /\ (length bottoms <= 4 * length pages < length bottoms + 4)%nat
    /\ Forall (fun pg => (1 <= length (bottom_stacks pg) <= 4)%nat) pages.
Proof.
  unfold save_preview_image. cbv zeta.
  set (total := length bottoms).
  set (k := ((total + stacks_per_page - 1) / stacks_per_page)%nat).
  destruct (pdf_pages_spec tops bottoms k 0)
    as (pages & Hrun & Hlen & _ & _ & Hall).
  cbv zeta in Hrun, Hall. fold total in Hrun, Hall.
  assert (Hk : (total <= 4 * k < total + 4)%nat).
  { unfold k, stacks_per_page.
    pose proof (Nat.div_mod_eq (total + 4 - 1) 4) as Hd.
    pose proof (Nat.mod_upper_bound (total + 4 - 1) 4 ltac:(lia)) as Hm.
    lia. }
  exists pages. split; [exact Hrun|]. split; [rewrite Hlen; exact Hk|].
  destruct k as [|k'].
  - destruct pages; [constructor | discriminate].
  - apply Hall. unfold stacks_per_page. lia.
Qed.

End PdfFacts.

(** ** The shop's inventory again *)

Lemma exact_nltb_irrefl (x : Q) : nltb x x = false.
Proof. simpl. apply negb_false_iff, Qle_bool_iff, Qle_refl. Qed.

Lemma exact_not_below_trans (x y z : Q) :
  not_below x y -> not_below y z -> not_below x z.
Proof.
  unfold not_below. simpl. rewrite !negb_false_iff, !Qle_bool_iff.
  intros H1 H2. eapply Qle_trans; eassumption.
Qed.

Lemma shop_metal_well_formed : well_formed shop_metal.
Proof.
  unfold well_formed. vm_compute.
  repeat constructor; simpl; intuition discriminate.
Qed.

Lemma shop_plastic_well_formed : well_formed shop_plastic.
Proof.
  unfold well_formed. vm_compute.
  repeat constructor; simpl; intuition discriminate.
Qed.

Lemma shop_no_negative_count (k : Q) :
  0 <= get shop_metal k /\ 0 <= get shop_plastic k.
Proof.
  unfold shop_metal, shop_plastic. simpl.
  repeat match goal with
         | |- context [eq_dec ?a ?b] => destruct (eq_dec a b)
         end; lia.
Qed.

Lemma use_spacers_metal_first_witness :
  let self' := fst (use_spacers shop_ledger two_eighths) in
  let n := Z.of_nat (count_occ num_eq_dec two_eighths (lit 125 3)) in
  let a := Z.max 0 (get (metal shop_ledger) (lit 125 3)) in
  get (metal self') (lit 125 3)
  = get (metal shop_ledger) (lit 125 3) - Z.min n a
  /\ get (plastic self') (lit 125 3)
     = get (plastic shop_ledger) (lit 125 3) - Z.max 0 (n - a).
Proof.
  apply (use_spacers_metal_first shop_ledger
           (fst (use_spacers shop_ledger two_eighths)) two_eighths).
  vm_compute. reflexivity.
Defined.

Lemma check_availability_use_spacers_witness :
  (check_availability shop_ledger two_eighths = true ->
   snd (use_spacers shop_ledger two_eighths) = Reserved)
  /\ ((forall k, 0 <= get (metal shop_ledger) k
                 /\ 0 <= get (plastic shop_ledger) k) ->
      snd (use_spacers shop_ledger two_eighths) = Reserved ->
      check_availability shop_ledger two_eighths = true).
Proof.
  apply (check_availability_use_spacers shop_ledger two_eighths).
  - exact shop_metal_well_formed.
  - exact shop_plastic_well_formed.
Defined.

Lemma found_combo_is_reservable_witness :
  snd (use_spacers shop_ledger [lit 125 3]) = Reserved.
Proof.
  apply (found_combo_is_reservable both_ticked shop_ledger
           (lit 125 3) (of_int 0) (of_int 0) true 8%nat [lit 125 3] true).
  - exact shop_metal_well_formed.
  - exact shop_plastic_well_formed.
  - vm_compute. reflexivity.
Defined.



Lemma run_conserves_spacers_witness :
  let st' := snd (calculate_spacers (Some one_cut) shop) in
  exists m p,
    working 2%nat 3%nat m p st'
    /\ forall k,
         get m k + get p k
         = get (metal shop_ledger) k + get (plastic shop_ledger) k
           - get (used_spacers st') k.
Proof.
  apply (run_conserves_spacers one_cut shop shop_ledger).
  - reflexivity.
  - exact shop_metal_well_formed.
  - exact shop_plastic_well_formed.
Defined.

Lemma run_never_overdraws_witness :
  let st' := snd (calculate_spacers (Some one_cut) shop) in
  (forall k,
     get (used_spacers st') k
     <= get (metal shop_ledger) k + get (plastic shop_ledger) k)
  /\ exists m p,
       working 2%nat 3%nat m p st'
       /\ forall k, 0 <= get p k /\ 0 <= get m k + get p k.
Proof.
  apply (run_never_overdraws one_cut shop shop_ledger).
  - reflexivity.
  - exact shop_metal_well_formed.
  - exact shop_plastic_well_formed.
  - exact shop_no_negative_count.
Defined.

Lemma tally_matches_layout_witness :
  let st' := snd (calculate_spacers (Some one_cut) shop) in
  get (used_spacers st') (lit 125 3)
  = Z.of_nat (count_occ num_eq_dec
                (spacers_in (top_lines st' ++ bottom_lines st')) (lit 125 3)).
Proof.
  apply (tally_matches_layout (Some one_cut) shop).
  vm_compute. reflexivity.
Defined.

Lemma found_combo_descending_witness :
  StronglySorted not_below [lit 500 3; lit 250 3].
Proof.
  apply (found_combo_descending exact_nltb_irrefl exact_nltb_asym
           exact_not_below_trans both_ticked
           (lit 750 3) (lit 1 3) (lit 1 3)
           [(lit 500 3, 2); (lit 250 3, 1)] [] true 8%nat
           [lit 500 3; lit 250 3] true).
  vm_compute. reflexivity.
Defined.

Lemma save_inventory_keeps_sizes_witness :
  let self' := fst (save_inventory shop_ledger typed_metal typed_plastic) in
  keys (metal self') = keys (metal shop_ledger)
  /\ keys (plastic self') = keys (plastic shop_ledger)
  /\ (snd (save_inventory shop_ledger typed_metal typed_plastic) = Saved ->
      (forall sz v, In (sz, v) typed_metal ->
                    v = Some (get (metal self') sz))
      /\ (forall sz v, In (sz, v) typed_plastic ->
                       v = Some (get (plastic self') sz))
      /\ (forall sz, ~ In sz (map fst typed_metal) ->
                     get (metal self') sz = get (metal shop_ledger) sz)
      /\ (forall sz, ~ In sz (map fst typed_plastic) ->
                     get (plastic self') sz = get (plastic shop_ledger) sz)).
Proof.
  apply (save_inventory_keeps_sizes shop_ledger typed_metal typed_plastic).
  - intros sz v [H|[]]. injection H as <- _. vm_compute. auto.
  - intros sz v [H|[]]. injection H as <- _. vm_compute. auto.
  - repeat constructor. simpl. tauto.
  - repeat constructor. simpl. tauto.
Defined.

Lemma complete_layout_is_drawn_witness :
  let st' := snd (calculate_spacers (Some one_cut) shop) in
  exists s_combo bottoms stacks,
    bottom_lines st'
    = Shoulder (clearance_of one_cut +^ knife_female one_cut)%num s_combo
      :: bottoms
    /\ length bottoms = length (expand_cuts (cut_entries one_cut))
    /\ length (top_lines st') = length (expand_cuts (cut_entries one_cut))
    /\ draw_knife_layout (top_lines st') (bottom_lines st') = Some stacks
    /\ bottom_stacks stacks = bottom_lines st'
    /\ top_stacks stacks = top_lines st'.
Proof.
  apply (complete_layout_is_drawn one_cut shop).
  vm_compute. reflexivity.
Defined.

(** * Spacer Stack Tetris *)

Section PythonLists.

Context {A : Type}.

Lemma position_nat (l : list A) (k : nat) :
  (k < length l)%nat -> position l (Z.of_nat k) = Some k.
Proof.
  intros H. unfold position.
  destruct (Z.leb_spec 0 (Z.of_nat k)); [|lia].
  destruct (Z.ltb_spec (Z.of_nat k) (Z.of_nat (length l))); [|lia].
  simpl. rewrite Nat2Z.id. reflexivity.
Qed.

Lemma position_in_range (l : list A) (i : Z) :
  0 <= i < Z.of_nat (length l) -> position l i = Some (Z.to_nat i).
Proof.
  intros H. rewrite <- (Z2Nat.id i) at 1 by lia. apply position_nat. lia.
Qed.

Lemma position_beyond (l : list A) (i : Z) :
  Z.of_nat (length l) <= i -> position l i = None.
Proof.
  intros H. unfold position.
  destruct (Z.leb_spec 0 i); [|lia].
  destruct (Z.ltb_spec i (Z.of_nat (length l))); [lia|].
  destruct (Z.ltb_spec i 0); [lia|]. reflexivity.
Qed.

Lemma getitem_in_range (l : list A) (i : Z) :
  0 <= i < Z.of_nat (length l) ->
  exists v, getitem l i = Some v /\ nth_error l (Z.to_nat i) = Some v.
Proof.
  intros H. unfold getitem. rewrite position_in_range by exact H.
  destruct (nth_error l (Z.to_nat i)) as [v|] eqn:E.
  - exists v. split; reflexivity.
  - apply nth_error_None in E. lia.
Qed.

Lemma getitem_middle (front back : list A) (x : A) :
  getitem (front ++ x :: back) (Z.of_nat (length front)) = Some x.
Proof.
  unfold getitem. rewrite position_nat by (rewrite length_app; simpl; lia).
  rewrite nth_error_app2, Nat.sub_diag by lia. reflexivity.
Qed.

Lemma delitem_middle (front back : list A) (x : A) :
  delitem (front ++ x :: back) (Z.of_nat (length front))
  = Some (front ++ back).
Proof.
  unfold delitem. rewrite position_nat by (rewrite length_app; simpl; lia).
  rewrite firstn_app, Nat.sub_diag, firstn_all. simpl firstn.
  rewrite app_nil_r.
  rewrite skipn_app, (skipn_all2 (n := S (length front))) by lia.
  replace (S (length front) - length front)%nat with 1%nat by lia.
  reflexivity.
Qed.

Lemma setitem_in_range (l : list A) (i : Z) (v : A) :
  0 <= i < Z.of_nat (length l) ->
  exists l', setitem l i v = Some l'
             /\ length l' = length l
             /\ forall P : A -> Prop, Forall P l -> P v -> Forall P l'.
Proof.
  intros H. unfold setitem. rewrite position_in_range by exact H.
  eexists. split; [reflexivity|]. split.
  - rewrite length_app, length_firstn. cbn [length].
    rewrite length_skipn. lia.
  - intros P Hl Hv. apply Forall_app. split.
    + rewrite <- (firstn_skipn (Z.to_nat i) l) in Hl.
      apply Forall_app in Hl. apply Hl.
    + constructor; [exact Hv|].
      rewrite <- (firstn_skipn (S (Z.to_nat i)) l) in Hl.
      apply Forall_app in Hl. apply Hl.
Qed.

Lemma repeat_snoc_app (a : A) (k : nat) (back : list A) :
  repeat a (S k) ++ back = repeat a k ++ a :: back.
Proof.
  change (repeat a (S k)) with (a :: repeat a k).
  rewrite repeat_cons, <- app_assoc. reflexivity.
Qed.

Lemma repeat_cons_app (a : A) (k : nat) (back : list A) :
  a :: repeat a k ++ back = repeat a k ++ a :: back.
Proof. apply (repeat_snoc_app a k back). Qed.

End PythonLists.

Lemma rev_range_succ (m : nat) :
  rev (range (Z.of_nat (S m))) = Z.of_nat m :: rev (range (Z.of_nat m)).
Proof.
  unfold range. rewrite !Nat2Z.id, seq_S, map_app, rev_app_distr.
  reflexivity.
Qed.

Section TetrisFacts.

Import Tetris.

Lemma cell_at_ok (grid : list (list cell)) (x y : Z) :
  board_ok grid -> 0 <= x < cols -> 0 <= y < rows ->
  exists c, cell_at grid x y = Some c.
Proof.
  intros [Hlen Hrows] Hx Hy. unfold cell_at.
  destruct (getitem_in_range grid y) as (row & Hrow & Hnth).
  { rewrite Hlen. unfold rows in *. lia. }
  rewrite Hrow.
  apply nth_error_In in Hnth.
  rewrite Forall_forall in Hrows. specialize (Hrows row Hnth).
  destruct (getitem_in_range row x) as (c & Hc & _).
  { rewrite Hrows. unfold cols in *. lia. }
  exists c. exact Hc.
Qed.

Lemma valid_cons (grid : list (list cell)) (x y : Z)
  (rest : list (Z * Z)) :
  valid grid ((x, y) :: rest)
  <-> (0 <= x < cols /\ y < rows
       /\ (0 <= y -> exists v, cell_at grid x y = Some v
                               /\ truthy v = false))
      /\ valid grid rest.
Proof. unfold valid. rewrite Forall_cons_iff. reflexivity. Qed.

(** On a grid of the right shape [can_move] answers, and says yes exactly
    when the shifted squares are valid. *)
Lemma can_move_loop_spec (grid : list (list cell)) (squares : list (Z * Z))
  (dx dy : Z) :
  board_ok grid ->
  exists b,
    can_move_loop grid squares dx dy = Some b
    /\ (b = true
        <-> valid grid (map (fun c => (fst c + dx, snd c + dy)) squares)).
Proof.
  intros Hok. induction squares as [|[x y] rest IH].
  - exists true. split; [reflexivity|]. split; [constructor | reflexivity].
  - destruct IH as (b & Hb & Hiff).
    cbn [can_move_loop map fst snd]. cbv zeta. setoid_rewrite valid_cons.
    rewrite !Z.geb_leb.
    destruct (Z.ltb_spec (x + dx) 0) as [Hx0|Hx0]; cbn [orb].
    { exists false. split; [reflexivity|].
      split; [discriminate | intros [[? _] _]; lia]. }
    destruct (Z.leb_spec cols (x + dx)) as [Hx1|Hx1]; cbn [orb].
    { exists false. split; [reflexivity|].
      split; [discriminate | intros [[? _] _]; lia]. }
    destruct (Z.leb_spec rows (y + dy)) as [Hy1|Hy1].
    { exists false. split; [reflexivity|].
      split; [discriminate | intros [(_ & ? & _) _]; lia]. }
    destruct (Z.leb_spec 0 (y + dy)) as [Hy0|Hy0].
    + destruct (cell_at_ok grid (x + dx) (y + dy) Hok) as (c & Hc);
        [lia | lia |].
      rewrite Hc. destruct (truthy c) eqn:Et.
      * exists false. split; [reflexivity|].
        split; [discriminate|].
        intros [(_ & _ & Hfree) _]. destruct (Hfree Hy0) as (v & Hv & Hf).
        congruence.
      * exists b. split; [exact Hb|]. rewrite Hiff. split.
        -- intros Hrest. split; [|exact Hrest].
           split; [lia|]. split; [lia|]. intros _. exists c. auto.
        -- intros [_ Hrest]. exact Hrest.
    + exists b. split; [exact Hb|]. rewrite Hiff. split.
      * intros Hrest. split; [|exact Hrest].
        split; [lia|]. split; [lia|]. intros ?. lia.
      * intros [_ Hrest]. exact Hrest.
Qed.

(** The test of [rotate_piece] answers the same question. *)
Lemma fits_spec (grid : list (list cell)) (squares : list (Z * Z)) :
  board_ok grid ->
  exists b, fits grid squares = Some b /\ (b = true <-> valid grid squares).
Proof.
  intros Hok. induction squares as [|[x y] rest IH].
  - exists true. split; [reflexivity|]. split; [constructor | reflexivity].
  - destruct IH as (b & Hb & Hiff).
    cbn [fits]. setoid_rewrite valid_cons.
    destruct (Z.leb_spec 0 x) as [Hx0|Hx0]; cbn [andb].
    2:{ exists false. split; [reflexivity|].
        split; [discriminate | intros [[? _] _]; lia]. }
    destruct (Z.ltb_spec x cols) as [Hx1|Hx1]; cbn [andb].
    2:{ exists false. split; [reflexivity|].
        split; [discriminate | intros [[? _] _]; lia]. }
    destruct (Z.ltb_spec y rows) as [Hy1|Hy1].
    2:{ exists false. split; [reflexivity|].
        split; [discriminate | intros [(_ & ? & _) _]; lia]. }
    destruct (Z.ltb_spec y 0) as [Hy0|Hy0].
    + exists b. split; [exact Hb|]. rewrite Hiff. split.
      * intros Hrest. split; [|exact Hrest].
        split; [lia|]. split; [lia|]. intros ?. lia.
      * intros [_ Hrest]. exact Hrest.
    + destruct (cell_at_ok grid x y Hok) as (c & Hc); [lia | lia |].
      rewrite Hc. destruct (truthy c) eqn:Et.
      * exists false. split; [reflexivity|].
        split; [discriminate|].
        intros [(_ & _ & Hfree) _]. destruct (Hfree Hy0) as (v & Hv & Hf).
        congruence.
      * exists b. split; [exact Hb|]. rewrite Hiff. split.
        -- intros Hrest. split; [|exact Hrest].
           split; [lia|]. split; [lia|]. intros _. exists c. auto.
        -- intros [_ Hrest]. exact Hrest.
Qed.

Lemma valid_on_board (grid : list (list cell)) (squares : list (Z * Z)) :
  valid grid squares -> on_board squares.
Proof.
  unfold valid, on_board. apply Forall_impl. intros c (H1 & H2 & _). auto.
Qed.

Lemma move_piece_spec (dx dy : Z) (g : Game) :
  board_ok (grid g) ->
  let shifted := map (fun c => (fst c + dx, snd c + dy)) (coords (piece g)) in
  (valid (grid g) shifted
   /\ move_piece dx dy g = Some (true, with_coords shifted g))
  \/ (~ valid (grid g) shifted /\ move_piece dx dy g = Some (false, g)).
Proof.
  intros Hok. cbv zeta. unfold move_piece, can_move.
  destruct (can_move_loop_spec (grid g) (coords (piece g)) dx dy Hok)
    as (b & Hb & Hiff).
  rewrite Hb. destruct b.
  - left. split; [apply Hiff; reflexivity | reflexivity].
  - right. split; [|reflexivity]. intros H. apply Hiff in H. discriminate.
Qed.

Lemma rotate_piece_spec (g : Game) :
  board_ok (grid g) ->
  coords (piece g) <> [] ->
  exists g',
    rotate_piece g = Some g'
    /\ (g' = g
        \/ (valid (grid g) (coords (piece g'))
            /\ g' = with_coords (coords (piece g')) g
            /\ exists px py rest,
                 coords (piece g) = (px, py) :: rest
                 /\ coords (piece g')
                    = map (fun c => (px - (snd c - py), py + (fst c - px)))
                        (coords (piece g)))).
Proof.
  intros Hok Hne. unfold rotate_piece.
  destruct (shape_idx (piece g) =? 5).
  { exists g. split; [reflexivity | left; reflexivity]. }
  destruct (coords (piece g)) as [|[px py] rest] eqn:Ec; [congruence|].
  set (new_coords := map _ _).
  destruct (fits_spec (grid g) new_coords Hok) as (b & Hb & Hiff).
  rewrite Hb. destruct b.
  - exists (with_coords new_coords g). split; [reflexivity|]. right.
    split; [apply Hiff; reflexivity|]. split; [reflexivity|].
    exists px, py, rest. split; reflexivity.
  - exists g. split; [reflexivity | left; reflexivity].
Qed.

(** X18.  On a grid of 20 rows of 10 cells [move_piece] and
    [rotate_piece] do not raise.  A move is carried out exactly when every
    square of the shifted piece is between the walls, above the floor and
    on no frozen square; otherwise nothing changes.  A rotation either
    changes nothing or leaves the turned piece in such a position. *)
Theorem piece_never_overlaps (dx dy : Z) (g : Game) :
  board_ok (grid g) ->
  let shifted := map (fun c => (fst c + dx, snd c + dy)) (coords (piece g)) in
  ((valid (grid g) shifted
    /\ move_piece dx dy g = Some (true, with_coords shifted g))
   \/ (~ valid (grid g) shifted /\ move_piece dx dy g = Some (false, g)))
  /\ (coords (piece g) <> [] ->
      exists g',
        rotate_piece g = Some g'
        /\ (g' = g
            \/ (valid (grid g) (coords (piece g'))
                /\ g' = with_coords (coords (piece g')) g))).
Proof.
  intros Hok. cbv zeta. split.
  - apply move_piece_spec, Hok.
  - intros Hne.
    destruct (rotate_piece_spec g Hok Hne) as (g' & Hrun & [->|H]).
    + exists g. split; [exact Hrun | left; reflexivity].
    + exists g'. split; [exact Hrun|]. right.
      destruct H as (Hv & Hg & _). split; assumption.
Qed.

(** Freezing a piece that is on the board writes inside the grid. *)
Lemma place_ok (squares : list (Z * Z)) (c : string) :
  forall grid : list (list cell),
    board_ok grid -> on_board squares ->
    exists placed, place grid squares c = Some placed /\ board_ok placed.
Proof.
  induction squares as [|[x y] rest IH]; intros grid Hok Hon.
  - exists grid. split; [reflexivity | exact Hok].
  - apply Forall_cons_iff in Hon. destruct Hon as [[Hx Hy] Hrest].
    cbn [fst snd] in Hx, Hy. cbn [place]. rewrite Z.geb_leb.
    destruct (Z.leb_spec 0 y) as [Hy0|Hy0]; [|apply IH; assumption].
    destruct Hok as [Hlen Hrows].
    destruct (getitem_in_range grid y) as (row & Hrow & Hnth).
    { rewrite Hlen. unfold rows in *. lia. }
    rewrite Hrow.
    assert (Hrl : length row = Z.to_nat cols).
    { apply nth_error_In in Hnth. rewrite Forall_forall in Hrows.
      apply Hrows, Hnth. }
    destruct (setitem_in_range row x (Colour c)) as (row' & Hset & Hl' & _).
    { rewrite Hrl. unfold cols in *. lia. }
    rewrite Hset.
    destruct (setitem_in_range grid y row') as (grid' & Hset' & Hlg & Hall).
    { rewrite Hlen. unfold rows in *. lia. }
    rewrite Hset'. apply IH; [|exact Hrest]. split.
    + congruence.
    + apply Hall; [exact Hrows | congruence].
Qed.

(** On a row of [cols] cells the test of the clearing loop answers whether
    every cell is taken. *)
Lemma row_full_from (grid : list (list cell)) (y : Z) (row : list cell)
  (n a : nat) :
  getitem grid y = Some row ->
  (a + n = length row)%nat ->
  row_full grid y (map Z.of_nat (seq a n))
  = Some (forallb truthy (skipn a row)).
Proof.
  intros Hrow. revert a. induction n as [|n IH]; intros a Han.
  - rewrite skipn_all2 by lia. reflexivity.
  - cbn [seq map row_full]. unfold cell_at. rewrite Hrow.
    unfold getitem. rewrite position_nat by lia.
    destruct (nth_error row a) as [c|] eqn:Ec.
    2:{ apply nth_error_None in Ec. lia. }
    rewrite (skipn_nth_error row a c Ec). cbn [forallb].
    destruct (truthy c); [|reflexivity]. apply IH. lia.
Qed.

Lemma row_full_spec (grid : list (list cell)) (y : Z) (row : list cell) :
  getitem grid y = Some row ->
  length row = Z.to_nat cols ->
  row_full grid y (range cols) = Some (full row).
Proof.
  intros Hrow Hlen. unfold range.
  rewrite (row_full_from grid y row (Z.to_nat cols) 0 Hrow) by lia.
  reflexivity.
Qed.

Lemma kept_skip (h : list cell) (above : list (list cell)) :
  full h = false -> kept (h :: above) = h :: kept above.
Proof. intros H. cbn [kept]. rewrite H. reflexivity. Qed.

Lemma kept_clear (h h' : list cell) (above : list (list cell)) :
  full h = true -> kept (h :: h' :: above) = h' :: kept above.
Proof. intros H. cbn [kept]. rewrite H. reflexivity. Qed.

Lemma kept_clear_last (h : list cell) : full h = true -> kept [h] = [].
Proof. intros H. cbn [kept]. rewrite H. reflexivity. Qed.

Lemma kept_length (n : nat) :
  forall rows_up : list (list cell),
    (length rows_up <= n)%nat ->
    (length (kept rows_up) <= length rows_up)%nat.
Proof.
  induction n as [|n IH]; intros [|h above] Hn; cbn [length] in Hn;
    try (cbn; lia).
  destruct (full h) eqn:Ef.
  - destruct above as [|h' above'].
    + rewrite (kept_clear_last h Ef). cbn [length]. lia.
    + rewrite (kept_clear h h' above' Ef). cbn [length] in *.
      specialize (IH above' ltac:(lia)). lia.
  - rewrite (kept_skip h above Ef). cbn [length].
    specialize (IH above ltac:(lia)). lia.
Qed.

Lemma kept_rows (P : list cell -> Prop) (n : nat) :
  forall rows_up : list (list cell),
    (length rows_up <= n)%nat -> Forall P rows_up -> Forall P (kept rows_up).
Proof.
  induction n as [|n IH]; intros [|h above] Hn Hall; cbn [length] in Hn;
    try (constructor; fail); try lia.
  apply Forall_cons_iff in Hall. destruct Hall as [Hh Hall].
  destruct (full h) eqn:Ef.
  - destruct above as [|h' above'].
    + rewrite (kept_clear_last h Ef). constructor.
    + rewrite (kept_clear h h' above' Ef).
      apply Forall_cons_iff in Hall. destruct Hall as [Hh' Hall].
      cbn [length] in Hn.
      constructor; [exact Hh' | apply IH; [lia | exact Hall]].
  - rewrite (kept_skip h above Ef).
    constructor; [exact Hh | apply IH; [lia | exact Hall]].
Qed.

(** The clearing loop passes over the empty rows it has inserted. *)
Lemma clear_rows_empty (k : nat) :
  forall (below : list (list cell)) (lines : Z),
    clear_rows (repeat (repeat Zero (Z.to_nat cols)) k ++ below)
      (rev (range (Z.of_nat k))) lines
    = Some (repeat (repeat Zero (Z.to_nat cols)) k ++ below, lines).
Proof.
  induction k as [|k IH]; intros below lines.
  - reflexivity.
  - rewrite rev_range_succ. cbn [clear_rows].
    rewrite repeat_snoc_app.
    rewrite (row_full_spec _ _ (repeat Zero (Z.to_nat cols))).
    + apply IH.
    + rewrite <- (repeat_length (repeat Zero (Z.to_nat cols)) k) at 2.
      apply getitem_middle.
    + apply repeat_length.
Qed.

(** What the clearing loop does to the rows it has still to look at,
    listed from the bottom as [rows_up], under [k] inserted rows and above
    the rows [below] it has passed. *)
Lemma clear_rows_kept (n : nat) :
  forall (rows_up below : list (list cell)) (k : nat) (lines : Z),
    (length rows_up <= n)%nat ->
    Forall (fun row => length row = Z.to_nat cols) rows_up ->
    let gone := (length rows_up - length (kept rows_up))%nat in
    clear_rows
      (repeat (repeat Zero (Z.to_nat cols)) k ++ rev rows_up ++ below)
      (rev (range (Z.of_nat (k + length rows_up)))) lines
    = Some (repeat (repeat Zero (Z.to_nat cols)) (k + gone)
              ++ rev (kept rows_up) ++ below,
            lines + Z.of_nat gone).
Proof.
  set (empty := repeat Zero (Z.to_nat cols)).
  assert (Hnone : forall (below : list (list cell)) (k : nat) (lines : Z),
             clear_rows (repeat empty k ++ rev [] ++ below)
               (rev (range (Z.of_nat (k + length (@nil (list cell))))))
               lines
             = Some (repeat empty (k + (0 - 0)) ++ rev (kept []) ++ below,
                     lines + Z.of_nat (0 - 0))).
  { intros below k lines. cbn [length kept rev app Nat.sub].
    rewrite !Nat.add_0_r, Z.add_0_r. apply clear_rows_empty. }
  induction n as [|n IH]; intros rows_up below k lines Hn Hall; cbv zeta.
  { destruct rows_up; [apply Hnone | cbn [length] in Hn; lia]. }
  destruct rows_up as [|h above]; [apply Hnone|].
  apply Forall_cons_iff in Hall. destruct Hall as [Hh Hall].
  cbn [length] in Hn.
  replace (k + length (h :: above))%nat with (S (k + length above))
    by (cbn [length]; lia).
  rewrite rev_range_succ. cbn [clear_rows]. fold empty.
  assert (Hgrid : repeat empty k ++ rev (h :: above) ++ below
                  = (repeat empty k ++ rev above) ++ h :: below).
  { cbn [rev]. rewrite <- !app_assoc. reflexivity. }
  assert (Hat : Z.of_nat (k + length above)
                = Z.of_nat (length (repeat empty k ++ rev above))).
  { rewrite length_app, repeat_length, length_rev. reflexivity. }
  rewrite Hgrid, Hat.
  rewrite (row_full_spec _ _ h (getitem_middle _ _ _) Hh).
  pose proof (kept_length n above ltac:(lia)) as Hk.
  destruct (full h) eqn:Ef.
  - rewrite delitem_middle, <- Hat.
    destruct above as [|h' above'].
    + rewrite (kept_clear_last h Ef).
      cbn [rev length app]. rewrite app_nil_r, Nat.add_0_r.
      unfold empty. rewrite repeat_cons_app, clear_rows_empty.
      replace (k + (1 - 0))%nat with (S k) by lia.
      rewrite repeat_snoc_app. reflexivity.
    + rewrite (kept_clear h h' above' Ef).
      apply Forall_cons_iff in Hall. destruct Hall as [Hh' Hall].
      cbn [length] in Hn.
      pose proof (kept_length n above' ltac:(lia)) as Hk'.
      specialize (IH above' (h' :: below) (S k) (lines + 1)
                    ltac:(lia) Hall).
      cbv zeta in IH.
      assert (Hnow : empty :: (repeat empty k ++ rev (h' :: above'))
                                ++ below
                     = repeat empty (S k) ++ rev above' ++ h' :: below).
      { cbn [rev repeat]. rewrite <- !app_assoc. reflexivity. }
      rewrite Hnow.
      replace (k + length (h' :: above'))%nat
        with (S k + length above')%nat by (cbn [length]; lia).
      rewrite IH. cbn [length rev].
      rewrite <- !app_assoc. cbn [app].
      replace (S k + (length above' - length (kept above')))%nat
        with (k + (S (S (length above')) - S (length (kept above'))))%nat
        by lia.
      replace (lines + 1 + Z.of_nat (length above' - length (kept above')))
        with (lines
              + Z.of_nat (S (S (length above')) - S (length (kept above'))))
        by lia.
      reflexivity.
  - rewrite <- Hat, (kept_skip h above Ef).
    specialize (IH above (h :: below) k lines ltac:(lia) Hall).
    cbv zeta in IH. rewrite <- app_assoc. rewrite IH.
    cbn [length rev]. rewrite <- !app_assoc. cbn [app].
    replace (S (length above) - S (length (kept above)))%nat
      with (length above - length (kept above))%nat by lia.
    reflexivity.
Qed.

(** The clearing loop on a grid of the right shape: it does not raise,
    keeps the shape, and leaves the rows [kept] describes under as many
    empty rows as it has counted. *)
Lemma clear_rows_board (grid : list (list cell)) :
  board_ok grid ->
  let gone := (length grid - length (kept (rev grid)))%nat in
  clear_rows grid (rev (range rows)) 0
  = Some (repeat (repeat Zero (Z.to_nat cols)) gone ++ rev (kept (rev grid)),
          Z.of_nat gone)
  /\ board_ok (repeat (repeat Zero (Z.to_nat cols)) gone
               ++ rev (kept (rev grid))).
Proof.
  intros [Hlen Hrows]. cbv zeta.
  assert (Hup : Forall (fun row => length row = Z.to_nat cols) (rev grid)).
  { apply Forall_rev, Hrows. }
  pose proof (clear_rows_kept (length (rev grid)) (rev grid) [] 0 0
                (Nat.le_refl _) Hup) as H.
  cbv zeta in H. rewrite rev_involutive, !app_nil_r in H.
  rewrite length_rev in H. cbn [repeat app Nat.add] in H.
  rewrite Hlen, Z2Nat.id in H by (unfold rows; lia).
  rewrite <- Hlen in H. rewrite Z.add_0_l in H.
  split; [exact H|].
  pose proof (kept_length (length (rev grid)) (rev grid) (Nat.le_refl _))
    as Hk.
  rewrite length_rev in Hk. split.
  - rewrite length_app, repeat_length, length_rev. lia.
  - apply Forall_app. split.
    + apply Forall_forall. intros row Hin. apply repeat_spec in Hin.
      subst row. apply repeat_length.
    + apply Forall_rev.
      apply (kept_rows _ (length (rev grid))); [lia | exact Hup].
Qed.

Lemma score_table (n : nat) :
  ((n < 5)%nat ->
   exists points, getitem [0; 40; 100; 300; 1200] (Z.of_nat n) = Some points)
  /\ ((5 <= n)%nat -> getitem [0; 40; 100; 300; 1200] (Z.of_nat n) = None).
Proof.
  split.
  - intros H. do 5 (destruct n as [|n]; [eexists; reflexivity|]). lia.
  - intros H. unfold getitem. rewrite position_beyond; [reflexivity|].
    cbn [length]. lia.
Qed.

Lemma new_piece_ok (shape : Z) :
  0 <= shape < 7 ->
  exists p,
    new_piece shape = Some p
    /\ on_board (coords p)
    /\ exists px py rest, coords p = (px, py) :: rest /\ 0 <= py.
Proof.
  intros H.
  assert (Hs : shape = 0 \/ shape = 1 \/ shape = 2 \/ shape = 3
               \/ shape = 4 \/ shape = 5 \/ shape = 6) by lia.
  repeat (destruct Hs as [->|Hs]); try subst shape;
    (eexists; split; [reflexivity|]; split;
     [ unfold on_board; cbn;
       repeat (apply Forall_cons; [unfold cols, rows; cbn; lia|]);
       apply Forall_nil
     | cbn; do 3 eexists; split; [reflexivity | lia] ]).
Qed.

Lemma playable_with_coords (g : Game) (squares : list (Z * Z)) :
  playable g ->
  valid (grid g) squares ->
  (exists px py rest, squares = (px, py) :: rest /\ 0 <= py) ->
  playable (with_coords squares g).
Proof.
  intros (Hok & _ & _ & Hnext) Hv Hfirst.
  split; [exact Hok|]. split; [exact (valid_on_board _ _ Hv)|].
  split; [exact Hfirst | exact Hnext].
Qed.

(** [freeze_piece] in a state of play: the only thing that can go wrong
    is the lookup in the score table. *)
Lemma freeze_piece_spec (shape : Z) (g : Game) :
  playable g -> 0 <= shape < 7 ->
  match freeze_piece shape g with
  | Some g' =>
      playable g'
      /\ piece g' = next_piece g
      /\ exists placed lines points,
           place (grid g) (coords (piece g)) (color (piece g)) = Some placed
           /\ clear_rows placed (rev (range rows)) 0 = Some (grid g', lines)
           /\ getitem [0; 40; 100; 300; 1200] lines = Some points
           /\ score g' = score g + points
  | None => five_rows_cleared g (coords (piece g))
  end.
Proof.
  intros (Hok & Hon & _ & (s & Hs & Hnext)) Hshape. unfold freeze_piece.
  destruct (place_ok (coords (piece g)) (color (piece g)) (grid g) Hok Hon)
    as (placed & Hplace & Hpok).
  rewrite Hplace.
  destruct (clear_rows_board placed Hpok) as [Hclear Hcok].
  cbv zeta in Hclear, Hcok.
  set (gone := (length placed - length (kept (rev placed)))%nat) in *.
  set (cleared := repeat _ gone ++ _) in *.
  rewrite Hclear.
  destruct (Nat.lt_ge_cases gone 5) as [Hlt|Hge].
  2:{ rewrite (proj2 (score_table gone) Hge).
      exists placed, cleared, (Z.of_nat gone).
      split; [exact Hplace|]. split; [exact Hclear | lia]. }
  destruct (proj1 (score_table gone) Hlt) as (points & Hpoints).
  rewrite Hpoints.
  destruct (new_piece_ok shape Hshape) as (next & Hnew & _).
  rewrite Hnew.
  destruct (new_piece_ok s Hs) as (p & Hp & Hpon & Hpfirst).
  rewrite Hnext in Hp. injection Hp as <-.
  unfold can_move. cbn [grid piece coords].
  destruct (can_move_loop_spec cleared (coords (next_piece g)) 0 0 Hcok)
    as (b & Hb & _).
  rewrite Hb.
  assert (Hplay : forall r,
             playable {| grid := cleared; score := score g + points;
                         running := r; piece := next_piece g;
                         next_piece := next |}).
  { intros r. split; [exact Hcok|]. split; [exact Hpon|].
    split; [exact Hpfirst|]. exists shape. split; [exact Hshape|exact Hnew]. }
  destruct b; (split; [apply Hplay|]; split; [reflexivity|];
               exists placed, (Z.of_nat gone), points; cbn [grid score];
               repeat split; assumption).
Qed.

Lemma five_rows_cleared_with_coords (g : Game) (sq squares : list (Z * Z)) :
  five_rows_cleared (with_coords sq g) squares -> five_rows_cleared g squares.
Proof. intros H. exact H. Qed.

Lemma plays_on_freeze (shape : Z) (g : Game) :
  playable g -> 0 <= shape < 7 ->
  plays_on g (returned (freeze_piece shape g)).
Proof.
  intros Hplay Hshape.
  pose proof (freeze_piece_spec shape g Hplay Hshape) as H.
  destruct (freeze_piece shape g) as [g'|]; cbn.
  - apply H.
  - exists (coords (piece g)). exact H.
Qed.

Lemma plays_on_move (dx dy : Z) (g : Game) :
  playable g -> 0 <= dy ->
  plays_on g (returned (option_map snd (move_piece dx dy g))).
Proof.
  intros Hplay Hdy.
  destruct (move_piece_spec dx dy g (proj1 Hplay)) as [[Hv ->]|[_ ->]];
    cbn; [|exact Hplay].
  apply playable_with_coords; [exact Hplay | exact Hv|].
  destruct Hplay as (_ & _ & (px & py & rest & -> & Hpy) & _).
  cbn [map fst snd]. do 3 eexists. split; [reflexivity | lia].
Qed.

Lemma plays_on_rotate (g : Game) :
  playable g -> plays_on g (returned (rotate_piece g)).
Proof.
  intros Hplay.
  assert (Hne : coords (piece g) <> []).
  { destruct Hplay as (_ & _ & (px & py & rest & -> & _) & _). discriminate. }
  destruct (rotate_piece_spec g (proj1 Hplay) Hne)
    as (g' & Hrun & [->|(Hv & Hg & px & py & rest & Hc & Hc')]);
    rewrite Hrun; cbn; [exact Hplay|].
  rewrite Hg.
  apply playable_with_coords; [exact Hplay | exact Hv|].
  rewrite Hc', Hc. cbn [map fst snd].
  destruct Hplay as (_ & _ & (px' & py' & rest' & Hc'' & Hpy) & _).
  rewrite Hc in Hc''. injection Hc'' as -> -> _.
  do 3 eexists. split; [reflexivity | lia].
Qed.

(** The loop of the space key ends before the piece has fallen [rows]
    times. *)
Lemma plays_on_hard_drop (shape : Z) (fuel : nat) :
  forall g : Game,
    playable g -> 0 <= shape < 7 ->
    (forall px py rest,
       coords (piece g) = (px, py) :: rest ->
       (Z.to_nat (rows - py) <= fuel)%nat) ->
    plays_on g (hard_drop fuel shape g).
Proof.
  induction fuel as [|fuel IH]; intros g Hplay Hshape Hfuel.
  - destruct Hplay as (_ & Hon & (px & py & rest & Hc & Hpy) & _).
    specialize (Hfuel px py rest Hc). rewrite Hc in Hon.
    apply Forall_cons_iff in Hon. cbn [fst snd] in Hon. lia.
  - cbn [hard_drop].
    destruct (move_piece_spec 0 1 g (proj1 Hplay)) as [[Hv ->]|[_ ->]].
    + set (shifted := map _ _) in *.
      assert (Hplay' : playable (with_coords shifted g)).
      { apply playable_with_coords; [exact Hplay | exact Hv|].
        destruct Hplay as (_ & _ & (px & py & rest & Hc & Hpy) & _).
        unfold shifted. rewrite Hc. cbn [map fst snd].
        do 3 eexists. split; [reflexivity | lia]. }
      specialize (IH (with_coords shifted g) Hplay' Hshape).
      assert (Hless : forall px py rest,
                 coords (piece (with_coords shifted g)) = (px, py) :: rest ->
                 (Z.to_nat (rows - py) <= fuel)%nat).
      { destruct Hplay as (_ & _ & (px & py & rest & Hc & Hpy) & _).
        intros px' py' rest'. cbn [with_coords piece coords].
        unfold shifted. rewrite Hc. cbn [map fst snd].
        intros [= <- <- <-]. specialize (Hfuel px py rest Hc).
        apply valid_on_board in Hv. unfold shifted in Hv.
        rewrite Hc in Hv. apply Forall_cons_iff in Hv.
        cbn [map fst snd] in Hv. lia. }
      specialize (IH Hless).
      destruct (hard_drop fuel shape (with_coords shifted g));
        [exact IH | exact IH | exact IH].
    + apply plays_on_freeze; assumption.
Qed.

(** X19.  In a state of play (the grid has its 20 rows of 10 cells, the
    piece is on the board, the next piece is one [new_piece] makes) the
    timer and the five keys never index outside the grid, the loop of the
    space key ends within [rows] rounds, and each handler leaves a state
    of play again.  The one thing that can raise is the lookup in the
    five-entry score table, when the clearing loop has counted five rows
    or more. *)
Theorem tetris_stays_playable (g : Game) (shape : Z) (fuel : nat) :
  playable g -> 0 <= shape < 7 -> (Z.to_nat rows <= fuel)%nat ->
  plays_on g (returned (tick shape g))
  /\ forall k, plays_on g (on_key fuel shape k g).
Proof.
  intros Hplay Hshape Hfuel. split.
  - unfold tick. destruct (running g); cbn [negb]; [|exact Hplay].
    destruct (move_piece_spec 0 1 g (proj1 Hplay)) as [[Hv E]|[_ E]].
    + pose proof (plays_on_move 0 1 g Hplay ltac:(lia)) as H.
      rewrite E in *. exact H.
    + rewrite E. apply plays_on_freeze; assumption.
  - intros [| | | |]; cbn [on_key].
    + apply plays_on_move; [exact Hplay | lia].
    + apply plays_on_move; [exact Hplay | lia].
    + apply plays_on_move; [exact Hplay | lia].
    + apply plays_on_rotate, Hplay.
    + apply plays_on_hard_drop; [exact Hplay | exact Hshape|].
      intros px py rest Hc.
      destruct Hplay as (_ & _ & (px' & py' & rest' & Hc' & Hpy) & _).
      rewrite Hc in Hc'. injection Hc' as -> -> _. lia.
Qed.

Lemma kept_passes (low above : list (list cell)) :
  Forall (fun row => full row = false) low ->
  kept (low ++ above) = low ++ kept above.
Proof.
  induction 1 as [|h low Hh _ IH]; [reflexivity|].
  cbn [app]. rewrite (kept_skip _ _ Hh), IH. reflexivity.
Qed.

(** X20.  The clearing loop of [freeze_piece] does not look at the row
    directly above a row it has cleared: when the lowest full row has the
    row [upper] above it, the loop clears the lower one and leaves [upper]
    on the board in its place, full or not, above the same rows as
    before. *)
Theorem row_above_a_cleared_row_stays (top below : list (list cell))
  (upper lower : list cell) :
  board_ok (top ++ upper :: lower :: below) ->
  Forall (fun row => full row = false) below ->
  full lower = true ->
  exists top' lines,
    clear_rows (top ++ upper :: lower :: below) (rev (range rows)) 0
    = Some (top' ++ upper :: below, lines)
    /\ 1 <= lines
    /\ length top' = S (length top).
Proof.
  intros Hok Hbelow Hlower.
  destruct (clear_rows_board _ Hok) as [Hrun [Hlen _]].
  cbv zeta in Hrun, Hlen.
  assert (Hup : rev (top ++ upper :: lower :: below)
                = rev below ++ lower :: upper :: rev top).
  { rewrite rev_app_distr. cbn [rev]. rewrite <- !app_assoc. reflexivity. }
  assert (Hkept : kept (rev (top ++ upper :: lower :: below))
                  = rev below ++ upper :: kept (rev top)).
  { rewrite Hup, kept_passes by (apply Forall_rev, Hbelow).
    rewrite (kept_clear _ _ _ Hlower). reflexivity. }
  rewrite Hkept in Hrun, Hlen.
  pose proof (kept_length (length (rev top)) (rev top) (Nat.le_refl _)) as Hk.
  rewrite length_rev in Hk.
  set (gone := (length (top ++ upper :: lower :: below)
                - length (rev below ++ upper :: kept (rev top)))%nat) in *.
  assert (Hgone : (1 <= gone)%nat).
  { unfold gone. rewrite !length_app, length_rev. cbn [length]. lia. }
  exists (repeat (repeat Zero (Z.to_nat cols)) gone ++ rev (kept (rev top))),
    (Z.of_nat gone).
  split; [|split; [lia|]].
  - rewrite Hrun. f_equal. f_equal.
    rewrite rev_app_distr. cbn [rev]. rewrite rev_involutive.
    rewrite <- !app_assoc. reflexivity.
  - destruct Hok as [Hl _].
    rewrite rev_app_distr in Hlen. cbn [rev] in Hlen.
    rewrite rev_involutive in Hlen.
    repeat (rewrite ?length_app, ?length_rev, ?repeat_length in Hlen;
            cbn [length] in Hlen).
    rewrite length_app in Hl. cbn [length] in Hl.
    rewrite length_app, repeat_length, length_rev. lia.
Qed.

(** X21.  The game opens in a state of play, whatever the two shapes
    drawn: an empty grid of 20 rows of 10 cells, both pieces on the
    board. *)
Theorem tetris_starts_playable (first second : Z) :
  0 <= first < 7 -> 0 <= second < 7 ->
  exists g,
    start first second = Some g
    /\ playable g
    /\ score g = 0 /\ running g = true
    /\ Forall (Forall (fun c => truthy c = false)) (grid g).
Proof.
  intros Hf Hs. unfold start.
  destruct (new_piece_ok first Hf) as (p & Hp & Hon & Hfirst).
  destruct (new_piece_ok second Hs) as (n & Hn & _).
  rewrite Hp, Hn. eexists. split; [reflexivity|].
  split; [|split; [reflexivity|split; [reflexivity|]]].
  - split; [|split; [exact Hon|split; [exact Hfirst|]]].
    + split; [apply repeat_length|].
      apply Forall_forall. intros row Hin. apply repeat_spec in Hin.
      subst row. apply repeat_length.
    + exists second. split; assumption.
  - cbn [grid]. apply Forall_forall. intros row Hin.
    apply repeat_spec in Hin. subst row.
    apply Forall_forall. intros c Hin. apply repeat_spec in Hin.
    subst c. reflexivity.
Qed.

Lemma opening_board_ok : board_ok (grid opening).
Proof.
  split; [reflexivity|]. cbn.
  repeat (apply Forall_cons; [reflexivity|]). apply Forall_nil.
Qed.

Lemma opening_playable : playable opening.
Proof.
  split; [exact opening_board_ok|]. split; [|split].
  - unfold on_board. cbn.
    repeat (apply Forall_cons; [unfold cols, rows; cbn; lia|]).
    apply Forall_nil.
  - cbn. do 3 eexists. split; [reflexivity | lia].
  - exists 1. split; [lia | reflexivity].
Qed.

Lemma two_full_rows_board_ok :
  board_ok (empty_rows ++ [grey_row; grey_row]).
Proof.
  split; [reflexivity|]. cbn.
  repeat (apply Forall_cons; [reflexivity|]). apply Forall_nil.
Qed.

Lemma piece_never_overlaps_witness :
  let shifted := map (fun c => (fst c + 0, snd c + 1))
                   (coords (piece opening)) in
  ((valid (grid opening) shifted
    /\ move_piece 0 1 opening = Some (true, with_coords shifted opening))
   \/ (~ valid (grid opening) shifted
       /\ move_piece 0 1 opening = Some (false, opening)))
  /\ (coords (piece opening) <> [] ->
      exists g',
        rotate_piece opening = Some g'
        /\ (g' = opening
            \/ (valid (grid opening) (coords (piece g'))
                /\ g' = with_coords (coords (piece g')) opening))).
Proof.
  apply (piece_never_overlaps 0 1 opening). exact opening_board_ok.
Defined.

Lemma tetris_stays_playable_witness :
  plays_on opening (returned (tick 2 opening))
  /\ forall k, plays_on opening (on_key 20 2 k opening).
Proof.
  apply (tetris_stays_playable opening 2 20).
  - exact opening_playable.
  - lia.
  - cbn. lia.
Defined.

Lemma row_above_a_cleared_row_stays_witness :
  exists top' lines,
    clear_rows (empty_rows ++ grey_row :: grey_row :: [])
      (rev (range rows)) 0
    = Some (top' ++ grey_row :: [], lines)
    /\ 1 <= lines
    /\ length top' = S (length empty_rows).
Proof.
  apply (row_above_a_cleared_row_stays empty_rows [] grey_row grey_row).
  - exact two_full_rows_board_ok.
  - constructor.
  - reflexivity.
Defined.

Lemma tetris_starts_playable_witness :
  exists g,
    start 0 1 = Some g
    /\ playable g
    /\ score g = 0 /\ running g = true
    /\ Forall (Forall (fun c => truthy c = false)) (grid g).
Proof.
  apply (tetris_starts_playable 0 1); lia.
Defined.

End TetrisFacts.

(** * Spacer Snake *)

Section SnakeFacts.

Import Snake.










End SnakeFacts.
